(** * ts-analyzer: the single-pass metrics engine

    A shallow embedding of [src/analyzers/file-analyzer.js],
    [src/analyzers/duplicates.js], [src/index.js] (the analysis loop of
    [main] and [buildSummary]), [src/cli.js] and [src/scanner.js].

    The analyzers are written with JavaScript regular expressions, so the
    development starts with a small model of the part of the ECMAScript
    pattern language those expressions use: a backtracking matcher that
    lists the possible matches in priority order, the global scan behind
    [String.prototype.match], [matchAll] and [replace], and the insertion
    ordered [Set] and [Map]. *)

From Stdlib Require Import String Ascii List NArith ZArith Bool Arith Lia.
From Stdlib Require Import Sorting.Sorted Sorting.Permutation.
Import ListNotations.

Set Implicit Arguments.

(** ** Text: sequences of UTF-16 code units *)

Definition char := N.
Definition text := list char.

Definition of_string (s : string) : text :=
  map N_of_ascii (list_ascii_of_string s).

Notation "'t#' s" := (of_string s) (at level 9, s at level 0, format "'t#' s").

(** The double quote, written by its code unit. *)
Definition dq : char := 34%N.
Definition sq : char := 39%N.
Definition backtick : char := 96%N.

Definition text_eqb (a b : text) : bool :=
  if list_eq_dec N.eq_dec a b then true else false.

(** [s.substring(a, b)] for [a <= b]. *)
Definition substring (s : text) (a b : nat) : text := firstn (b - a) (skipn a s).

(** ** Character classes *)

Module CharClass.

Local Open Scope N_scope.

Definition in_range (lo hi c : char) : bool := (N.leb lo c && N.leb c hi)%bool.

(** LineTerminator: LF, CR, LS, PS. *)
Definition is_line_terminator (c : char) : bool :=
  (N.eqb c 10 || N.eqb c 13 || N.eqb c 8232 || N.eqb c 8233)%bool.

(** WhiteSpace of the ECMAScript grammar, without the line terminators. *)
Definition is_blank (c : char) : bool :=
  (N.eqb c 9 || N.eqb c 11 || N.eqb c 12 || N.eqb c 32 || N.eqb c 160
   || N.eqb c 5760 || in_range 8192 8202 c || N.eqb c 8239 || N.eqb c 8287
   || N.eqb c 12288 || N.eqb c 65279)%bool.

(** [\s]: WhiteSpace or LineTerminator. *)
Definition is_space (c : char) : bool := (is_blank c || is_line_terminator c)%bool.

(** [\w]: [A-Za-z0-9_]. *)
Definition is_word (c : char) : bool :=
  (in_range 97 122 c || in_range 65 90 c || in_range 48 57 c || N.eqb c 95)%bool.

Inductive cset : Type :=
| CChar (c : char)            (* a literal character *)
| CRange (lo hi : char)       (* a-z inside a class *)
| CSpace                      (* \s *)
| CWord                       (* \w *)
| CDot                        (* . without the s flag *)
| CAll                        (* [\s\S] *)
| CNot (a : cset)             (* [^...] and \S *)
| COr (a b : cset).           (* juxtaposition inside a class *)

Fixpoint mem (cs : cset) (c : char) : bool :=
  match cs with
  | CChar x => N.eqb c x
  | CRange lo hi => in_range lo hi c
  | CSpace => is_space c
  | CWord => is_word c
  | CDot => negb (is_line_terminator c)
  | CAll => true
  | CNot a => negb (mem a c)
  | COr a b => (mem a c || mem b c)%bool
  end.

End CharClass.
Import CharClass.

(** ** Patterns *)

Module Regex.

Inductive regex : Type :=
| Eps
| Chr (cs : cset)
| Seq (r1 r2 : regex)
| Alt (r1 r2 : regex)
| Star (greedy : bool) (r : regex)
| Group (i : nat) (r : regex)     (* capturing parentheses number i *)
| WordB                           (* \b *)
| EndLine.                        (* $ under the m flag *)

(** A literal run of characters. *)
Fixpoint lit_text (s : text) : regex :=
  match s with
  | [] => Eps
  | [c] => Chr (CChar c)
  | c :: tl => Seq (Chr (CChar c)) (lit_text tl)
  end.
Definition Lit (s : string) : regex := lit_text (of_string s).

(** [r+] and [r?] (both greedy). None of the quantified sub-patterns of
    this program can match the empty string or contains a capturing group,
    so the unfoldings below agree with the RepeatMatcher of the standard. *)
Definition Plus (r : regex) : regex := Seq r (Star true r).
Definition Opt (r : regex) : regex := Alt r Eps.

Fixpoint seqs (l : list regex) : regex :=
  match l with
  | [] => Eps
  | [r] => r
  | r :: tl => Seq r (seqs tl)
  end.

(** The state of the matcher: the character before the current position
    (if any), the input from the current position on, the index of the
    current position, and the captures recorded so far as
    (group, (start, end)). *)
Record mstate : Type := MState {
  prev : option char;
  rest : text;
  idx : nat;
  caps : list (nat * (nat * nat))
}.

Definition advance (st : mstate) (c : char) (tl : text) : mstate :=
  {| prev := Some c; rest := tl; idx := S (idx st); caps := caps st |}.

Definition set_cap (i from : nat) (st : mstate) : mstate :=
  {| prev := prev st; rest := rest st; idx := idx st;
     caps := (i, (from, idx st)) :: caps st |}.

Definition is_word_opt (o : option char) : bool :=
  match o with Some c => is_word c | None => false end.

Definition at_word_boundary (st : mstate) : bool :=
  xorb (is_word_opt (prev st)) (is_word_opt (hd_error (rest st))).

Definition at_line_end (st : mstate) : bool :=
  match rest st with
  | [] => true
  | c :: _ => is_line_terminator c
  end.

(** One more round of [r*]: [iter] lists the states after one match of the
    body, [again] continues from such a state; a round that consumes
    nothing is rejected. *)
Definition star_round (greedy : bool) (iter : list mstate)
    (again : mstate -> list mstate) (st : mstate) : list mstate :=
  let more := flat_map (fun st' => if idx st <? idx st' then again st' else []) iter in
  if greedy then more ++ [st] else st :: more.

(** [r*] with a bound on the number of rounds. *)
Fixpoint star_loop (greedy : bool) (body : mstate -> list mstate) (fuel : nat)
    (st : mstate) {struct fuel} : list mstate :=
  match fuel with
  | O => [st]
  | S fuel' => star_round greedy (body st) (star_loop greedy body fuel') st
  end.

(** [matchl r st] lists every way [r] can match at [st], as the state
    reached, in the order in which a backtracking matcher tries them. *)
Fixpoint matchl (r : regex) (st : mstate) {struct r} : list mstate :=
  match r with
  | Eps => [st]
  | Chr cs =>
      match rest st with
      | c :: tl => if mem cs c then [advance st c tl] else []
      | [] => []
      end
  | Seq r1 r2 => flat_map (matchl r2) (matchl r1 st)
  | Alt r1 r2 => matchl r1 st ++ matchl r2 st
  | Star greedy r1 =>
      (* every round consumes a character, so the bound is never reached *)
      star_loop greedy (matchl r1) (S (length (rest st))) st
  | Group i r1 => map (set_cap i (idx st)) (matchl r1 st)
  | WordB => if at_word_boundary st then [st] else []
  | EndLine => if at_line_end st then [st] else []
  end.

(** A successful match: where it starts, where it ends, its captures. *)
Record jsmatch : Type := JsMatch {
  m_start : nat;
  m_end : nat;
  m_caps : list (nat * (nat * nat))
}.

(** The first way [r] matches starting exactly at the given position. *)
Definition match_at (r : regex) (p : option char) (s : text) (i : nat) : option jsmatch :=
  match matchl r {| prev := p; rest := s; idx := i; caps := [] |} with
  | st :: _ => Some {| m_start := i; m_end := idx st; m_caps := caps st |}
  | [] => None
  end.

(** The loop of a global ([g]) pattern: starting at [lastIndex] try each
    position in turn; after a match continue at its end, or one further
    when the match is empty. [skip] is the number of positions still
    covered by the previous match. *)
Fixpoint scan (r : regex) (p : option char) (s : text) (i skip : nat) {struct s}
  : list jsmatch :=
  match skip with
  | S k =>
      match s with
      | [] => []
      | c :: tl => scan r (Some c) tl (S i) k
      end
  | O =>
      match match_at r p s i with
      | Some m =>
          m :: match s with
               | [] => []
               | c :: tl => scan r (Some c) tl (S i) (m_end m - i - 1)
               end
      | None =>
          match s with
          | [] => []
          | c :: tl => scan r (Some c) tl (S i) 0
          end
      end
  end.

(** [s.matchAll(r)] for a global [r]. *)
Definition matchAll (r : regex) (s : text) : list jsmatch := scan r None s 0 0.

(** [s.match(r)] for a global [r]: [null] when nothing matches, else the
    matched substrings. *)
Definition String_match (r : regex) (s : text) : option (list text) :=
  match matchAll r s with
  | [] => None
  | ms => Some (map (fun m => substring s (m_start m) (m_end m)) ms)
  end.

(** [match[i]] for a group that took part in the match. *)
Definition group (s : text) (m : jsmatch) (i : nat) : option text :=
  match find (fun c => Nat.eqb (fst c) i) (m_caps m) with
  | Some (_, (a, b)) => Some (substring s a b)
  | None => None
  end.

(** [s.replace(r, by)] for a global [r] and a replacement without [$]. *)
Fixpoint splice (s : text) (from : nat) (ms : list jsmatch) (by_ : text) : text :=
  match ms with
  | [] => skipn from s
  | m :: tl => substring s from (m_start m) ++ by_ ++ splice s (m_end m) tl by_
  end.

Definition replace (r : regex) (by_ : text) (s : text) : text :=
  splice s 0 (matchAll r s) by_.

End Regex.
Import Regex.

(** ** file-analyzer.js *)

Definition ws : regex := Chr CSpace.
Definition word : regex := Chr CWord.

(** COMPLEXITY_TOKENS, in the order of the source. *)
Definition TOK_IF : regex :=        (* /\bif\s*\(/g *)
  seqs [WordB; Lit "if"; Star true ws; Lit "("].
Definition TOK_ELSE_IF : regex :=   (* /\belse\s+if\s*\(/g *)
  seqs [WordB; Lit "else"; Plus ws; Lit "if"; Star true ws; Lit "("].
Definition TOK_FOR : regex :=       (* /\bfor\s*\(/g *)
  seqs [WordB; Lit "for"; Star true ws; Lit "("].
Definition TOK_FOR_OF : regex :=    (* /\bfor\s+(?:const|let|var)\s+\w+\s+(?:of|in)\b/g *)
  seqs [WordB; Lit "for"; Plus ws; Alt (Lit "const") (Alt (Lit "let") (Lit "var"));
        Plus ws; Plus word; Plus ws; Alt (Lit "of") (Lit "in"); WordB].
Definition TOK_WHILE : regex :=     (* /\bwhile\s*\(/g *)
  seqs [WordB; Lit "while"; Star true ws; Lit "("].
Definition TOK_DO : regex :=        (* /\bdo\s*\{/g *)
  seqs [WordB; Lit "do"; Star true ws; Lit "{"].
Definition TOK_CASE : regex :=      (* /\bcase\s+/g *)
  seqs [WordB; Lit "case"; Plus ws].
Definition TOK_CATCH : regex :=     (* /\bcatch\s*\(/g *)
  seqs [WordB; Lit "catch"; Star true ws; Lit "("].
Definition TOK_NULLISH : regex :=   (* /\?\?/g *)
  Lit "??".
Definition TOK_OPT_CHAIN : regex := (* /\?\./g *)
  Lit "?.".
Definition TOK_AND : regex :=       (* /&&/g *)
  Lit "&&".
Definition TOK_OR : regex :=        (* /\|\|/g *)
  Lit "||".
Definition TOK_TERNARY : regex :=   (* /\?[^?.]/g *)
  Seq (Lit "?") (Chr (CNot (COr (CChar 63%N) (CChar 46%N)))).

Definition COMPLEXITY_TOKENS : list regex :=
  [TOK_IF; TOK_ELSE_IF; TOK_FOR; TOK_FOR_OF; TOK_WHILE; TOK_DO; TOK_CASE;
   TOK_CATCH; TOK_NULLISH; TOK_OPT_CHAIN; TOK_AND; TOK_OR; TOK_TERNARY].

(** stripCommentsAndStrings *)
Definition RE_TEMPLATE : regex :=       (* /`[^`]*`/gs *)
  seqs [Chr (CChar backtick); Star true (Chr (CNot (CChar backtick))); Chr (CChar backtick)].
Definition RE_BLOCK_COMMENT : regex :=  (* /\/\*[\s\S]*?\*\//g *)
  seqs [Lit "/*"; Star false (Chr CAll); Lit "*/"].
Definition RE_LINE_COMMENT : regex :=   (* /\/\/.*$/gm *)
  seqs [Lit "//"; Star true (Chr CDot); EndLine].
Definition RE_SINGLE_QUOTED : regex :=  (* /'[^']*'/g *)
  seqs [Chr (CChar sq); Star true (Chr (CNot (CChar sq))); Chr (CChar sq)].
Definition RE_DOUBLE_QUOTED : regex :=  (* the same with the double quote *)
  seqs [Chr (CChar dq); Star true (Chr (CNot (CChar dq))); Chr (CChar dq)].

Definition stripCommentsAndStrings (code : text) : text :=
  replace RE_DOUBLE_QUOTED [dq; dq]
    (replace RE_SINGLE_QUOTED [dq; dq]
      (replace RE_LINE_COMMENT []
        (replace RE_BLOCK_COMMENT []
          (replace RE_TEMPLATE [dq; dq] code)))).

(** The number of matches of one token: the length of [stripped.match(pattern)],
    nothing when the result is [null]. *)
Definition token_count (pattern : regex) (stripped : text) : Z :=
  match String_match pattern stripped with
  | Some matches => Z.of_nat (length matches)
  | None => 0
  end.

Definition calculateComplexity (stripped : text) : Z :=
  fold_left (fun complexity pattern => complexity + token_count pattern stripped)%Z
            COMPLEXITY_TOKENS 1%Z.

(** extractFunctions. [match[1]] is read through [capture]: group 1 of each
    of the three patterns lies outside every alternative and quantifier, so
    it takes part in every match (lemma [capture_defined] below). *)
Definition capture (s : text) (m : jsmatch) (i : nat) : text :=
  match group s m i with
  | Some t => t
  | None => []
  end.

Definition RE_NAMED_FUNCTION : regex :=   (* /\bfunction\s+(\w+)/g *)
  seqs [WordB; Lit "function"; Plus ws; Group 1 (Plus word)].
Definition RE_ARROW_FUNCTION : regex :=
  (* /\b(?:const|let|var)\s+(\w+)\s*=\s*(?:async\s+)?(?:\([^)]*\)|[a-zA-Z_$]\w* )\s*=>/g,
     without the space before the closing parenthesis *)
  seqs [WordB; Alt (Lit "const") (Alt (Lit "let") (Lit "var")); Plus ws;
        Group 1 (Plus word); Star true ws; Lit "="; Star true ws;
        Opt (Seq (Lit "async") (Plus ws));
        Alt (seqs [Lit "("; Star true (Chr (CNot (CChar 41%N))); Lit ")"])
            (Seq (Chr (COr (CRange 97%N 122%N) (COr (CRange 65%N 90%N)
                          (COr (CChar 95%N) (CChar 36%N)))))
                 (Star true word));
        Star true ws; Lit "=>"].
Definition RE_CLASS : regex :=            (* /\bclass\s+(\w+)/g *)
  seqs [WordB; Lit "class"; Plus ws; Group 1 (Plus word)].

(** The insertion-ordered [Set] of strings, as the list of its elements in
    insertion order. *)
Module JsSet.
Definition has (s : list text) (x : text) : bool := existsb (text_eqb x) s.
Definition add (s : list text) (x : text) : list text :=
  if has s x then s else s ++ [x].
End JsSet.

(** [for (const match of s.matchAll(r)) found.add(match[1])] *)
Definition add_captures (r : regex) (s : text) (found : list text) : list text :=
  fold_left (fun found m => JsSet.add found (capture s m 1)) (matchAll r s) found.

Definition extractFunctions (stripped : text) : list text :=
  let found := [] in
  let found := add_captures RE_NAMED_FUNCTION stripped found in
  let found := add_captures RE_ARROW_FUNCTION stripped found in
  let found := add_captures RE_CLASS stripped found in
  found.

(** IMPORT_REGEX:
    import\s+(?:(?:type\s+)?(?:{[^}]*}|\*\s+as\s+\w+|\w+)
                (?:\s*,\s*(?:{[^}]*}|\*\s+as\s+\w+|\w+))*\s+from\s+)?Q([^Q]+)Q
    where Q stands for the class of the two quote characters. *)
Definition import_clause : regex :=       (* {[^}]*}|\*\s+as\s+\w+|\w+ *)
  Alt (seqs [Lit "{"; Star true (Chr (CNot (CChar 125%N))); Lit "}"])
      (Alt (seqs [Lit "*"; Plus ws; Lit "as"; Plus ws; Plus word])
           (Plus word)).
Definition quote : cset := COr (CChar sq) (CChar dq).
Definition IMPORT_REGEX : regex :=
  seqs [Lit "import"; Plus ws;
        Opt (seqs [Opt (Seq (Lit "type") (Plus ws));
                   import_clause;
                   Star true (seqs [Star true ws; Lit ","; Star true ws; import_clause]);
                   Plus ws; Lit "from"; Plus ws]);
        Chr quote; Group 1 (Plus (Chr (CNot quote))); Chr quote].

(** The order of [Array.prototype.sort] without a comparator on strings:
    code unit by code unit. *)
Fixpoint text_ltb (a b : text) : bool :=
  match a, b with
  | _, [] => false
  | [], _ :: _ => true
  | x :: a', y :: b' => (N.ltb x y || (N.eqb x y && text_ltb a' b'))%bool
  end.

(** [Array.prototype.sort]. The standard fixes the result, not the
    algorithm: on strings the order is total, so the result is the one
    sorted arrangement of the elements; insertion is one way to reach it. *)
Fixpoint sort_insert (x : text) (l : list text) : list text :=
  match l with
  | [] => [x]
  | y :: tl => if text_ltb y x then y :: sort_insert x tl else x :: l
  end.
Definition Array_sort (l : list text) : list text := fold_right sort_insert [] l.

Definition EXCLUDED : list text :=
  [t#"react"; t#"react-dom"; t#"react-redux"; t#"react-router"; t#"react-router-dom"].

Definition extractDependencies (content : text) : list text :=
  let deps :=
    fold_left (fun deps m =>
                 let specifier := capture content m 1 in
                 if negb (JsSet.has EXCLUDED specifier) then JsSet.add deps specifier
                 else deps)
              (matchAll IMPORT_REGEX content) [] in
  Array_sort deps.

(** [content.split('\n')] *)
Fixpoint split_lines (s : text) : list text :=
  match s with
  | [] => [[]]
  | c :: tl =>
      if N.eqb c 10 then [] :: split_lines tl
      else match split_lines tl with
           | l :: ls => (c :: l) :: ls
           | [] => [[c]]
           end
  end.

Fixpoint trimStart (s : text) : text :=
  match s with
  | c :: tl => if is_space c then trimStart tl else s
  | [] => []
  end.
Definition trim (s : text) : text := rev (trimStart (rev (trimStart s))).

Fixpoint startsWith (s p : text) : bool :=
  match p, s with
  | [], _ => true
  | x :: p', y :: s' => (N.eqb x y && startsWith s' p')%bool
  | _ :: _, [] => false
  end.

Record Options : Type := { opt_complexity : bool; opt_functions : bool }.

Record FileAnalysis : Type := {
  filePath : text;
  fileName : text;
  totalLines : Z;
  codeLines : Z;
  lines : Z;
  contentHash : text;
  functionCount : Z;
  functionNames : list text;
  dependencies : list text;
  complexity : Z
}.

Section Analyzer.

(** The platform: the file system seen through [fs.readFileSync(path, 'utf-8')]
    (nothing for a file that cannot be read, where the call throws),
    [path.basename] and the SHA-256 digest in hexadecimal. *)
Variable readFileSync : text -> option text.
Variable basename : text -> text.
Variable sha256_hex : text -> text.

Definition is_code_line (line : text) : bool :=
  let trimmed := trim line in
  (negb (Nat.eqb (length trimmed) 0)
   && negb (startsWith trimmed t#"//") && negb (startsWith trimmed t#"*"))%bool.

(** analyzeFile; the result is absent when reading the file throws. *)
Definition analyzeFile (path : text) (opts : Options) : option FileAnalysis :=
  match readFileSync path with
  | None => None
  | Some content =>
      let fileName := basename path in
      let stripped := stripCommentsAndStrings content in
      let lines := split_lines content in
      let totalLines := Z.of_nat (length lines) in
      let codeLines := Z.of_nat (length (filter is_code_line lines)) in
      let contentHash := sha256_hex content in
      let found := if opt_functions opts then extractFunctions stripped else [] in
      let functionCount := if opt_functions opts then Z.of_nat (length found) else 0%Z in
      let functionNames := found in
      let dependencies := extractDependencies content in
      let complexityScore :=
        if opt_complexity opts then calculateComplexity stripped else 0%Z in
      Some {| filePath := path;
              fileName := fileName;
              totalLines := totalLines;
              codeLines := codeLines;
              lines := totalLines;
              contentHash := contentHash;
              functionCount := functionCount;
              functionNames := functionNames;
              dependencies := dependencies;
              complexity := complexityScore |}
  end.

End Analyzer.

(** ** duplicates.js *)

(** The insertion-ordered [Map] from strings, as the list of its entries in
    insertion order. *)
Module JsMap.
Section WithValue.
Variable V : Type.
Definition t := list (text * V).

Fixpoint get (m : t) (k : text) : option V :=
  match m with
  | [] => None
  | (k', v) :: tl => if text_eqb k k' then Some v else get tl k
  end.

Definition has (m : t) (k : text) : bool :=
  match get m k with Some _ => true | None => false end.

(** [set] keeps the place of a key that is already present. *)
Fixpoint set (m : t) (k : text) (v : V) : t :=
  match m with
  | [] => [(k, v)]
  | (k', v') :: tl => if text_eqb k k' then (k', v) :: tl else (k', v') :: set tl k v
  end.
End WithValue.
End JsMap.

Record DuplicateGroup : Type := { hash : text; files : list text }.

(** The body of the first loop: the array stored under the hash is
    extended in place. *)
Definition record_file (hashMap : JsMap.t (list text)) (result : FileAnalysis)
  : JsMap.t (list text) :=
  let hashMap :=
    if negb (JsMap.has hashMap (contentHash result))
    then JsMap.set hashMap (contentHash result) []
    else hashMap in
  match JsMap.get hashMap (contentHash result) with
  | Some paths => JsMap.set hashMap (contentHash result) (paths ++ [filePath result])
  | None => hashMap
  end.

Definition findDuplicates (results : list FileAnalysis) : list DuplicateGroup :=
  let hashMap := fold_left record_file results [] in
  fold_left (fun groups entry =>
               let '(h, fs) := entry in
               if 1 <? length fs then groups ++ [{| hash := h; files := fs |}]
               else groups)
            hashMap [].

(** ** index.js: buildSummary *)

Record Config : Type := {
  cfg_duplicates : bool;
  cfg_complexity : bool;
  cfg_functions : bool
}.

Record Summary : Type := {
  sum_totalFiles : Z;
  sum_totalLines : Z;
  sum_totalFunctions : option Z;       (* nothing stands for null *)
  sum_totalComplexity : option Z;
  sum_complexityLevel : option string
}.

(** [results.reduce((sum, r) => sum + f(r), 0)] *)
Definition reduce_sum (f : FileAnalysis -> Z) (results : list FileAnalysis) : Z :=
  fold_left (fun sum r => sum + f r)%Z results 0%Z.

Definition complexity_level (totalComplexity : Z) : string :=
  if (totalComplexity <=? 500)%Z then "Low"
  else if (totalComplexity <=? 1500)%Z then "Medium"
  else if (totalComplexity <=? 3000)%Z then "High"
  else "Very High".

Definition buildSummary (results : list FileAnalysis) (config : Config) : Summary :=
  let totalLines := reduce_sum lines results in
  let totalFiles := Z.of_nat (length results) in
  let totalFunctions :=
    if cfg_functions config then Some (reduce_sum functionCount results) else None in
  let totalComplexity :=
    if cfg_complexity config then Some (reduce_sum complexity results) else None in
  let complexityLevel :=
    match totalComplexity with
    | Some total => Some (complexity_level total)
    | None => None
    end in
  {| sum_totalFiles := totalFiles;
     sum_totalLines := totalLines;
     sum_totalFunctions := totalFunctions;
     sum_totalComplexity := totalComplexity;
     sum_complexityLevel := complexityLevel |}.

(** getDuplicateFilePaths (duplicates.js): the set of the paths of all
    groups. *)
Definition getDuplicateFilePaths (groups : list DuplicateGroup) : list text :=
  fold_left (fun paths group =>
               fold_left (fun paths file => JsSet.add paths file) (files group) paths)
            groups [].

(** ** index.js: main *)

(** What main hands to the logger while it analyzes: a warning for a file
    that could not be analyzed, and the progress after every file. *)
Inductive log_event : Type :=
| LogSkipped (filePath : text)
| LogProgress (current total : nat).

Section Main.

Variable readFileSync : text -> option text.
Variable basename : text -> text.
Variable sha256_hex : text -> text.

(** The loop of main over the scanned files: [i] is the index of the first
    of [files], [total] is [files.length] of the whole list; a file whose
    analysis throws is skipped with a warning. *)
Fixpoint analysis_loop (opts : Options) (total : nat) (files : list text) (i : nat)
    (results : list FileAnalysis) (log : list log_event)
  : list FileAnalysis * list log_event :=
  match files with
  | [] => (results, log)
  | filePath :: rest =>
      let '(results, log) :=
        match analyzeFile readFileSync basename sha256_hex filePath opts with
        | Some result => (results ++ [result], log)
        | None => (results, log ++ [LogSkipped filePath])
        end in
      analysis_loop opts total rest (S i) results (log ++ [LogProgress (i + 1) total])
  end.

Definition analyze_all (config : Config) (files : list text)
  : list FileAnalysis * list log_event :=
  analysis_loop {| opt_complexity := cfg_complexity config;
                   opt_functions := cfg_functions config |}
                (length files) files 0 [] [].

(** What main computes for the report from the scanned files: the results,
    the duplicate groups (none unless requested) and the summary. *)
Definition report_data (config : Config) (files : list text)
  : list FileAnalysis * list DuplicateGroup * Summary :=
  let results := fst (analyze_all config files) in
  let duplicateGroups := if cfg_duplicates config then findDuplicates results else [] in
  let summary := buildSummary results config in
  (results, duplicateGroups, summary).

End Main.

(** ** cli.js *)

Definition DEFAULT_IGNORE : list text :=
  [t#"**/node_modules/**"; t#"**/dist/**"; t#"**/build/**"; t#"**/.next/**";
   t#"**/coverage/**"; t#"**/*.d.ts"; t#"**/*.spec.ts"; t#"**/*.spec.tsx";
   t#"**/*.test.ts"; t#"**/*.test.tsx"].

(** [s.split(sep)] for a separator of one character. *)
Fixpoint split_on (sep : char) (s : text) : list text :=
  match s with
  | [] => [[]]
  | c :: tl =>
      if N.eqb c sep then [] :: split_on sep tl
      else match split_on sep tl with
           | l :: ls => (c :: l) :: ls
           | [] => [[c]]
           end
  end.

(** What minimist gives for an option declared as a string: nothing when
    the option is absent and has no default, its string when it is given
    once, the array of its strings when it is given more than once. *)
Inductive string_option : Type :=
| OptUndefined
| OptString (s : text)
| OptArray (l : list text).

(** [args.ignore ? args.ignore.split(',').map(s => s.trim()) : []]. The
    empty string is falsy; an array is truthy and has no [split], so the
    call throws a TypeError, which is the result [None]. *)
Definition extraIgnore (ignore : string_option) : option (list text) :=
  match ignore with
  | OptUndefined => Some []
  | OptString [] => Some []
  | OptString (c :: tl) => Some (map trim (split_on 44%N (c :: tl)))
  | OptArray _ => None
  end.

Section Cli.

(** The values minimist puts into [args._] (strings, or numbers for
    arguments that look like numbers) and their truthiness. *)
Variable value : Type.
Variable truthy : value -> bool.

(** The result of minimist as far as parseArgs reads it. The options
    declared boolean are always booleans; [path] has a default, so it is a
    string or an array. *)
Record MinimistArgs : Type := {
  arg_duplicates : bool;
  arg_complexity : bool;
  arg_functions : bool;
  arg_all : bool;
  arg_help : bool;
  arg_verbose : bool;
  arg_path : string_option;
  arg_ignore : string_option;
  arg_positional : list value
}.

Variable minimist : list text -> MinimistArgs.

Record CliConfig : Type := {
  projectDir : value;
  outputPath : string_option;
  duplicates : bool;
  complexity_enabled : bool;
  functions_enabled : bool;
  verbose : bool;
  ignorePatterns : list text
}.

(** parseArgs ends the process with an exit code, throws a TypeError, or
    returns the configuration; what it prints before it exits is left
    out. *)
Inductive parse_result : Type :=
| ProcessExit (code : Z)
| Thrown
| Parsed (config : CliConfig).

Definition parseArgs (argv : list text) : parse_result :=
  let args := minimist argv in
  if arg_help args then ProcessExit 0
  else
    let all := arg_all args in
    let a_duplicates := if all then true else arg_duplicates args in
    let a_complexity := if all then true else arg_complexity args in
    let a_functions := if all then true else arg_functions args in
    let none := (negb a_duplicates && negb a_complexity && negb a_functions)%bool in
    let a_duplicates := if none then true else a_duplicates in
    let a_complexity := if none then true else a_complexity in
    let a_functions := if none then true else a_functions in
    match hd_error (arg_positional args) with
    | None => ProcessExit 1
    | Some dir =>
        if negb (truthy dir) then ProcessExit 1
        else
          match extraIgnore (arg_ignore args) with
          | None => Thrown
          | Some extraIgnore =>
              Parsed {| projectDir := dir;
                        outputPath := arg_path args;
                        duplicates := a_duplicates;
                        complexity_enabled := a_complexity;
                        functions_enabled := a_functions;
                        verbose := arg_verbose args;
                        ignorePatterns := DEFAULT_IGNORE ++ extraIgnore |}
          end
    end.

End Cli.

(** ** scanner.js *)

(** The directory tree as [fs.readdirSync(dir, {withFileTypes: true})] shows
    it: a directory lists named entries, or cannot be read; entries that
    are neither files nor directories (links and the like) are not
    followed. *)
#[warnings="-register-all"]
Inductive fsnode : Type :=
| FsFile
| FsDir (listing : option (list (text * fsnode)))
| FsOther.

(** [/\.tsx?$/]: the part before the end anchor. *)
Definition RE_TS_SUFFIX : regex :=
  seqs [Lit "."; Lit "ts"; Opt (Lit "x")].

(** [r.test(s)] for a pattern [r$] without flags: some match of [r] from
    some position ends at the end of the text. *)
Fixpoint test_to_end (r : regex) (p : option char) (s : text) (i : nat) : bool :=
  (existsb (fun st => match rest st with [] => true | _ :: _ => false end)
           (matchl r {| prev := p; rest := s; idx := i; caps := [] |})
   || match s with
      | [] => false
      | c :: tl => test_to_end r (Some c) tl (S i)
      end)%bool.

Definition is_ts_name (name : text) : bool := test_to_end RE_TS_SUFFIX None name 0.

Section Scanner.

(** [path.join], [path.relative], [path.resolve] and
    [minimatch(path, pattern, {dot: true})]. *)
Variable join : text -> text -> text.
Variable relative : text -> text -> text.
Variable resolve : text -> text.
Variable minimatch : text -> text -> bool.

Variable ignore : list text.
Variable absoluteRoot : text.

(** walk: [node] is what the file system holds at [dir]; reading anything
    but a readable directory throws, and walk returns. *)
Fixpoint walk (dir : text) (node : fsnode) (results : list text) {struct node}
  : list text :=
  match node with
  | FsDir (Some entries) =>
      (fix each (entries : list (text * fsnode)) (results : list text) {struct entries}
         : list text :=
         match entries with
         | [] => results
         | (name, entry) :: more =>
             let fullPath := join dir name in
             let relativePath := relative absoluteRoot fullPath in
             let shouldIgnore :=
               existsb (fun pattern => minimatch relativePath pattern) ignore in
             if shouldIgnore then each more results
             else match entry with
                  | FsDir _ => each more (walk fullPath entry results)
                  | FsFile =>
                      if is_ts_name name then each more (results ++ [fullPath])
                      else each more results
                  | FsOther => each more results
                  end
         end) entries results
  | _ => results
  end.

End Scanner.

Definition scanTypeScriptFiles (join relative : text -> text -> text)
    (resolve : text -> text) (minimatch : text -> text -> bool)
    (root : fsnode) (rootDir : text) (ignore : list text) : list text :=
  let absoluteRoot := resolve rootDir in
  Array_sort (walk join relative minimatch ignore absoluteRoot absoluteRoot root []).

(** ** Notions used to state the properties *)

Definition Zsum (l : list Z) : Z := fold_right Z.add 0%Z l.

(** The number of matches of a global pattern in a text. *)
Definition count_matches (r : regex) (s : text) : nat := length (matchAll r s).

(** A file record with the given path, content hash, line count, function
    count and complexity, for the scenarios. *)
Definition sample_result (path hash : string) (n_lines n_functions n_complexity : Z)
  : FileAnalysis :=
  {| filePath := t#path; fileName := t#path;
     totalLines := n_lines; codeLines := n_lines; lines := n_lines;
     contentHash := t#hash;
     functionCount := n_functions; functionNames := [];
     dependencies := [];
     complexity := n_complexity |}.

(** The paths of the results whose content hash is [h], in the order of
    the results. *)
Definition paths_with (h : text) (results : list FileAnalysis) : list text :=
  map filePath (filter (fun r => text_eqb (contentHash r) h) results).

(** The strict order behind [Array.prototype.sort]. *)
Definition text_lt (a b : text) : Prop := text_ltb a b = true.

(** Group [i] takes part in every match of [r]. *)
Fixpoint binds (i : nat) (r : regex) : bool :=
  match r with
  | Group j r1 => (Nat.eqb j i || binds i r1)%bool
  | Seq r1 r2 => (binds i r1 || binds i r2)%bool
  | Alt r1 r2 => (binds i r1 && binds i r2)%bool
  | _ => false
  end.

(** The state of the map after the results [seen]: every hash that occurs
    is a key exactly once, bound to the paths that carry it. *)
Definition grouped (hashMap : JsMap.t (list text)) (seen : list FileAnalysis) : Prop :=
  NoDup (map fst hashMap)
  /\ forall h, JsMap.get hashMap h =
               match paths_with h seen with
               | [] => None
               | ps => Some ps
               end.

(** The declaration shapes the function detector looks for. *)
Definition detector_patterns : list regex :=
  [RE_NAMED_FUNCTION; RE_ARROW_FUNCTION; RE_CLASS].

(** *** Linear patterns

    Most tokens are a plain sequence of single characters, greedy runs of a
    class and word boundaries, every run being followed by a character
    outside its class. Such a pattern has at most one way to match at a
    position, found without backtracking by [lin_match]. *)

Inductive atom : Type :=
| AClass (cs : cset)      (* one character of the class *)
| ARun (cs : cset)        (* as many characters of the class as there are *)
| ABoundary.              (* \b *)

Definition atom_regex (a : atom) : regex :=
  match a with
  | AClass cs => Chr cs
  | ARun cs => Star true (Chr cs)
  | ABoundary => WordB
  end.

Fixpoint lin_regex (l : list atom) : regex :=
  match l with
  | [] => Eps
  | a :: tl => Seq (atom_regex a) (lin_regex tl)
  end.

(** The atoms of a pattern written with [Seq], [Chr], greedy [Star] of a
    class and [WordB] only. *)
Fixpoint linearize (r : regex) : option (list atom) :=
  match r with
  | Eps => Some []
  | Chr cs => Some [AClass cs]
  | Seq r1 r2 =>
      match linearize r1, linearize r2 with
      | Some l1, Some l2 => Some (l1 ++ l2)
      | _, _ => None
      end
  | Star true (Chr cs) => Some [ARun cs]
  | WordB => Some [ABoundary]
  | _ => None
  end.

(** Every run is followed by a literal character outside its class. *)
Fixpoint run_delimited (l : list atom) : bool :=
  match l with
  | [] => true
  | ARun cs :: tl =>
      match tl with
      | AClass (CChar c) :: _ => (negb (mem cs c) && run_delimited tl)%bool
      | _ => false
      end
  | _ :: tl => run_delimited tl
  end.

(** The length of the longest prefix made of characters of the class. *)
Fixpoint span (cs : cset) (s : text) : nat :=
  match s with
  | x :: tl => if mem cs x then S (span cs tl) else 0
  | [] => 0
  end.

(** The position [j] characters further: the character before it and the
    text from it on. *)
Fixpoint drop_state (j : nat) (p : option char) (s : text) : option char * text :=
  match j, s with
  | S k, x :: tl => drop_state k (Some x) tl
  | _, _ => (p, s)
  end.

(** The number of characters a linear pattern matches at a position. *)
Fixpoint lin_match (l : list atom) (p : option char) (s : text) : option nat :=
  match l with
  | [] => Some 0
  | AClass cs :: tl =>
      match s with
      | x :: s' => if mem cs x then option_map S (lin_match tl (Some x) s') else None
      | [] => None
      end
  | ARun cs :: tl =>
      let n := span cs s in
      let '(p', s') := drop_state n p s in
      option_map (Nat.add n) (lin_match tl p' s')
  | ABoundary :: tl =>
      if xorb (is_word_opt p) (is_word_opt (hd_error s)) then lin_match tl p s else None
  end.

(** The matcher state [n] characters further. *)
Fixpoint jump (n : nat) (st : mstate) : mstate :=
  match n with
  | O => st
  | S k =>
      match rest st with
      | x :: tl => jump k (advance st x tl)
      | [] => st
      end
  end.

(** The number of positions of a text, from the current one on, at which
    [M] finds a match; [occ_from] leaves out the first [skip] positions. *)
Fixpoint occ (M : option char -> text -> option nat) (p : option char) (s : text) : nat :=
  (match M p s with Some _ => 1 | None => 0 end)
  + match s with
    | [] => 0
    | x :: tl => occ M (Some x) tl
    end.

Fixpoint occ_from (M : option char -> text -> option nat) (p : option char) (s : text)
    (skip : nat) : nat :=
  match skip, s with
  | O, _ => occ M p s
  | S k, x :: tl => occ_from M (Some x) tl k
  | S k, [] => 0
  end.

(** What [M] finds [j] positions further. *)
Definition found_at (M : option char -> text -> option nat) (j : nat)
    (p : option char) (s : text) : option nat :=
  M (fst (drop_state j p s)) (snd (drop_state j p s)).

(** The atoms of the if and else-if tokens. *)
Definition PAREN_TAIL : list atom := [ARun CSpace; AClass (CChar 40%N)].
Definition IF_ATOMS : list atom :=
  ABoundary :: AClass (CChar 105%N) :: AClass (CChar 102%N) :: PAREN_TAIL.
Definition ELSE_IF_ATOMS : list atom :=
  ABoundary :: AClass (CChar 101%N) :: AClass (CChar 108%N) :: AClass (CChar 115%N)
    :: AClass (CChar 101%N) :: AClass CSpace :: ARun CSpace
    :: AClass (CChar 105%N) :: AClass (CChar 102%N) :: PAREN_TAIL.

(** The number of places where a text reads [if], optional white space and
    an opening parenthesis, the [i] not following a word character. *)
Definition if_occurrences (s : text) : nat := occ (lin_match IF_ATOMS) None s.

(** *** White space of the same kind

    Two characters are of the same kind when they are equal, or both white
    space that does not end a line, or both line terminators. *)
Definition same_kind (c c' : char) : Prop :=
  c = c'
  \/ (is_blank c = true /\ is_blank c' = true)
  \/ (is_line_terminator c = true /\ is_line_terminator c' = true).

Definition same_kind_opt (o o' : option char) : Prop :=
  match o, o' with
  | Some c, Some c' => same_kind c c'
  | None, None => True
  | _, _ => False
  end.

(** The class names no white space character, so that it cannot tell
    characters of the same kind apart. *)
Fixpoint space_blind_cset (cs : cset) : bool :=
  match cs with
  | CChar k => negb (is_space k)
  | CRange lo hi => (N.leb 33 lo && N.leb hi 159)%bool
  | CSpace | CWord | CDot | CAll => true
  | CNot a => space_blind_cset a
  | COr a b => (space_blind_cset a && space_blind_cset b)%bool
  end.

Fixpoint space_blind (r : regex) : bool :=
  match r with
  | Chr cs => space_blind_cset cs
  | Seq r1 r2 | Alt r1 r2 => (space_blind r1 && space_blind r2)%bool
  | Star _ r1 | Group _ r1 => space_blind r1
  | Eps | WordB | EndLine => true
  end.

(** Matcher states at the same position of two texts that agree up to the
    kind of their white space. *)
Definition state_sim (st st' : mstate) : Prop :=
  idx st = idx st' /\ caps st = caps st'
  /\ same_kind_opt (prev st) (prev st')
  /\ Forall2 same_kind (rest st) (rest st').

(** *** Quoted literals *)

(** The atoms of the three literal patterns of the normalizer, for the
    quote character [q]. *)
Definition QUOTED_ATOMS (q : char) : list atom :=
  [AClass (CChar q); ARun (CNot (CChar q)); AClass (CChar q)].

(** A character that is no quote, no backtick and no slash. *)
Definition plain (c : char) : Prop :=
  c <> backtick /\ c <> sq /\ c <> dq /\ c <> 47%N.

(** Every match of the pattern starts with the character [k]. *)
Definition starts_with (r : regex) (k : char) : Prop :=
  forall st, (forall tl, rest st <> k :: tl) -> matchl r st = [].

(** The character before the position that follows the text [a]. *)
Definition last_before (a : text) (p : option char) : option char :=
  match rev a with
  | x :: _ => Some x
  | [] => p
  end.

(** A text without its white space. *)
Definition without_space (t : text) : text := filter (fun c => negb (is_space c)) t.

(** The score of a raw text. *)
Definition score (t : text) : Z := calculateComplexity (stripCommentsAndStrings t).

(** A state reached from [st] by consuming input. *)
Definition reached_from (st st' : mstate) : Prop :=
  idx st <= idx st' /\ idx st' + length (rest st') = idx st + length (rest st).

(** *** Patterns that appended text cannot break *)

(** Every run is the last atom or is followed by a literal character
    outside its class. *)
Fixpoint runs_closed (l : list atom) : bool :=
  match l with
  | [] => true
  | ARun cs :: tl =>
      match tl with
      | [] => true
      | AClass (CChar c) :: _ => (negb (mem cs c) && runs_closed tl)%bool
      | _ => false
      end
  | _ :: tl => runs_closed tl
  end.

(** Every word boundary is followed by an atom that consumes a character. *)
Fixpoint boundary_guarded (l : list atom) : bool :=
  match l with
  | [] => true
  | ABoundary :: tl =>
      match tl with
      | AClass _ :: _ => boundary_guarded tl
      | _ => false
      end
  | _ :: tl => boundary_guarded tl
  end.

Definition consumes (l : list atom) : bool :=
  existsb (fun a => match a with AClass _ => true | _ => false end) l.

(** After the first character [c1], which is a word character, nothing in
    the rest of a match could start a match: a character is not [c1], or it
    follows a word character, where there is no boundary. [after_word]
    tells that the character before is known to be a word character. *)
Fixpoint clear_of (c1 : char) (after_word : bool) (l : list atom) : bool :=
  match l with
  | [] => true
  | AClass (CChar c) :: tl =>
      ((negb (N.eqb c c1) || after_word) && clear_of c1 (is_word c) tl)%bool
  | AClass cs :: tl => (negb (mem cs c1) && clear_of c1 false tl)%bool
  | ARun cs :: tl => (negb (mem cs c1) && clear_of c1 false tl)%bool
  | ABoundary :: tl => clear_of c1 after_word tl
  end.

Definition keyword_like (l : list atom) : bool :=
  match l with
  | ABoundary :: AClass (CChar c1) :: tl => (is_word c1 && clear_of c1 true tl)%bool
  | _ => false
  end.

Definition fixed_length (l : list atom) : bool :=
  forallb (fun a => match a with AClass _ => true | _ => false end) l.

(** No match of a pattern that starts with [\b c1] can start here. *)
Definition blocked (c1 : char) (p : option char) (s : text) : Prop :=
  match s with
  | [] => True
  | x :: _ => x <> c1 \/ is_word_opt p = true
  end.

(** The tokens that appended text cannot break: linear patterns with closed
    runs and guarded boundaries that are keyword-like or of fixed length. *)
Definition append_stable (l : list atom) : bool :=
  (runs_closed l && boundary_guarded l && consumes l
   && (keyword_like l || fixed_length l))%bool.

(** *** Comments *)

(** A character that may stand in a comment: no backtick and no slash. *)
Definition comment_char (c : char) : Prop := c <> backtick /\ c <> 47%N.

Definition BLOCK_BODY : regex := Seq (Star false (Chr CAll)) (Lit "*/").

(** The text ends here or a line ends here. *)
Definition at_eol (post : text) : Prop :=
  match post with
  | [] => True
  | c :: _ => is_line_terminator c = true
  end.

(** *** Captured text *)

(** The state [st] is a position of the text [s]. *)
Definition position_of (s : text) (st : mstate) : Prop := rest st = skipn (idx st) s.

(** Every group of [r] is a run [[cs]+]. *)
Fixpoint groups_over (cs : cset) (r : regex) : Prop :=
  match r with
  | Group _ r1 => r1 = Plus (Chr cs)
  | Seq r1 r2 | Alt r1 r2 => groups_over cs r1 /\ groups_over cs r2
  | Star _ r1 => groups_over cs r1
  | _ => True
  end.

(** The capture [c] spans a text of [s] that is not empty and lies in
    [cs]. *)
Definition span_over (cs : cset) (s : text) (c : nat * (nat * nat)) : Prop :=
  substring s (fst (snd c)) (snd (snd c)) <> []
  /\ Forall (fun x => mem cs x = true) (substring s (fst (snd c)) (snd (snd c))).

(** The module specifiers the import pattern captures, in the order of
    the matches. *)
Definition specifiers (content : text) : list text :=
  map (fun m => capture content m 1) (matchAll IMPORT_REGEX content).

(** *** Lines, groups and totals *)

(** The number of occurrences of a character. *)
Definition occurrences (c : char) (s : text) : nat :=
  length (filter (fun x => N.eqb x c) s).

(** The number of line feeds of a text. *)
Definition line_feeds (s : text) : nat := occurrences 10%N s.

(** The distinct elements of a list in the order of their first
    occurrence. *)
Definition first_seen (l : list text) : list text := fold_left JsSet.add l [].

(** The order of the complexity levels. *)
Definition level_rank (level : string) : nat :=
  if String.eqb level "Low" then 0
  else if String.eqb level "Medium" then 1
  else if String.eqb level "High" then 2
  else 3.

(** *** The analysis loop *)

Definition readable (readFileSync : text -> option text) (path : text) : bool :=
  match readFileSync path with Some _ => true | None => false end.

Definition is_progress (e : log_event) : bool :=
  match e with LogProgress _ _ => true | LogSkipped _ => false end.

Section LoopNotions.

Variable readFileSync : text -> option text.
Variable basename : text -> text.
Variable sha256_hex : text -> text.

(** The records of the files that can be analyzed, in the order of the
    files. *)
Definition analyzed (opts : Options) (files : list text) : list FileAnalysis :=
  flat_map (fun path =>
              match analyzeFile readFileSync basename sha256_hex path opts with
              | Some r => [r]
              | None => []
              end) files.

(** What the loop logs from the file of index [i] on. *)
Fixpoint loop_log (total : nat) (files : list text) (i : nat) : list log_event :=
  match files with
  | [] => []
  | path :: rest =>
      (if readable readFileSync path then [] else [LogSkipped path])
      ++ LogProgress (i + 1) total :: loop_log total rest (S i)
  end.

End LoopNotions.

(** *** Command line *)


(** A text that neither starts nor ends with white space. *)
Definition trimmed (s : text) : Prop :=
  (forall c, hd_error s = Some c -> is_space c = false)
  /\ (forall c, hd_error (rev s) = Some c -> is_space c = false).

(** *** The scan *)

Definition ends_with (s suffix : text) : Prop := exists pre, s = pre ++ suffix.

Section ScanNotions.

Variable join : text -> text -> text.
Variable relative : text -> text -> text.
Variable minimatch : text -> text -> bool.
Variable ignore : list text.
Variable absoluteRoot : text.

(** The loop of walk over the entries of the directory [dir]. *)
Fixpoint walk_entries (dir : text) (entries : list (text * fsnode)) (results : list text)
  : list text :=
  match entries with
  | [] => results
  | (name, entry) :: more =>
      let fullPath := join dir name in
      if existsb (fun pattern => minimatch (relative absoluteRoot fullPath) pattern) ignore
      then walk_entries dir more results
      else match entry with
           | FsDir _ =>
               walk_entries dir more
                 (walk join relative minimatch ignore absoluteRoot fullPath entry results)
           | FsFile =>
               if is_ts_name name then walk_entries dir more (results ++ [fullPath])
               else walk_entries dir more results
           | FsOther => walk_entries dir more results
           end
  end.

End ScanNotions.

(** The order of [Array.prototype.sort] with equal elements allowed. *)
Definition text_le (a b : text) : Prop := text_ltb b a = false.

(** A small platform for the scenarios: paths joined with a slash, the
    relative path as what follows the root, a pattern that matches the path
    equal to it, and a tree with a file, a directory and a directory that
    cannot be read. *)
Definition sample_join (dir name : text) : text := dir ++ t#"/" ++ name.
Definition sample_relative (root path : text) : text := skipn (length root + 1) path.
Definition sample_minimatch (path pattern : text) : bool := text_eqb path pattern.
Definition sample_tree : fsnode :=
  FsDir (Some [(t#"a.ts", FsFile);
               (t#"lib", FsDir (Some [(t#"b.tsx", FsFile); (t#"c.js", FsFile)]));
               (t#"locked", FsDir None);
               (t#"link.ts", FsOther)]).

(** *** Lengths of matches *)

(** A lower bound on the number of characters a match of [r] consumes. *)
Fixpoint min_length (r : regex) : nat :=
  match r with
  | Chr _ => 1
  | Seq r1 r2 => min_length r1 + min_length r2
  | Alt r1 r2 => Nat.min (min_length r1) (min_length r2)
  | Group _ r1 => min_length r1
  | Eps | Star _ _ | WordB | EndLine => 0
  end.

(** The matches [ms] lie one after the other between [from] and [limit],
    and each spans at least [k] characters. *)
Fixpoint well_placed (from limit k : nat) (ms : list jsmatch) : Prop :=
  match ms with
  | [] => True
  | m :: tl =>
      from <= m_start m /\ m_start m + k <= m_end m /\ m_end m <= limit
      /\ well_placed (m_end m) limit k tl
  end.

(** ** Notions used for the normalizer on every text *)

(** *** Patterns with one way to match

    A pattern built from single characters, greedy runs of a class, word
    boundaries and alternatives, written with its continuation: what
    follows an alternative is repeated in each branch. [dmatch] reads such
    a pattern without backtracking. *)
Inductive dpat : Type :=
| DEnd
| DClass (cs : cset) (k : dpat)
| DRun (cs : cset) (k : dpat)
| DBoundary (k : dpat)
| DAlt (a b : dpat).

Fixpoint dregex (d : dpat) : regex :=
  match d with
  | DEnd => Eps
  | DClass cs k => Seq (Chr cs) (dregex k)
  | DRun cs k => Seq (Star true (Chr cs)) (dregex k)
  | DBoundary k => Seq WordB (dregex k)
  | DAlt a b => Alt (dregex a) (dregex b)
  end.

(** The pattern [r] followed by [k], when [r] is written with [Seq], [Alt],
    [Chr], greedy [Star] of a class and [WordB] only. *)
Fixpoint to_dpat (r : regex) (k : dpat) : option dpat :=
  match r with
  | Eps => Some k
  | Chr cs => Some (DClass cs k)
  | Seq r1 r2 =>
      match to_dpat r2 k with
      | Some d2 => to_dpat r1 d2
      | None => None
      end
  | Alt r1 r2 =>
      match to_dpat r1 k, to_dpat r2 k with
      | Some a, Some b => Some (DAlt a b)
      | _, _ => None
      end
  | Star true (Chr cs) => Some (DRun cs k)
  | WordB => Some (DBoundary k)
  | _ => None
  end.

(** The number of characters the pattern matches at a position. *)
Fixpoint dmatch (d : dpat) (p : option char) (s : text) : option nat :=
  match d with
  | DEnd => Some 0
  | DClass cs k =>
      match s with
      | x :: s' => if mem cs x then option_map S (dmatch k (Some x) s') else None
      | [] => None
      end
  | DRun cs k =>
      let n := span cs s in
      let '(p', s') := drop_state n p s in
      option_map (Nat.add n) (dmatch k p' s')
  | DBoundary k =>
      if xorb (is_word_opt p) (is_word_opt (hd_error s)) then dmatch k p s else None
  | DAlt a b =>
      match dmatch a p s with
      | Some n => Some n
      | None => dmatch b p s
      end
  end.

(** What follows a run cannot start with a character of the run, unless
    nothing follows. *)
Definition run_guard (cs : cset) (k : dpat) : Prop :=
  forall st x tl, rest st = x :: tl -> mem cs x = true -> matchl (dregex k) st = [].

Fixpoint dwf (d : dpat) : Prop :=
  match d with
  | DEnd => True
  | DClass _ k | DBoundary k => dwf k
  | DRun cs k => (k = DEnd \/ run_guard cs k) /\ dwf k
  | DAlt a b => dwf a /\ dwf b
  end.

(** Whether a class holds every white space character or none. *)
Fixpoint space_class (cs : cset) : option bool :=
  match cs with
  | CChar k => if is_space k then None else Some false
  | CSpace | CAll => Some true
  | CWord => Some false
  | CNot a => option_map negb (space_class a)
  | COr a b =>
      match space_class a, space_class b with
      | Some x, Some y => Some (x || y)%bool
      | _, _ => None
      end
  | CDot | CRange _ _ => None
  end.

(** Every match starts with a character that is no white space. *)
Fixpoint dstarts (d : dpat) : bool :=
  match d with
  | DClass cs _ => match space_class cs with Some false => true | _ => false end
  | DBoundary k => dstarts k
  | DAlt a b => (dstarts a && dstarts b)%bool
  | DEnd | DRun _ _ => false
  end.

(** The classes do not tell white space characters apart, and a single
    white space character is only read before a run of white space or, when
    [strict] is off, at the very end. *)
Fixpoint dsafe (strict : bool) (d : dpat) : bool :=
  match d with
  | DEnd => true
  | DClass cs k =>
      match space_class cs with
      | Some false => dsafe strict k
      | Some true =>
          match k with
          | DEnd => negb strict
          | DRun cs' _ =>
              match space_class cs' with Some true => dsafe strict k | _ => false end
          | _ => false
          end
      | None => false
      end
  | DRun cs k =>
      match space_class cs with
      | Some _ => dsafe strict k
      | None => false
      end
  | DBoundary k => dsafe strict k
  | DAlt a b => (dsafe strict a && dsafe strict b)%bool
  end.

(** *** Replacement and counting along a text

    [rep MA by p s skip] is the text [s] with every match replaced by [by],
    and [hits MA p s skip] the number of matches, when [MA] tells the
    length of the match at a position; [skip] characters are still covered
    by the match before. *)
Fixpoint rep (MA : option char -> text -> option nat) (by_ : text) (p : option char)
    (s : text) (skip : nat) {struct s} : text :=
  match skip with
  | S k =>
      match s with
      | [] => []
      | c :: tl => rep MA by_ (Some c) tl k
      end
  | O =>
      match MA p s with
      | Some n =>
          by_ ++ match s with
                 | [] => []
                 | c :: tl => rep MA by_ (Some c) tl (n - 1)
                 end
      | None =>
          match s with
          | [] => []
          | c :: tl => c :: rep MA by_ (Some c) tl 0
          end
      end
  end.

Fixpoint hits (MA : option char -> text -> option nat) (p : option char)
    (s : text) (skip : nat) {struct s} : nat :=
  match skip with
  | S k =>
      match s with
      | [] => 0
      | c :: tl => hits MA (Some c) tl k
      end
  | O =>
      match MA p s with
      | Some n =>
          S match s with
            | [] => 0
            | c :: tl => hits MA (Some c) tl (n - 1)
            end
      | None =>
          match s with
          | [] => 0
          | c :: tl => hits MA (Some c) tl 0
          end
      end
  end.

(** The length of the line comment and of the block comment that start at
    a position. *)
Definition MA_line (p : option char) (s : text) : option nat :=
  match s with
  | x :: y :: tl =>
      if (N.eqb x 47 && N.eqb y 47)%bool then Some (2 + span CDot tl) else None
  | _ => None
  end.

(** The place of the first [*/]. *)
Fixpoint find_close (s : text) : option nat :=
  match s with
  | [] => None
  | x :: tl =>
      match tl with
      | y :: _ =>
          if (N.eqb x 42 && N.eqb y 47)%bool then Some 0
          else option_map S (find_close tl)
      | [] => None
      end
  end.

Definition MA_block (p : option char) (s : text) : option nat :=
  match s with
  | x :: y :: tl =>
      if (N.eqb x 47 && N.eqb y 42)%bool
      then option_map (fun k => k + 4) (find_close tl)
      else None
  | _ => None
  end.

(** The pattern of a token or of a literal of the normalizer. *)
Definition pattern_of (r : regex) : dpat :=
  match to_dpat r DEnd with
  | Some d => d
  | None => DEnd
  end.

(** *** One white space character less

    What a match at a position of [a ++ w :: x :: b] becomes in
    [a ++ y :: b], where [n] is the length of [a]: it lies before the two
    characters, or it ends with [w] and now ends with [y] (only when
    [exact] is off), or it stops between the two and now stops before [y],
    which is [x], or it passes both and is one character shorter. *)
Definition del_out (exact : bool) (n : nat) (x y : char) (o o' : option nat) : Prop :=
  match o, o' with
  | None, None => True
  | Some k, Some k' =>
      (k <= n /\ k' = k)
      \/ (k = S n /\ k' = S n /\ exact = false)
      \/ (k = S n /\ k' = n /\ y = x)
      \/ (n + 2 <= k /\ k' = k - 1)
  | _, _ => False
  end.

(** Two texts are the same, or the second is the first with [y] in the
    place of the two white space characters [w] and [x]. *)
Definition same_or_less (w x y : char) (t t' : text) : Prop :=
  t = t' \/ exists a b, t = a ++ w :: x :: b /\ t' = a ++ y :: b.

(** A pattern that [dmatch] reads as the backtracking matcher does, whose
    matches start with a character that is no white space, and which does
    not tell white space characters apart. *)
Definition good_pattern (strict : bool) (r : regex) : Prop :=
  to_dpat r DEnd = Some (pattern_of r)
  /\ dwf (pattern_of r)
  /\ dstarts (pattern_of r) = true
  /\ dsafe strict (pattern_of r) = true.

(** The length of the match of a pattern at a position. *)
Definition MA_of (r : regex) : option char -> text -> option nat := dmatch (pattern_of r).

(** Of two white space characters in a row, [y] is one that ends a line if
    either does. *)
Definition keeps_line_end (w x y : char) : Prop :=
  (y = x /\ (is_line_terminator w = true -> is_line_terminator x = true))
  \/ (y = w /\ is_line_terminator x = false).

(** *** White space squeezed

    [squeeze s] is [s] with every run of white space replaced by one
    character: a line feed when the run holds a line terminator, a blank
    otherwise. *)
Definition canonical (c : char) : char := if is_line_terminator c then 10%N else 32%N.

Fixpoint squeeze (s : text) : text :=
  match s with
  | [] => []
  | c :: tl =>
      if is_space c then
        match squeeze tl with
        | d :: tl' =>
            if is_space d
            then (if is_line_terminator c then 10%N else d) :: tl'
            else canonical c :: d :: tl'
        | [] => [canonical c]
        end
      else c :: squeeze tl
  end.

(** *** A raw text read as code, literals and comments

    A raw text is read as a list of segments: pieces of code, quoted string
    literals with their quote character, template literals, block comments
    and line comments. [render] is the text as written; [outside] is what
    stands outside comments and strings: the comments are gone and an empty
    literal stands for each literal. *)
Inductive segment : Type :=
| Code (s : text)
| Quoted (q : char) (body : text)
| Template (body : text)
| BlockComment (body : text)
| LineComment (body : text).

Definition written (seg : segment) : text :=
  match seg with
  | Code s => s
  | Quoted q body => q :: body ++ [q]
  | Template body => backtick :: body ++ [backtick]
  | BlockComment body => 47%N :: 42%N :: body ++ [42%N; 47%N]
  | LineComment body => 47%N :: 47%N :: body
  end.

Definition kept (seg : segment) : text :=
  match seg with
  | Code s => s
  | Quoted _ _ | Template _ => [dq; dq]
  | BlockComment _ | LineComment _ => []
  end.

Definition render (segs : list segment) : text := flat_map written segs.
Definition outside (segs : list segment) : text := flat_map kept segs.

(** The character [k] does not occur in [s]. *)
Definition absent (k : char) (s : text) : bool := negb (existsb (N.eqb k) s).

(** No [x] of [s] is followed by [y], when [next] follows the last
    character of [s]. *)
Fixpoint free (x y : char) (s : text) (next : option char) : bool :=
  match s with
  | [] => true
  | c :: tl =>
      negb (N.eqb c x
            && match (match tl with d :: _ => Some d | [] => next end) with
               | Some d => N.eqb d y
               | None => false
               end)
      && free x y tl next
  end.

(** No slash of [s] is followed by a slash or a star, and none ends [s]. *)
Definition no_opener (s : text) : bool :=
  (free 47%N 47%N s (Some 47%N) && free 47%N 42%N s (Some 42%N))%bool.

(** The segments start with a line terminator in a piece of code, or there
    are none. *)
Definition starts_line (segs : list segment) : bool :=
  match segs with
  | [] => true
  | Code (c :: _) :: _ => is_line_terminator c
  | _ => false
  end.

(** The segment is what it says: code holds no quote, no backtick and no
    comment opener; a string literal is closed by its first quote
    character, a template literal by the first backtick, a block comment by
    the first [*/]; a line comment runs to the end of its line. *)
Definition lexical_segment (seg : segment) (more : list segment) : bool :=
  match seg with
  | Code s => absent sq s && absent dq s && absent backtick s && no_opener s
  | Quoted q body => (N.eqb q sq || N.eqb q dq) && absent q body
  | Template body => absent backtick body
  | BlockComment body => free 42%N 47%N body None
  | LineComment body =>
      forallb (fun c => negb (is_line_terminator c)) body && starts_line more
  end.

(** What the normalizer needs beyond that: no backtick in a string literal
    or in a comment, no comment opener in a string literal, no apostrophe in
    a double-quoted literal, no [/*] in a line comment. *)
Definition calm_segment (seg : segment) : bool :=
  match seg with
  | Code _ | Template _ => true
  | Quoted q body =>
      absent backtick body && no_opener (body ++ [q])
      && (negb (N.eqb q dq) || absent sq body)
  | BlockComment body => absent backtick body
  | LineComment body => absent backtick body && free 47%N 42%N (47%N :: body) None
  end.

Fixpoint lexical (segs : list segment) : bool :=
  match segs with
  | [] => true
  | seg :: more => lexical_segment seg more && lexical more
  end.

Fixpoint tame (segs : list segment) : bool :=
  match segs with
  | [] => true
  | seg :: more => lexical_segment seg more && calm_segment seg && tame more
  end.

(** The pass of the normalizer that rewrites a segment: template literals
    first, then block comments, line comments, single-quoted and
    double-quoted literals; code is never rewritten. *)
Definition stage_of (seg : segment) : nat :=
  match seg with
  | Template _ => 1
  | BlockComment _ => 2
  | LineComment _ => 3
  | Quoted q _ => if N.eqb q sq then 4 else 5
  | Code _ => 6
  end.

(** The segment after [k] passes. *)
Definition at_stage (k : nat) (seg : segment) : text :=
  if stage_of seg <=? k then kept seg else written seg.

(** The pattern of a quoted literal. *)
Definition quoted_pattern (q : char) : dpat :=
  DClass (CChar q) (DRun (CNot (CChar q)) (DClass (CChar q) DEnd)).

(** [squash s] is [s] with every run of white space replaced by one blank. *)
Fixpoint squash (s : text) : text :=
  match s with
  | [] => []
  | c :: tl =>
      if is_space c then
        match squash tl with
        | d :: tl' => if is_space d then d :: tl' else 32%N :: d :: tl'
        | [] => [32%N]
        end
      else c :: squash tl
  end.

(** Two segments that differ at most in the interior of a literal or of a
    comment. *)
Definition same_frame (seg seg' : segment) : Prop :=
  match seg, seg' with
  | Code s, Code s' => s = s'
  | Quoted q _, Quoted q' _ => q = q'
  | Template _, Template _ => True
  | BlockComment _, BlockComment _ => True
  | LineComment _, LineComment _ => True
  | _, _ => False
  end.

(** Readings used as examples. In [url_in_string] a string literal holds
    two slashes. In each of [unruly_readings] a literal or a comment holds
    what the normalizer takes for the start of something else: [/*] in a
    string, an apostrophe in a double-quoted string, a backtick in a
    string, a backtick in a comment, [/*] in a line comment. *)
Definition url_in_string : list segment :=
  [Code t#"u = "; Quoted sq t#"http://x"; Code t#"; if (a) {}"].

Definition unruly_readings : list (list segment) :=
  [ [Code t#"u = "; Quoted sq t#"/*"; Code t#"; if (a) {} v = "; Quoted sq t#"*/"; Code t#";"];
    [Code t#"u = "; Quoted dq t#"it's"; Code t#"; if (a) {} v = "; Quoted sq t#"x"; Code t#";"];
    [Code t#"u = "; Quoted sq t#"a`b"; Code t#"; if (a) {} v = "; Quoted sq t#"c`d"; Code t#";"];
    [BlockComment t#" ` "; Code t#" if (a) {} "; BlockComment t#" ` "];
    [LineComment t#" see /* here"; Code (10%N :: t#"if (a) {}" ++ [10%N]);
     BlockComment t#" note "] ].

Definition commented_ifs : list segment :=
  [Code t#"if (a) {} "; BlockComment t#" if (x) || y "; Code t#"if (b) { s = ";
   Quoted sq t#"if (y) && z"; Code t#"; } "; LineComment t#" while (1) case 2"].

Definition commented_ifs_respaced : list segment :=
  [Code (t#"if" ++ [10%N] ++ t#"(a)   {} "); LineComment t#" first";
   Code ([13%N] ++ t#"if (b) {" ++ [9%N] ++ t#"s = "); Template t#"${s} or else";
   Code (t#";" ++ [10%N; 10%N] ++ t#"} ")].

Definition commented_ifs' : list segment :=
  [Code t#"if (a) {} "; BlockComment t#"*"; Code t#"if (b) { s = ";
   Quoted sq t#"a ? b : c"; Code t#"; } "; LineComment t#""].

(** * Properties *)

(** ** Equality of texts *)

Lemma text_eqb_eq (a b : text) : text_eqb a b = true <-> a = b.
Proof.
  unfold text_eqb. destruct (list_eq_dec N.eq_dec a b); split; congruence.
Qed.

Lemma text_eqb_refl (a : text) : text_eqb a a = true.
Proof. now apply text_eqb_eq. Qed.

Lemma text_eqb_neq (a b : text) : text_eqb a b = false <-> a <> b.
Proof.
  unfold text_eqb. destruct (list_eq_dec N.eq_dec a b); split; congruence.
Qed.


(** ** Sums *)

Lemma fold_left_add_shift (A : Type) (f : A -> Z) (l : list A) (a : Z) :
  fold_left (fun sum r => sum + f r)%Z l a = (a + Zsum (map f l))%Z.
Proof.
  revert a. induction l as [|x l IH]; intros a; simpl.
  - lia.
  - rewrite IH. lia.
Qed.

Lemma reduce_sum_Zsum (f : FileAnalysis -> Z) (results : list FileAnalysis) :
  reduce_sum f results = Zsum (map f results).
Proof. unfold reduce_sum. rewrite fold_left_add_shift. lia. Qed.

Lemma Zsum_nonneg (l : list Z) : Forall (fun z => 0 <= z)%Z l -> (0 <= Zsum l)%Z.
Proof. induction 1; simpl; lia. Qed.

(** ** The complexity scorer *)

Lemma token_count_matchAll (r : regex) (s : text) :
  token_count r s = Z.of_nat (count_matches r s).
Proof.
  unfold token_count, String_match, count_matches.
  destruct (matchAll r s) as [|m ms]; [reflexivity|].
  now rewrite length_map.
Qed.

Lemma token_count_nonneg (r : regex) (s : text) : (0 <= token_count r s)%Z.
Proof. rewrite token_count_matchAll. lia. Qed.

(** The score is the baseline plus the number of matches of every token. *)
Lemma calculateComplexity_sum (s : text) :
  calculateComplexity s =
  (1 + Zsum (map (fun r => Z.of_nat (count_matches r s)) COMPLEXITY_TOKENS))%Z.
Proof.
  unfold calculateComplexity. rewrite fold_left_add_shift. f_equal.
  f_equal. apply map_ext. intros r. apply token_count_matchAll.
Qed.

Lemma calculateComplexity_baseline (s : text) : (1 <= calculateComplexity s)%Z.
Proof.
  rewrite calculateComplexity_sum.
  assert (0 <= Zsum (map (fun r => Z.of_nat (count_matches r s)) COMPLEXITY_TOKENS))%Z.
  { apply Zsum_nonneg. apply Forall_forall. intros z Hz.
    apply in_map_iff in Hz. destruct Hz as (r & <- & _). lia. }
  lia.
Qed.


Ltac token_neq := let H := fresh in intro H; vm_compute in H; discriminate H.

(** ** The file analyzer *)

Section AnalyzerFacts.

Variable readFileSync : text -> option text.
Variable basename : text -> text.
Variable sha256_hex : text -> text.

(** A readable file always gets its record. *)
Lemma analyzeFile_readable (path content : text) (opts : Options) :
  readFileSync path = Some content ->
  exists r, analyzeFile readFileSync basename sha256_hex path opts = Some r.
Proof.
  intros Hread. unfold analyzeFile. rewrite Hread. eauto.
Qed.

Lemma analyzeFile_unreadable (path : text) (opts : Options) :
  readFileSync path = None -> analyzeFile readFileSync basename sha256_hex path opts = None.
Proof. intros Hread. unfold analyzeFile. now rewrite Hread. Qed.

Lemma analyzeFile_fields (path content : text) (opts : Options) (r : FileAnalysis) :
  readFileSync path = Some content ->
  analyzeFile readFileSync basename sha256_hex path opts = Some r ->
  filePath r = path
  /\ contentHash r = sha256_hex content
  /\ lines r = totalLines r
  /\ totalLines r = Z.of_nat (length (split_lines content))
  /\ dependencies r = extractDependencies content
  /\ functionNames r =
       (if opt_functions opts then extractFunctions (stripCommentsAndStrings content)
        else [])
  /\ functionCount r = Z.of_nat (length (functionNames r))
  /\ complexity r =
       (if opt_complexity opts then calculateComplexity (stripCommentsAndStrings content)
        else 0%Z).
Proof.
  intros Hread. unfold analyzeFile. rewrite Hread.
  intros [= <-]. cbn.
  repeat split; try reflexivity.
  destruct (opt_functions opts); reflexivity.
Qed.

End AnalyzerFacts.

(** C5. The record of an analyzed file has complexity 0 when the analysis
    was not requested and the score of its normalized text, which is at
    least 1, when it was; the scorer returns at least 1 on every text. *)
Theorem analyzeFile_complexity_field
    (readFileSync : text -> option text) (basename sha256_hex : text -> text)
    (path content : text) (opts : Options) :
  readFileSync path = Some content ->
  (exists r, analyzeFile readFileSync basename sha256_hex path opts = Some r
             /\ (opt_complexity opts = false -> complexity r = 0%Z)
             /\ (opt_complexity opts = true ->
                 complexity r = calculateComplexity (stripCommentsAndStrings content)
                 /\ (1 <= complexity r)%Z))
  /\ (forall s : text, (1 <= calculateComplexity s)%Z).
Proof.
  intros Hread. split; [|apply calculateComplexity_baseline].
  destruct (analyzeFile_readable readFileSync basename sha256_hex path opts Hread)
    as [r Hr].
  exists r. split; [exact Hr|].
  destruct (analyzeFile_fields _ _ _ _ _ Hread Hr) as (_ & _ & _ & _ & _ & _ & _ & Hc).
  rewrite Hc. split; intros ->.
  - reflexivity.
  - split; [reflexivity | apply calculateComplexity_baseline].
Qed.

Lemma analyzeFile_complexity_field_witness :
  (exists r, analyzeFile (fun _ => Some t#"if (a) {}") (fun p => p) (fun _ => t#"00")
                         t#"/src/a.ts"
                         {| opt_complexity := true; opt_functions := false |} = Some r
             /\ (true = false -> complexity r = 0%Z)
             /\ (true = true ->
                 complexity r = calculateComplexity (stripCommentsAndStrings t#"if (a) {}")
                 /\ (1 <= complexity r)%Z))
  /\ (forall s : text, (1 <= calculateComplexity s)%Z).
Proof.
  apply (analyzeFile_complexity_field (fun _ => Some t#"if (a) {}") (fun p => p)
           (fun _ => t#"00") t#"/src/a.ts" (content := t#"if (a) {}")
           {| opt_complexity := true; opt_functions := false |}).
  reflexivity.
Defined.

(** ** The aggregator *)

Lemma buildSummary_unfold (results : list FileAnalysis) (config : Config) :
  buildSummary results config =
  {| sum_totalFiles := Z.of_nat (length results);
     sum_totalLines := Zsum (map lines results);
     sum_totalFunctions :=
       if cfg_functions config then Some (Zsum (map functionCount results)) else None;
     sum_totalComplexity :=
       if cfg_complexity config then Some (Zsum (map complexity results)) else None;
     sum_complexityLevel :=
       if cfg_complexity config
       then Some (complexity_level (Zsum (map complexity results))) else None |}.
Proof.
  unfold buildSummary. rewrite !reduce_sum_Zsum.
  destruct (cfg_complexity config); reflexivity.
Qed.

(** C2. With complexity analysis enabled, the level of the summed
    complexity is Low up to 500, Medium from 501 to 1500, High from 1501 to
    3000 and Very High above; a total of 1200 is Medium. *)
Theorem complexity_level_bands (results : list FileAnalysis) (config : Config) :
  cfg_complexity config = true ->
  let total := Zsum (map complexity results) in
  let level := sum_complexityLevel (buildSummary results config) in
  sum_totalComplexity (buildSummary results config) = Some total
  /\ ((total <= 500)%Z -> level = Some "Low"%string)
  /\ ((501 <= total <= 1500)%Z -> level = Some "Medium"%string)
  /\ ((1501 <= total <= 3000)%Z -> level = Some "High"%string)
  /\ ((3000 < total)%Z -> level = Some "Very High"%string)
  /\ (total = 1200%Z -> level = Some "Medium"%string).
Proof.
  intros Hc total level. subst level. rewrite buildSummary_unfold.
  cbn [sum_complexityLevel sum_totalComplexity]. rewrite Hc. fold total.
  unfold complexity_level.
  split; [reflexivity|].
  repeat split; intros H;
    repeat match goal with
           | |- context [(?a <=? ?b)%Z] => destruct (Z.leb_spec a b)
           end; try reflexivity; lia.
Qed.

Lemma complexity_level_bands_witness :
  sum_complexityLevel
    (buildSummary [sample_result "/a.ts" "aa" 900 40 700; sample_result "/b.ts" "bb" 600 25 500]
                  {| cfg_duplicates := true; cfg_complexity := true; cfg_functions := true |})
  = Some "Medium"%string.
Proof.
  pose proof (complexity_level_bands
                [sample_result "/a.ts" "aa" 900 40 700; sample_result "/b.ts" "bb" 600 25 500]
                {| cfg_duplicates := true; cfg_complexity := true; cfg_functions := true |}
                eq_refl) as H.
  cbv zeta in H. apply H. reflexivity.
Defined.

(** C9. The summary adds up the line counts of all results whatever the
    configuration; the function counts and the complexities are added up
    only when the matching analysis is enabled, and the fields of a disabled
    analysis (totalFunctions, totalComplexity, complexityLevel) are null,
    which is not the number zero. For results of the analyzer the line
    count added up is totalLines. *)
Theorem buildSummary_totals (results : list FileAnalysis) (config : Config) :
  sum_totalLines (buildSummary results config) = Zsum (map lines results)
  /\ (Forall (fun r => lines r = totalLines r) results ->
      sum_totalLines (buildSummary results config) = Zsum (map totalLines results))
  /\ sum_totalFiles (buildSummary results config) = Z.of_nat (length results)
  /\ (cfg_functions config = true ->
      sum_totalFunctions (buildSummary results config)
      = Some (Zsum (map functionCount results)))
  /\ (cfg_functions config = false ->
      sum_totalFunctions (buildSummary results config) = None)
  /\ (cfg_complexity config = true ->
      sum_totalComplexity (buildSummary results config)
      = Some (Zsum (map complexity results))
      /\ sum_complexityLevel (buildSummary results config)
         = Some (complexity_level (Zsum (map complexity results))))
  /\ (cfg_complexity config = false ->
      sum_totalComplexity (buildSummary results config) = None
      /\ sum_complexityLevel (buildSummary results config) = None)
  /\ (None : option Z) <> Some 0%Z.
Proof.
  rewrite buildSummary_unfold.
  cbn [sum_totalLines sum_totalFiles sum_totalFunctions sum_totalComplexity
       sum_complexityLevel].
  split; [reflexivity|]. split.
  { intros Hall. f_equal. apply map_ext_in. intros r Hr.
    exact (proj1 (Forall_forall _ _) Hall r Hr). }
  split; [reflexivity|].
  repeat split; try discriminate; intros;
    match goal with Hcfg : _ config = _ |- _ => rewrite Hcfg end; reflexivity.
Qed.

Lemma buildSummary_totals_witness :
  sum_totalLines
    (buildSummary [sample_result "/a.ts" "aa" 10 0 0; sample_result "/b.ts" "bb" 5 0 0]
       {| cfg_duplicates := true; cfg_complexity := false; cfg_functions := false |})
  = 15%Z
  /\ sum_totalFunctions
       (buildSummary [sample_result "/a.ts" "aa" 10 0 0; sample_result "/b.ts" "bb" 5 0 0]
          {| cfg_duplicates := true; cfg_complexity := false; cfg_functions := false |})
     = None
  /\ sum_totalComplexity
       (buildSummary [sample_result "/a.ts" "aa" 10 0 0; sample_result "/b.ts" "bb" 5 0 0]
          {| cfg_duplicates := true; cfg_complexity := false; cfg_functions := false |})
     = None
  /\ sum_complexityLevel
       (buildSummary [sample_result "/a.ts" "aa" 10 0 0; sample_result "/b.ts" "bb" 5 0 0]
          {| cfg_duplicates := true; cfg_complexity := false; cfg_functions := false |})
     = None.
Proof.
  destruct (buildSummary_totals
              [sample_result "/a.ts" "aa" 10 0 0; sample_result "/b.ts" "bb" 5 0 0]
              {| cfg_duplicates := true; cfg_complexity := false; cfg_functions := false |})
    as (Hlines & Htotal & _ & _ & Hf & _ & Hc & _).
  split; [rewrite Htotal; [reflexivity | repeat constructor] |].
  split; [apply Hf; reflexivity | apply Hc; reflexivity].
Defined.

(** ** The duplicate grouper *)

Module JsMapFacts.
Section WithValue.
Variable V : Type.
Implicit Types (m : JsMap.t V) (k : text) (v : V).

Lemma get_None_keys m k : JsMap.get m k = None <-> ~ In k (map fst m).
Proof.
  induction m as [|[k' v'] m IH]; simpl.
  - tauto.
  - destruct (text_eqb k k') eqn:E.
    + apply text_eqb_eq in E. subst. split; [discriminate | tauto].
    + apply text_eqb_neq in E. rewrite IH. split; [|tauto].
      intros Hn [Hk | Hk]; [congruence | tauto].
Qed.

Lemma set_fresh m k v : JsMap.get m k = None -> JsMap.set m k v = m ++ [(k, v)].
Proof.
  induction m as [|[k' v'] m IH]; simpl; [reflexivity|].
  destruct (text_eqb k k'); [discriminate|].
  intros H. now rewrite IH.
Qed.

Lemma set_keys m k v : JsMap.get m k <> None -> map fst (JsMap.set m k v) = map fst m.
Proof.
  induction m as [|[k' v'] m IH]; simpl; [congruence|].
  destruct (text_eqb k k'); simpl; [reflexivity|].
  intros H. now rewrite IH.
Qed.

Lemma get_set_same m k v : JsMap.get (JsMap.set m k v) k = Some v.
Proof.
  induction m as [|[k' v'] m IH]; simpl.
  - now rewrite text_eqb_refl.
  - destruct (text_eqb k k') eqn:E; simpl; rewrite E; [reflexivity | exact IH].
Qed.

Lemma get_set_other m k k' v : k' <> k -> JsMap.get (JsMap.set m k v) k' = JsMap.get m k'.
Proof.
  intros Hne. induction m as [|[k0 v0] m IH]; simpl.
  - apply text_eqb_neq in Hne. now rewrite Hne.
  - destruct (text_eqb k k0) eqn:E; simpl.
    + apply text_eqb_eq in E. subst k0.
      apply text_eqb_neq in Hne. now rewrite Hne.
    + destruct (text_eqb k' k0); [reflexivity | exact IH].
Qed.

Lemma set_set m k v v' : JsMap.set (JsMap.set m k v) k v' = JsMap.set m k v'.
Proof.
  induction m as [|[k0 v0] m IH]; simpl.
  - now rewrite text_eqb_refl.
  - destruct (text_eqb k k0) eqn:E; simpl; rewrite E; [reflexivity | now rewrite IH].
Qed.

Lemma In_get m k v : NoDup (map fst m) -> (In (k, v) m <-> JsMap.get m k = Some v).
Proof.
  induction m as [|[k0 v0] m IH]; simpl; intros Hnd.
  - split; [tauto | discriminate].
  - inversion Hnd as [|? ? Hnotin Hnd']; subst.
    destruct (text_eqb k k0) eqn:E.
    + apply text_eqb_eq in E. subst k0. split.
      * intros [[= ->] | Hin]; [reflexivity|].
        elim Hnotin. apply in_map_iff. now exists (k, v).
      * intros [= ->]. now left.
    + apply text_eqb_neq in E. rewrite <- (IH Hnd'). split.
      * intros [[= -> ->] | Hin]; [congruence | exact Hin].
      * tauto.
Qed.
End WithValue.
End JsMapFacts.
Import JsMapFacts.

(** What one step of the first loop does to the map. *)
Lemma record_file_cases (hashMap : JsMap.t (list text)) (r : FileAnalysis) :
  record_file hashMap r =
  match JsMap.get hashMap (contentHash r) with
  | Some paths => JsMap.set hashMap (contentHash r) (paths ++ [filePath r])
  | None => hashMap ++ [(contentHash r, [filePath r])]
  end.
Proof.
  unfold record_file, JsMap.has.
  destruct (JsMap.get hashMap (contentHash r)) eqn:E; cbn [negb].
  - now rewrite E.
  - rewrite get_set_same, set_set. now apply set_fresh.
Qed.

Lemma paths_with_app (h : text) (l1 l2 : list FileAnalysis) :
  paths_with h (l1 ++ l2) = paths_with h l1 ++ paths_with h l2.
Proof. unfold paths_with. now rewrite filter_app, map_app. Qed.

Lemma grouped_nil : grouped [] [].
Proof. split; [constructor | reflexivity]. Qed.

Lemma grouped_step (hashMap : JsMap.t (list text)) (seen : list FileAnalysis)
    (r : FileAnalysis) :
  grouped hashMap seen -> grouped (record_file hashMap r) (seen ++ [r]).
Proof.
  intros [Hnd Hget]. rewrite record_file_cases.
  assert (Hlast : forall h, paths_with h [r] =
                            if text_eqb (contentHash r) h then [filePath r] else []).
  { intros h. unfold paths_with. cbn. now destruct (text_eqb (contentHash r) h). }
  destruct (JsMap.get hashMap (contentHash r)) as [ps|] eqn:E; split.
  - rewrite set_keys; [exact Hnd | congruence].
  - intros h. rewrite paths_with_app, Hlast.
    destruct (text_eqb (contentHash r) h) eqn:Eh.
    + apply text_eqb_eq in Eh. subst h. rewrite get_set_same.
      rewrite Hget in E. destruct (paths_with (contentHash r) seen); [discriminate|].
      now injection E as <-.
    + apply text_eqb_neq in Eh. rewrite get_set_other by congruence.
      rewrite app_nil_r. apply Hget.
  - rewrite map_app. cbn. apply NoDup_app; [exact Hnd | repeat constructor; intros [] | ].
    intros k Hk [<- | []]. now apply get_None_keys in E.
  - intros h. rewrite paths_with_app, Hlast.
    destruct (text_eqb (contentHash r) h) eqn:Eh.
    + apply text_eqb_eq in Eh. subst h.
      rewrite <- (set_fresh _ _ _ E), get_set_same.
      rewrite Hget in E. now destruct (paths_with (contentHash r) seen).
    + apply text_eqb_neq in Eh.
      rewrite <- (set_fresh _ _ _ E), get_set_other by congruence.
      rewrite app_nil_r. apply Hget.
Qed.

Lemma grouped_fold (results : list FileAnalysis) :
  forall hashMap seen,
    grouped hashMap seen ->
    grouped (fold_left record_file results hashMap) (seen ++ results).
Proof.
  induction results as [|r results IH]; intros hashMap seen Hg; simpl.
  - now rewrite app_nil_r.
  - replace (seen ++ r :: results) with ((seen ++ [r]) ++ results)
      by now rewrite <- app_assoc.
    apply IH. now apply grouped_step.
Qed.

(** The second loop keeps the entries with more than one path. *)
Lemma findDuplicates_filter (results : list FileAnalysis) :
  findDuplicates results =
  map (fun e => {| hash := fst e; files := snd e |})
      (filter (fun e => 1 <? length (snd e)) (fold_left record_file results [])).
Proof.
  unfold findDuplicates.
  generalize (fold_left record_file results []) as hashMap.
  assert (H : forall (hashMap : JsMap.t (list text)) groups,
             fold_left (fun groups entry =>
                          let '(h, fs) := entry in
                          if 1 <? length fs
                          then groups ++ [{| hash := h; files := fs |}]
                          else groups) hashMap groups
             = groups ++ map (fun e => {| hash := fst e; files := snd e |})
                             (filter (fun e => 1 <? length (snd e)) hashMap)).
  { induction hashMap as [|[h fs] hashMap IH]; intros groups; simpl.
    - now rewrite app_nil_r.
    - rewrite IH. destruct (1 <? length fs); simpl; [|reflexivity].
      now rewrite <- app_assoc. }
  intros hashMap. apply H.
Qed.

Lemma findDuplicates_In (results : list FileAnalysis) (g : DuplicateGroup) :
  In g (findDuplicates results) <->
  files g = paths_with (hash g) results /\ 2 <= length (files g).
Proof.
  rewrite findDuplicates_filter.
  destruct (grouped_fold results grouped_nil) as [Hnd Hget]. simpl in Hget.
  set (hashMap := fold_left record_file results []) in *.
  rewrite in_map_iff. split.
  - intros ([h fs] & <- & Hin). apply filter_In in Hin. destruct Hin as [Hin Hlen].
    apply Nat.ltb_lt in Hlen. cbn in *.
    apply (In_get hashMap h fs Hnd) in Hin. rewrite Hget in Hin.
    destruct (paths_with h results); [discriminate|].
    injection Hin as <-. split; [reflexivity | lia].
  - intros [Hfiles Hlen]. exists (hash g, files g). split; [now destruct g|].
    apply filter_In. split; [|apply Nat.ltb_lt; cbn; lia].
    apply (In_get hashMap _ _ Hnd). rewrite Hget, <- Hfiles.
    destruct (files g); [simpl in Hlen; lia | reflexivity].
Qed.

Lemma NoDup_keys_filter (A B : Type) (f : A * B -> bool) (m : list (A * B)) :
  NoDup (map fst m) -> NoDup (map fst (filter f m)).
Proof.
  induction m as [|e m IH]; simpl; intros Hnd; [constructor|].
  inversion Hnd as [|? ? Hnotin Hnd']; subst.
  destruct (f e); simpl; [|now apply IH].
  constructor; [|now apply IH].
  intros Hin. apply Hnotin. apply in_map_iff in Hin. destruct Hin as (e' & He & Hin).
  apply filter_In in Hin. apply in_map_iff. exists e'. tauto.
Qed.

Lemma findDuplicates_NoDup (results : list FileAnalysis) :
  NoDup (map hash (findDuplicates results)).
Proof.
  rewrite findDuplicates_filter, map_map.
  destruct (grouped_fold results grouped_nil) as [Hnd _].
  apply (NoDup_keys_filter (fun e => 1 <? length (snd e)) _ Hnd).
Qed.

(** C3. The groups carry pairwise different hashes; a group holds exactly
    the paths of the results with its hash, in order, and there are at least
    two of them; a hash carried by two or more results has its group and a
    hash carried by fewer has none; two results with one hash and a third
    with another give the single group of the first two paths. *)
Theorem findDuplicates_groups (results : list FileAnalysis) :
  NoDup (map hash (findDuplicates results))
  /\ (forall g, In g (findDuplicates results) ->
                files g = paths_with (hash g) results /\ 2 <= length (files g))
  /\ (forall h, 2 <= length (paths_with h results) ->
                In {| hash := h; files := paths_with h results |} (findDuplicates results))
  /\ (forall h, length (paths_with h results) < 2 ->
                ~ In h (map hash (findDuplicates results)))
  /\ (forall a b c : FileAnalysis,
         contentHash a = contentHash b -> contentHash c <> contentHash a ->
         findDuplicates [a; b; c]
         = [{| hash := contentHash a; files := [filePath a; filePath b] |}]).
Proof.
  split; [apply findDuplicates_NoDup|].
  split; [intros g; apply findDuplicates_In|].
  split; [intros h Hlen; apply findDuplicates_In; cbn; tauto|].
  split.
  - intros h Hlen Hin. apply in_map_iff in Hin. destruct Hin as (g & <- & Hin).
    apply findDuplicates_In in Hin. destruct Hin as [Hfiles Hlen']. rewrite Hfiles in Hlen'. lia.
  - intros a b c Hab Hca. unfold findDuplicates. cbn [fold_left].
    rewrite !record_file_cases. cbn [JsMap.get app]. rewrite <- Hab.
    rewrite text_eqb_refl. cbn [JsMap.set]. rewrite text_eqb_refl.
    cbn [JsMap.get]. apply text_eqb_neq in Hca. rewrite Hca. reflexivity.
Qed.

Lemma findDuplicates_groups_witness :
  findDuplicates [sample_result "/a/foo.ts" "aaa" 1 0 0;
                  sample_result "/b/foo.ts" "aaa" 1 0 0;
                  sample_result "/c/bar.ts" "bbb" 2 0 0]
  = [{| hash := t#"aaa"; files := [t#"/a/foo.ts"; t#"/b/foo.ts"] |}]
  /\ ~ In t#"bbb" (map hash (findDuplicates [sample_result "/a/foo.ts" "aaa" 1 0 0;
                                             sample_result "/b/foo.ts" "aaa" 1 0 0;
                                             sample_result "/c/bar.ts" "bbb" 2 0 0])).
Proof.
  destruct (findDuplicates_groups [sample_result "/a/foo.ts" "aaa" 1 0 0;
                                   sample_result "/b/foo.ts" "aaa" 1 0 0;
                                   sample_result "/c/bar.ts" "bbb" 2 0 0])
    as (_ & _ & _ & Hnone & Hthree).
  split.
  - apply Hthree; [reflexivity | vm_compute; discriminate].
  - apply Hnone. vm_compute. lia.
Defined.

(** ** Sets in insertion order *)

Lemma JsSet_has_In (s : list text) (x : text) : JsSet.has s x = true <-> In x s.
Proof.
  unfold JsSet.has. rewrite existsb_exists. split.
  - intros (y & Hy & E). apply text_eqb_eq in E. now subst.
  - intros H. exists x. split; [exact H | apply text_eqb_refl].
Qed.

Lemma JsSet_add_In (s : list text) (x y : text) :
  In y (JsSet.add s x) <-> In y s \/ y = x.
Proof.
  unfold JsSet.add. destruct (JsSet.has s x) eqn:E.
  - apply JsSet_has_In in E. split; [tauto | intros [H | ->]; assumption].
  - rewrite in_app_iff. cbn. intuition congruence.
Qed.

Lemma JsSet_add_NoDup (s : list text) (x : text) : NoDup s -> NoDup (JsSet.add s x).
Proof.
  intros Hnd. unfold JsSet.add. destruct (JsSet.has s x) eqn:E; [exact Hnd|].
  apply NoDup_app; [exact Hnd | repeat constructor; intros [] |].
  intros y Hy [<- | []]. apply JsSet_has_In in Hy. congruence.
Qed.

(** A loop that adds [f m] for the elements [m] that pass [keep]. *)
Lemma fold_add_spec (A : Type) (f : A -> text) (keep : A -> bool) (l : list A) :
  forall acc,
    let res := fold_left (fun acc m => if keep m then JsSet.add acc (f m) else acc) l acc in
    (NoDup acc -> NoDup res)
    /\ (forall x, In x res <-> In x acc \/ exists m, In m l /\ keep m = true /\ f m = x).
Proof.
  induction l as [|m l IH]; intros acc; cbn.
  - split; [tauto|]. intros x. split; [tauto|]. intros [H | (m & [] & _)]. exact H.
  - destruct (IH (if keep m then JsSet.add acc (f m) else acc)) as [Hnd Hin].
    split.
    + intros H. apply Hnd. destruct (keep m); [now apply JsSet_add_NoDup | exact H].
    + intros x. rewrite Hin. destruct (keep m) eqn:Ek.
      * rewrite JsSet_add_In. split.
        -- intros [[H | ->] | (m' & Hm' & Hk & Hf)]; eauto 6.
        -- intros [H | (m' & [<- | Hm'] & Hk & Hf)]; eauto 6.
      * split.
        -- intros [H | (m' & Hm' & Hk & Hf)]; eauto 6.
        -- intros [H | (m' & [<- | Hm'] & Hk & Hf)]; [tauto | congruence | eauto 6].
Qed.

(** ** Sorting *)

Lemma text_ltb_irrefl (a : text) : text_ltb a a = false.
Proof.
  induction a as [|x a IH]; [reflexivity|]. cbn.
  now rewrite N.ltb_irrefl, N.eqb_refl, IH.
Qed.

Lemma text_ltb_trans (a b c : text) :
  text_ltb a b = true -> text_ltb b c = true -> text_ltb a c = true.
Proof.
  revert b c. induction a as [|x a IH]; intros [|y b] [|z c]; cbn; try congruence.
  rewrite !orb_true_iff, !andb_true_iff, !N.ltb_lt, !N.eqb_eq.
  intros [Hxy | [-> Hab]] [Hyz | [-> Hbc]].
  - left. lia.
  - now left.
  - now left.
  - right. split; [reflexivity | eauto].
Qed.

Lemma text_ltb_total (a b : text) :
  text_ltb a b = false -> a <> b -> text_ltb b a = true.
Proof.
  revert b. induction a as [|x a IH]; intros [|y b]; cbn; try congruence.
  rewrite orb_false_iff, andb_false_iff, orb_true_iff, andb_true_iff.
  rewrite !N.ltb_lt, !N.ltb_ge, !N.eqb_eq, N.eqb_neq.
  intros [Hle [Hne | Hab]] Hneq.
  - left. lia.
  - destruct (N.eq_dec x y) as [-> | Hxy]; [|left; lia].
    right. split; [reflexivity|]. apply IH; [exact Hab | congruence].
Qed.

Lemma sort_insert_In (x y : text) (l : list text) :
  In y (sort_insert x l) <-> y = x \/ In y l.
Proof.
  induction l as [|z l IH]; cbn.
  - intuition congruence.
  - destruct (text_ltb z x); cbn; [rewrite IH|]; intuition congruence.
Qed.

Lemma Array_sort_In (y : text) (l : list text) : In y (Array_sort l) <-> In y l.
Proof.
  induction l as [|x l IH]; cbn; [tauto|].
  rewrite sort_insert_In, IH. intuition congruence.
Qed.

Lemma sort_insert_sorted (x : text) (l : list text) :
  ~ In x l -> StronglySorted text_lt l -> StronglySorted text_lt (sort_insert x l).
Proof.
  intros Hnotin Hs. induction Hs as [|z l Hs IH Hall]; cbn.
  - repeat constructor.
  - destruct (text_ltb z x) eqn:E.
    + constructor.
      * apply IH. intros H. apply Hnotin. now right.
      * apply Forall_forall. intros y Hy. apply sort_insert_In in Hy.
        destruct Hy as [-> | Hy]; [exact E|].
        exact (proj1 (Forall_forall _ _) Hall y Hy).
    + assert (Hxz : text_lt x z).
      { apply text_ltb_total; [exact E|]. intros ->. apply Hnotin. now left. }
      constructor; [now constructor|].
      constructor; [exact Hxz|].
      apply Forall_forall. intros y Hy.
      apply (text_ltb_trans _ _ _ Hxz). exact (proj1 (Forall_forall _ _) Hall y Hy).
Qed.

Lemma Array_sort_sorted (l : list text) :
  NoDup l -> StronglySorted text_lt (Array_sort l).
Proof.
  induction 1 as [|x l Hnotin Hnd IH]; cbn; [constructor|].
  apply sort_insert_sorted; [|exact IH]. now rewrite Array_sort_In.
Qed.

Lemma sorted_lt_NoDup (l : list text) : StronglySorted text_lt l -> NoDup l.
Proof.
  induction 1 as [|x l Hs IH Hall]; constructor; [|exact IH].
  intros Hin. pose proof (proj1 (Forall_forall _ _) Hall x Hin) as H.
  unfold text_lt in H. now rewrite text_ltb_irrefl in H.
Qed.

(** ** Captures *)

Lemma star_loop_invariant (P : mstate -> Prop) (greedy : bool)
    (body : mstate -> list mstate) :
  (forall st st', P st -> In st' (body st) -> P st') ->
  forall fuel st st', P st -> In st' (star_loop greedy body fuel st) -> P st'.
Proof.
  intros Hbody. induction fuel as [|fuel IH]; intros st st' HP Hin; cbn in Hin.
  - destruct Hin as [<- | []]. exact HP.
  - unfold star_round in Hin.
    assert (Hmore : In st' (flat_map (fun st1 => if idx st <? idx st1
                                                 then star_loop greedy body fuel st1
                                                 else []) (body st)) -> P st').
    { intros H. apply in_flat_map in H. destruct H as (st1 & H1 & H2).
      destruct (idx st <? idx st1); [|destruct H2].
      apply (IH st1); [|exact H2]. now apply (Hbody st). }
    destruct greedy.
    + apply in_app_iff in Hin. destruct Hin as [H | [<- | []]]; [auto | exact HP].
    + destruct Hin as [<- | H]; [exact HP | auto].
Qed.

Lemma matchl_caps_kept (i : nat) (r : regex) :
  forall st st',
    In st' (matchl r st) -> In i (map fst (caps st)) -> In i (map fst (caps st')).
Proof.
  induction r as [|cs|r1 IH1 r2 IH2|r1 IH1 r2 IH2|g r1 IH1|j r1 IH1| |];
    intros st st' Hin Hcap; cbn [matchl] in Hin.
  - destruct Hin as [<- | []]. exact Hcap.
  - destruct (rest st) as [|c tl]; [destruct Hin|].
    destruct (mem cs c); [|destruct Hin]. destruct Hin as [<- | []]. exact Hcap.
  - apply in_flat_map in Hin. destruct Hin as (st1 & H1 & H2). eauto.
  - apply in_app_iff in Hin. destruct Hin; eauto.
  - revert Hin Hcap.
    generalize (S (length (rest st))) as fuel. intros fuel Hin Hcap.
    apply (star_loop_invariant (fun s => In i (map fst (caps s))) g (matchl r1))
      with (fuel := fuel) (st := st); eauto.
  - apply in_map_iff in Hin. destruct Hin as (st1 & <- & H1). cbn. right. eauto.
  - destruct (at_word_boundary st); [|destruct Hin]. destruct Hin as [<- | []]. exact Hcap.
  - destruct (at_line_end st); [|destruct Hin]. destruct Hin as [<- | []]. exact Hcap.
Qed.

Lemma binds_sound (i : nat) (r : regex) :
  forall st st', binds i r = true -> In st' (matchl r st) -> In i (map fst (caps st')).
Proof.
  induction r as [|cs|r1 IH1 r2 IH2|r1 IH1 r2 IH2|g r1 IH1|j r1 IH1| |];
    intros st st' Hb Hin; cbn in Hb; try discriminate; cbn [matchl] in Hin.
  - apply in_flat_map in Hin. destruct Hin as (st1 & H1 & H2).
    apply orb_true_iff in Hb. destruct Hb as [Hb | Hb].
    + apply (matchl_caps_kept i r2 st1); eauto.
    + eauto.
  - apply andb_true_iff in Hb. destruct Hb.
    apply in_app_iff in Hin. destruct Hin; eauto.
  - apply in_map_iff in Hin. destruct Hin as (st1 & <- & H1). cbn.
    apply orb_true_iff in Hb. destruct Hb as [Hb | Hb].
    + apply Nat.eqb_eq in Hb. now left.
    + right. eauto.
Qed.

Lemma scan_In_match_at (r : regex) (m : jsmatch) (s : text) :
  forall p i skip,
    In m (scan r p s i skip) -> exists p' s' i', match_at r p' s' i' = Some m.
Proof.
  induction s as [|c s IH]; intros p i skip Hin.
  - destruct skip; cbn in Hin; [|destruct Hin].
    destruct (match_at r p [] i) as [m'|] eqn:E; [|destruct Hin].
    destruct Hin as [<- | []]. now exists p, [], i.
  - destruct skip; cbn in Hin; [|now apply IH in Hin].
    destruct (match_at r p (c :: s) i) as [m'|] eqn:E; [|now apply IH in Hin].
    destruct Hin as [<- | Hin]; [now exists p, (c :: s), i | now apply IH in Hin].
Qed.

(** In every match of a pattern that binds group [i], [match[i]] is a string. *)
Lemma capture_defined (i : nat) (r : regex) (s : text) (m : jsmatch) :
  binds i r = true -> In m (matchAll r s) -> group s m i = Some (capture s m i).
Proof.
  intros Hb Hin. apply scan_In_match_at in Hin. destruct Hin as (p' & s' & i' & Hm).
  unfold match_at in Hm.
  destruct (matchl r _) as [|st l] eqn:E; [discriminate|]. injection Hm as <-.
  assert (Hcap : In i (map fst (caps st))).
  { eapply binds_sound; [exact Hb | rewrite E; now left]. }
  unfold capture, group. cbn [m_caps].
  destruct (find (fun c => fst c =? i) (caps st)) as [[j [a b]]|] eqn:F; [reflexivity|].
  exfalso. apply in_map_iff in Hcap. destruct Hcap as ([j ab] & <- & Hj).
  apply (find_none _ _ F) in Hj. cbn in Hj. now rewrite Nat.eqb_refl in Hj.
Qed.

Lemma function_patterns_bind :
  Forall (fun r => binds 1 r = true)
         [RE_NAMED_FUNCTION; RE_ARROW_FUNCTION; RE_CLASS; IMPORT_REGEX].
Proof. repeat constructor. Qed.

(** ** The bound on the rounds of a star is never reached *)

Lemma reached_from_refl (st : mstate) : reached_from st st.
Proof. unfold reached_from. lia. Qed.

Lemma reached_from_trans (a b c : mstate) :
  reached_from a b -> reached_from b c -> reached_from a c.
Proof. unfold reached_from. lia. Qed.

Lemma matchl_reached (r : regex) :
  forall st st', In st' (matchl r st) -> reached_from st st'.
Proof.
  induction r as [|cs|r1 IH1 r2 IH2|r1 IH1 r2 IH2|g r1 IH1|j r1 IH1| |];
    intros st st' Hin; cbn [matchl] in Hin.
  - destruct Hin as [<- | []]. apply reached_from_refl.
  - destruct (rest st) as [|c tl] eqn:E; [destruct Hin|].
    destruct (mem cs c); [|destruct Hin]. destruct Hin as [<- | []].
    unfold reached_from, advance. cbn. rewrite E. cbn. lia.
  - apply in_flat_map in Hin. destruct Hin as (st1 & H1 & H2).
    eapply reached_from_trans; eauto.
  - apply in_app_iff in Hin. destruct Hin; eauto.
  - apply (@star_loop_invariant (reached_from st) g (matchl r1))
      with (fuel := S (length (rest st))) (st := st);
      [|apply reached_from_refl|exact Hin].
    intros a b Ha Hb. eapply reached_from_trans; eauto.
  - apply in_map_iff in Hin. destruct Hin as (st1 & <- & H1).
    apply IH1 in H1. exact H1.
  - destruct (at_word_boundary st); [|destruct Hin].
    destruct Hin as [<- | []]. apply reached_from_refl.
  - destruct (at_line_end st); [|destruct Hin].
    destruct Hin as [<- | []]. apply reached_from_refl.
Qed.

Lemma flat_map_ext_In (A B : Type) (f g : A -> list B) (l : list A) :
  (forall x, In x l -> f x = g x) -> flat_map f l = flat_map g l.
Proof.
  induction l as [|x l IH]; intros H; cbn; [reflexivity|].
  rewrite (H x (or_introl eq_refl)), IH; [reflexivity|].
  intros y Hy. apply H. now right.
Qed.

Lemma star_loop_fuel (greedy : bool) (body : mstate -> list mstate) :
  (forall st st', In st' (body st) -> reached_from st st') ->
  forall f1 f2 st,
    length (rest st) < f1 -> length (rest st) < f2 ->
    star_loop greedy body f1 st = star_loop greedy body f2 st.
Proof.
  intros Hbody. induction f1 as [|f1 IH]; intros f2 st H1 H2; [lia|].
  destruct f2 as [|f2]; [lia|]. cbn [star_loop]. unfold star_round.
  assert (Hmore : flat_map (fun st' => if idx st <? idx st'
                                       then star_loop greedy body f1 st' else []) (body st)
                  = flat_map (fun st' => if idx st <? idx st'
                                         then star_loop greedy body f2 st' else []) (body st)).
  { apply flat_map_ext_In. intros st1 Hst1.
    destruct (idx st <? idx st1) eqn:E; [|reflexivity].
    apply Nat.ltb_lt in E. destruct (Hbody _ _ Hst1) as [_ Hlen].
    apply IH; lia. }
  now rewrite Hmore.
Qed.

(** The star obeys the equation of the RepeatMatcher: one round of the
    body followed by the star again, or nothing. *)
Lemma matchl_Star_unfold (greedy : bool) (r : regex) (st : mstate) :
  matchl (Star greedy r) st
  = star_round greedy (matchl r st) (matchl (Star greedy r)) st.
Proof.
  cbn [matchl star_loop]. unfold star_round. f_equal.
  assert (Hmore : flat_map (fun st' => if idx st <? idx st'
                                       then star_loop greedy (matchl r) (length (rest st)) st'
                                       else []) (matchl r st)
                  = flat_map (fun st' => if idx st <? idx st'
                                         then star_loop greedy (matchl r)
                                                (S (length (rest st'))) st'
                                         else []) (matchl r st)).
  { apply flat_map_ext_In. intros st1 Hst1.
    destruct (idx st <? idx st1) eqn:E; [|reflexivity].
    apply Nat.ltb_lt in E. destruct (matchl_reached r _ _ Hst1) as [_ Hlen].
    apply star_loop_fuel; [apply matchl_reached | lia | lia]. }
  destruct greedy; now rewrite Hmore.
Qed.

(** ** The function detector *)

Lemma add_captures_spec (r : regex) (s : text) (found : list text) :
  (NoDup found -> NoDup (add_captures r s found))
  /\ (forall x, In x (add_captures r s found) <->
                In x found \/ exists m, In m (matchAll r s) /\ capture s m 1 = x).
Proof.
  destruct (fold_add_spec (fun m => capture s m 1) (fun _ => true) (matchAll r s) found)
    as [Hnd Hin].
  split; [exact Hnd|]. intros x. unfold add_captures. rewrite (Hin x).
  split; intros [H | (m & Hm & H)]; try tauto; right; exists m; tauto.
Qed.


Lemma extractFunctions_In (stripped x : text) :
  In x (extractFunctions stripped) <->
  exists r m, In r detector_patterns /\ In m (matchAll r stripped)
              /\ group stripped m 1 = Some x.
Proof.
  unfold extractFunctions.
  rewrite (proj2 (add_captures_spec RE_CLASS stripped _)).
  rewrite (proj2 (add_captures_spec RE_ARROW_FUNCTION stripped _)).
  rewrite (proj2 (add_captures_spec RE_NAMED_FUNCTION stripped _)).
  pose proof function_patterns_bind as Hb.
  inversion Hb as [|? ? B1 Hb1]; subst. inversion Hb1 as [|? ? B2 Hb2]; subst.
  inversion Hb2 as [|? ? B3 _]; subst.
  split.
  - intros [[[[] | (m & Hm & <-)] | (m & Hm & <-)] | (m & Hm & <-)].
    + exists RE_NAMED_FUNCTION, m.
      split; [cbn; tauto | split; [exact Hm | exact (@capture_defined 1 _ _ _ B1 Hm)]].
    + exists RE_ARROW_FUNCTION, m.
      split; [cbn; tauto | split; [exact Hm | exact (@capture_defined 1 _ _ _ B2 Hm)]].
    + exists RE_CLASS, m.
      split; [cbn; tauto | split; [exact Hm | exact (@capture_defined 1 _ _ _ B3 Hm)]].
  - intros (r & m & Hr & Hm & Hg).
    assert (Hc : capture stripped m 1 = x) by (unfold capture; now rewrite Hg).
    cbn in Hr. destruct Hr as [<- | [<- | [<- | []]]]; eauto 7.
Qed.




(** ** The dependency extractor *)

Lemma extractDependencies_In (content x : text) :
  In x (extractDependencies content) <->
  (exists m, In m (matchAll IMPORT_REGEX content) /\ group content m 1 = Some x)
  /\ ~ In x EXCLUDED.
Proof.
  unfold extractDependencies. rewrite Array_sort_In.
  destruct (fold_add_spec (fun m => capture content m 1)
              (fun m => negb (JsSet.has EXCLUDED (capture content m 1)))
              (matchAll IMPORT_REGEX content) []) as [_ Hin].
  cbv zeta in Hin. rewrite (Hin x). clear Hin.
  assert (Hb : binds 1 IMPORT_REGEX = true) by reflexivity.
  split.
  - intros [[] | (m & Hm & Hk & <-)]. split.
    + exists m. split; [exact Hm | exact (@capture_defined 1 _ _ _ Hb Hm)].
    + apply negb_true_iff in Hk. intros Hx. apply JsSet_has_In in Hx. congruence.
  - intros [(m & Hm & Hg) Hx]. right. exists m.
    assert (Hc : capture content m 1 = x) by (unfold capture; now rewrite Hg).
    rewrite Hc. repeat split; [exact Hm|].
    apply negb_true_iff. destruct (JsSet.has EXCLUDED x) eqn:E; [|reflexivity].
    apply JsSet_has_In in E. contradiction.
Qed.

Lemma extractDependencies_sorted (content : text) :
  StronglySorted text_lt (extractDependencies content).
Proof.
  unfold extractDependencies. apply Array_sort_sorted.
  apply (fold_add_spec (fun m => capture content m 1)
           (fun m => negb (JsSet.has EXCLUDED (capture content m 1)))).
  constructor.
Qed.

(** C4. The dependency list is strictly increasing in the order of code
    units, hence sorted and free of repetitions; it holds exactly the
    specifiers captured by the import pattern that are not in the exclusion
    set; a file that only imports react has no dependencies, and a
    specifier imported twice is listed once. *)
Theorem extractDependencies_spec (content : text) :
  StronglySorted text_lt (extractDependencies content)
  /\ NoDup (extractDependencies content)
  /\ (forall x, In x (extractDependencies content) <->
                (exists m, In m (matchAll IMPORT_REGEX content)
                           /\ group content m 1 = Some x)
                /\ ~ In x EXCLUDED)
  /\ (forall x, In x EXCLUDED -> ~ In x (extractDependencies content))
  /\ extractDependencies t#"import React from 'react';" = []
  /\ extractDependencies
       t#"import b from 'lodash'; import { useState } from 'react'; import a from 'axios'; import { c } from 'lodash';"
     = [t#"axios"; t#"lodash"].
Proof.
  split; [apply extractDependencies_sorted|].
  split; [apply sorted_lt_NoDup, extractDependencies_sorted|].
  split; [intros x; apply extractDependencies_In|].
  split; [|split; vm_compute; reflexivity].
  intros x Hx Hin. apply extractDependencies_In in Hin. tauto.
Qed.

Lemma extractDependencies_spec_witness :
  ~ In t#"react" (extractDependencies t#"import React from 'react';").
Proof.
  destruct (extractDependencies_spec t#"import React from 'react';")
    as (_ & _ & _ & Hex & _).
  apply Hex. vm_compute. tauto.
Defined.

(** ** Monotonicity of the score *)

Lemma Zsum_map_le (A : Type) (f g : A -> Z) (l : list A) :
  (forall x, In x l -> (f x <= g x)%Z) -> (Zsum (map f l) <= Zsum (map g l))%Z.
Proof.
  unfold Zsum. induction l as [|x l IH]; intros H; cbn [map fold_right]; [lia|].
  pose proof (H x (or_introl eq_refl)).
  assert (fold_right Z.add 0 (map f l) <= fold_right Z.add 0 (map g l))%Z
    by (apply IH; intros y Hy; apply H; now right).
  lia.
Qed.

(** The score does not decrease when no decision point is lost. *)
Lemma complexity_monotone_in_counts (t t' : text) :
  (forall r, In r COMPLEXITY_TOKENS -> count_matches r t <= count_matches r t') ->
  (calculateComplexity t <= calculateComplexity t')%Z.
Proof.
  intros H. rewrite !calculateComplexity_sum.
  assert (Zsum (map (fun r => Z.of_nat (count_matches r t)) COMPLEXITY_TOKENS)
          <= Zsum (map (fun r => Z.of_nat (count_matches r t')) COMPLEXITY_TOKENS))%Z.
  { apply Zsum_map_le. intros r Hr. apply inj_le. now apply H. }
  lia.
Qed.


(** ** Linear patterns are matched without backtracking *)

Lemma flat_map_flat_map (A B C : Type) (f : A -> list B) (g : B -> list C) (l : list A) :
  flat_map g (flat_map f l) = flat_map (fun x => flat_map g (f x)) l.
Proof.
  induction l as [|x l IH]; cbn; [reflexivity|].
  now rewrite flat_map_app, IH.
Qed.

Lemma flat_map_singleton (A : Type) (l : list A) : flat_map (fun x => [x]) l = l.
Proof. induction l as [|x l IH]; cbn; [reflexivity | now rewrite IH]. Qed.

Lemma matchl_Seq_assoc (a b c : regex) (st : mstate) :
  matchl (Seq (Seq a b) c) st = matchl (Seq a (Seq b c)) st.
Proof. cbn [matchl]. apply flat_map_flat_map. Qed.

Lemma matchl_Seq_ext (a b b' : regex) (st : mstate) :
  (forall st', matchl b st' = matchl b' st') ->
  matchl (Seq a b) st = matchl (Seq a b') st.
Proof. intros H. cbn [matchl]. apply flat_map_ext. exact H. Qed.

Lemma lin_regex_app (l1 l2 : list atom) (st : mstate) :
  matchl (lin_regex (l1 ++ l2)) st = matchl (Seq (lin_regex l1) (lin_regex l2)) st.
Proof.
  revert st. induction l1 as [|a l1 IH]; intros st.
  - cbn. now rewrite app_nil_r.
  - cbn [app lin_regex]. rewrite matchl_Seq_assoc.
    apply matchl_Seq_ext. exact IH.
Qed.

Lemma linearize_sound (r : regex) :
  forall l, linearize r = Some l -> forall st, matchl r st = matchl (lin_regex l) st.
Proof.
  induction r as [|cs|r1 IH1 r2 IH2|r1 IH1 r2 IH2|g r1 IH1|j r1 IH1| |];
    intros l Hl st; cbn [linearize] in Hl; try discriminate.
  - injection Hl as <-. reflexivity.
  - injection Hl as <-. cbn [lin_regex atom_regex matchl].
    now rewrite flat_map_singleton.
  - destruct (linearize r1) as [l1|]; [|discriminate].
    destruct (linearize r2) as [l2|]; [|discriminate].
    injection Hl as <-. rewrite lin_regex_app. cbn [matchl].
    rewrite (IH1 l1 eq_refl). apply flat_map_ext. intros st'. now apply IH2.
  - destruct g; [|discriminate]. destruct r1; try discriminate.
    injection Hl as <-. cbn [lin_regex atom_regex].
    change (matchl (Seq (Star true (Chr cs)) Eps) st)
      with (flat_map (fun x => [x]) (matchl (Star true (Chr cs)) st)).
    now rewrite flat_map_singleton.
  - injection Hl as <-. cbn [lin_regex atom_regex matchl].
    now rewrite flat_map_singleton.
Qed.

Lemma jump_end (n : nat) (st : mstate) : rest st = [] -> jump n st = st.
Proof. intros H. destruct n; cbn; [reflexivity | now rewrite H]. Qed.

Lemma jump_add (m n : nat) : forall st, jump n (jump m st) = jump (m + n) st.
Proof.
  induction m as [|m IH]; intros st; [reflexivity|].
  cbn [jump Nat.add]. destruct (rest st) as [|x tl] eqn:E.
  - now apply jump_end.
  - apply IH.
Qed.

Lemma jump_drop_state (n : nat) :
  forall st, (prev (jump n st), rest (jump n st)) = drop_state n (prev st) (rest st).
Proof.
  induction n as [|n IH]; intros st; cbn [jump drop_state]; [reflexivity|].
  destruct (rest st) as [|x tl] eqn:E; [now rewrite E|].
  rewrite IH. reflexivity.
Qed.

Lemma jump_caps (n : nat) : forall st, caps (jump n st) = caps st.
Proof.
  induction n as [|n IH]; intros st; cbn [jump]; [reflexivity|].
  destruct (rest st) as [|x tl]; [reflexivity|]. now rewrite IH.
Qed.

Lemma jump_idx (n : nat) :
  forall st, n <= length (rest st) -> idx (jump n st) = idx st + n.
Proof.
  induction n as [|n IH]; intros st Hle; cbn [jump]; [lia|].
  destruct (rest st) as [|x tl] eqn:E; cbn in Hle; [lia|].
  rewrite IH; cbn; lia.
Qed.

Lemma span_le (cs : cset) (s : text) : span cs s <= length s.
Proof. induction s as [|x s IH]; cbn; [lia|]. destruct (mem cs x); lia. Qed.

(** A greedy run followed by something that cannot start inside the run
    stops at the end of the run. *)
Lemma star_run_then (cs : cset) (R : mstate -> list mstate) :
  (forall st x tl, rest st = x :: tl -> mem cs x = true -> R st = []) ->
  forall fuel st,
    length (rest st) < fuel ->
    flat_map R (star_loop true (matchl (Chr cs)) fuel st)
    = R (jump (span cs (rest st)) st).
Proof.
  intros HR. induction fuel as [|fuel IH]; intros st Hlt; [lia|].
  cbn [star_loop]. unfold star_round. cbn [matchl].
  destruct (rest st) as [|x tl] eqn:E.
  - cbn. now rewrite app_nil_r.
  - cbn [span]. destruct (mem cs x) eqn:Em.
    + cbn [flat_map advance idx]. rewrite (proj2 (Nat.ltb_lt _ _)) by lia.
      rewrite app_nil_r, flat_map_app. cbn [flat_map].
      rewrite (HR st x tl E Em), !app_nil_r.
      rewrite IH by (cbn; cbn in Hlt; lia).
      cbn [jump]. now rewrite E.
    + cbn. now rewrite app_nil_r.
Qed.

Lemma lin_regex_matchl (l : list atom) :
  run_delimited l = true ->
  forall st,
    matchl (lin_regex l) st =
    match lin_match l (prev st) (rest st) with
    | Some n => [jump n st]
    | None => []
    end.
Proof.
  induction l as [|a l IH]; intros Hwf st; [reflexivity|].
  destruct a as [cs|cs|]; cbn [lin_regex atom_regex].
  - cbn [matchl lin_match]. cbn [run_delimited] in Hwf.
    destruct (rest st) as [|x tl] eqn:E; [reflexivity|].
    destruct (mem cs x); [|reflexivity].
    cbn [flat_map]. rewrite app_nil_r, (IH Hwf). cbn [advance prev rest].
    destruct (lin_match l (Some x) tl); [|reflexivity].
    cbn [option_map jump]. now rewrite E.
  - cbn [run_delimited] in Hwf.
    destruct l as [|[[c| | | | | | |]| |] l']; try discriminate.
    apply andb_true_iff in Hwf. destruct Hwf as [Hc Hwf]. apply negb_true_iff in Hc.
    change (matchl (Seq (Star true (Chr cs)) (lin_regex (AClass (CChar c) :: l'))) st)
      with (flat_map (matchl (lin_regex (AClass (CChar c) :: l')))
              (star_loop true (matchl (Chr cs)) (S (length (rest st))) st)).
    rewrite star_run_then; [|clear st|lia].
    + rewrite (IH Hwf).
      remember (AClass (CChar c) :: l') as tl eqn:Etl. cbn [lin_match].
      pose proof (jump_drop_state (span cs (rest st)) st) as Hj.
      destruct (drop_state (span cs (rest st)) (prev st) (rest st)) as [p' s'].
      injection Hj as -> ->.
      destruct (lin_match tl p' s'); [|reflexivity].
      cbn [option_map]. now rewrite jump_add.
    + intros st x tl E Em. cbn [lin_regex atom_regex matchl]. rewrite E.
      cbn [mem]. destruct (N.eqb x c) eqn:Exc; [|reflexivity].
      apply N.eqb_eq in Exc. subst x. congruence.
  - cbn [matchl lin_match]. cbn [run_delimited] in Hwf.
    unfold at_word_boundary.
    destruct (xorb (is_word_opt (prev st)) (is_word_opt (hd_error (rest st))));
      [|reflexivity].
    cbn [flat_map]. now rewrite app_nil_r, (IH Hwf).
Qed.

Lemma lin_match_le (l : list atom) :
  forall p s n, lin_match l p s = Some n -> n <= length s.
Proof.
  induction l as [|a l IH]; intros p s n H; cbn [lin_match] in H.
  - injection H as <-. lia.
  - destruct a as [cs|cs|].
    + destruct s as [|x s']; [discriminate|]. destruct (mem cs x); [|discriminate].
      destruct (lin_match l (Some x) s') as [k|] eqn:E; [|discriminate].
      injection H as <-. apply IH in E. cbn. lia.
    + assert (Hd : forall j p0 s0, length (snd (drop_state j p0 s0)) = length s0 - j).
      { induction j as [|j IHj]; intros p0 s0; cbn; [lia|].
        destruct s0 as [|x s0']; cbn; [reflexivity | apply IHj]. }
      specialize (Hd (span cs s) p s). pose proof (span_le cs s).
      destruct (drop_state (span cs s) p s) as [p' s'].
      destruct (lin_match l p' s') as [k|] eqn:E; [|discriminate].
      injection H as <-. apply IH in E. cbn in Hd. lia.
    + destruct (xorb _ _); [eauto | discriminate].
Qed.

(** The first match of a linear pattern at a position, in closed form. *)
Lemma match_at_linear (r : regex) (l : list atom) (p : option char) (s : text) (i : nat) :
  linearize r = Some l -> run_delimited l = true ->
  match_at r p s i =
  match lin_match l p s with
  | Some n => Some {| m_start := i; m_end := i + n; m_caps := [] |}
  | None => None
  end.
Proof.
  intros Hl Hwf. unfold match_at.
  rewrite (linearize_sound r Hl), (lin_regex_matchl l Hwf). cbn [prev rest].
  destruct (lin_match l p s) as [n|] eqn:E; [|reflexivity].
  apply lin_match_le in E.
  rewrite jump_idx, jump_caps by exact E. reflexivity.
Qed.

(** ** Counting matches by positions *)

Section Occurrences.

Variable M : option char -> text -> option nat.

Lemma occ_from_0 (p : option char) (s : text) : occ_from M p s 0 = occ M p s.
Proof. destruct s; reflexivity. Qed.

Lemma occ_from_step (j : nat) :
  forall p s, j <= length s ->
    occ_from M p s j
    = (match found_at M j p s with Some _ => 1 | None => 0 end) + occ_from M p s (S j).
Proof.
  unfold found_at.
  induction j as [|j IH]; intros p s Hle.
  - rewrite occ_from_0. destruct s as [|x tl]; cbn [occ occ_from drop_state fst snd];
      [reflexivity | now rewrite occ_from_0].
  - destruct s as [|x tl]; cbn in Hle; [lia|].
    cbn [occ_from drop_state]. rewrite IH by lia. reflexivity.
Qed.

Lemma occ_from_S_le (j : nat) : forall p s, occ_from M p s (S j) <= occ_from M p s j.
Proof.
  induction j as [|j IH]; intros p s.
  - rewrite occ_from_0. destruct s as [|x tl]; cbn [occ occ_from]; [lia|].
    rewrite occ_from_0. lia.
  - destruct s as [|x tl]; cbn [occ_from]; [lia | apply IH].
Qed.

Lemma occ_from_mono (a b : nat) (p : option char) (s : text) :
  a <= b -> occ_from M p s b <= occ_from M p s a.
Proof.
  induction 1 as [|b Hle IH]; [lia|].
  pose proof (occ_from_S_le b p s). lia.
Qed.

Lemma occ_from_none (k : nat) (p : option char) (s : text) :
  k <= length s ->
  (forall j, j < k -> found_at M j p s = None) ->
  occ_from M p s k = occ_from M p s 0.
Proof.
  induction k as [|k IH]; intros Hle Hnone; [reflexivity|].
  rewrite <- IH by (try lia; intros j Hj; apply Hnone; lia).
  rewrite (@occ_from_step k p s) by lia.
  rewrite (Hnone k) by lia. reflexivity.
Qed.

Section Scan.

Variable r : regex.
Variable MA : option char -> text -> option nat.

Hypothesis match_at_MA :
  forall p s i,
    match_at r p s i =
    match MA p s with
    | Some n => Some {| m_start := i; m_end := i + n; m_caps := [] |}
    | None => None
    end.

Hypothesis MA_le : forall p s n, MA p s = Some n -> n <= length s.

(** If every match of [r] covers the start of a match of [M], there are at
    least as many positions of [M] as matches of [r] in a scan. *)
Lemma scan_le_occ :
  (forall p s n, MA p s = Some n -> exists j, j < n /\ found_at M j p s <> None) ->
  forall s p i skip, length (scan r p s i skip) <= occ_from M p s skip.
Proof.
  intros Hcover. induction s as [|x tl IH]; intros p i skip.
  - destruct skip; cbn [scan occ_from]; [|cbn; lia].
    rewrite match_at_MA. destruct (MA p []) as [n|] eqn:E; [|cbn; lia].
    destruct (Hcover _ _ _ E) as (j & Hj & _). apply MA_le in E. cbn in E. lia.
  - destruct skip; [|cbn [scan occ_from]; apply IH].
    cbn [scan]. rewrite match_at_MA. destruct (MA p (x :: tl)) as [n|] eqn:E.
    + cbn [length m_end].
      replace (i + n - i - 1) with (n - 1) by lia.
      destruct (Hcover _ _ _ E) as (j & Hj & Hfound).
      pose proof (MA_le E) as Hn.
      specialize (IH (Some x) (S i) (n - 1)).
      assert (H1 : occ_from M p (x :: tl) n = occ_from M (Some x) tl (n - 1)).
      { destruct n; [lia|]. cbn [occ_from]. now replace (S n - 1) with n by lia. }
      assert (H2 : S (occ_from M p (x :: tl) (S j)) <= occ_from M p (x :: tl) j).
      { rewrite (@occ_from_step j p (x :: tl)) by lia.
        destruct (found_at M j p (x :: tl)); [lia | congruence]. }
      pose proof (@occ_from_mono (S j) n p (x :: tl) ltac:(lia)).
      pose proof (@occ_from_mono 0 j p (x :: tl) ltac:(lia)).
      lia.
    + specialize (IH (Some x) (S i) 0).
      pose proof (occ_from_S_le 0 p (x :: tl)) as H0.
      change (occ_from M p (x :: tl) 1) with (occ_from M (Some x) tl 0) in H0. lia.
Qed.

(** If no match of [r] covers the start of another one, a scan finds a
    match at every position that has one. *)
Lemma scan_eq_occ :
  (forall p s, MA p s = M p s) ->
  (forall p s n j, M p s = Some n -> 0 < j < n -> found_at M j p s = None) ->
  forall s p i skip, length (scan r p s i skip) = occ_from M p s skip.
Proof.
  intros Heq Hfree. induction s as [|x tl IH]; intros p i skip.
  - destruct skip; cbn [scan occ_from]; [|reflexivity].
    rewrite match_at_MA, Heq. cbn [occ]. destruct (M p []); reflexivity.
  - destruct skip; [|cbn [scan occ_from]; apply IH].
    cbn [scan]. rewrite match_at_MA. rewrite occ_from_0. cbn [occ].
    destruct (MA p (x :: tl)) as [n|] eqn:E; rewrite <- Heq, E.
    + cbn [length m_end]. replace (i + n - i - 1) with (n - 1) by lia.
      rewrite IH. pose proof (MA_le E) as Hn. cbn in Hn.
      rewrite occ_from_none; [now rewrite occ_from_0 | lia |].
      intros j Hj. rewrite Heq in E.
      exact (Hfree p (x :: tl) n (S j) E ltac:(lia)).
    + rewrite IH. now rewrite occ_from_0.
Qed.

End Scan.

End Occurrences.

(** ** The if and else-if tokens *)

Lemma is_word_not_space (c : char) : is_word c = true -> is_space c = false.
Proof.
  unfold is_word, is_space, is_blank, is_line_terminator, in_range.
  rewrite !orb_true_iff, !andb_true_iff, !N.leb_le, N.eqb_eq.
  intros H.
  repeat rewrite orb_false_iff. rewrite andb_false_iff, !N.eqb_neq, !N.leb_gt. lia.
Qed.

Lemma span_drop_state (cs : cset) (s : text) :
  forall p j, j < span cs s ->
    exists p' x tl, drop_state j p s = (p', x :: tl) /\ mem cs x = true.
Proof.
  induction s as [|y s IH]; intros p j Hj; cbn [span] in Hj; [lia|].
  destruct (mem cs y) eqn:E; [|lia].
  destruct j as [|j]; cbn [drop_state]; [now exists p, y, s|].
  apply IH. lia.
Qed.

Lemma span_drop_state_end (cs : cset) (s : text) :
  forall p, exists p' s',
    drop_state (span cs s) p s = (p', s')
    /\ (p' = p \/ exists c, p' = Some c /\ mem cs c = true)
    /\ (forall x tl, s' = x :: tl -> mem cs x = false).
Proof.
  induction s as [|y s IH]; intros p; cbn [span].
  - exists p, []. cbn. split; [reflexivity|]. split; [now left | discriminate].
  - destruct (mem cs y) eqn:E.
    + cbn [drop_state]. destruct (IH (Some y)) as (p' & s' & Hd & Hp & Hs).
      exists p', s'. split; [exact Hd|]. split; [|exact Hs].
      right. destruct Hp as [-> | Hp]; [now exists y | exact Hp].
    + exists p, (y :: s). cbn. split; [reflexivity|]. split; [now left|].
      now intros x tl [= -> ->].
Qed.

Lemma if_needs_i (p : option char) (s : text) :
  (forall tl, s <> 105%N :: tl) -> lin_match IF_ATOMS p s = None.
Proof.
  intros H. change IF_ATOMS with (ABoundary :: AClass (CChar 105%N) :: AClass (CChar 102%N) :: PAREN_TAIL).
  cbn [lin_match].
  match goal with |- context [xorb ?a ?b] => destruct (xorb a b) end; [|reflexivity].
  destruct s as [|x tl]; [reflexivity|]. cbn [mem].
  destruct (N.eqb x 105) eqn:E; [|reflexivity].
  apply N.eqb_eq in E. subst. now elim (H tl).
Qed.

Lemma paren_tail_chars (s : text) (p : option char) (m : nat) :
  lin_match PAREN_TAIL p s = Some m ->
  forall j, j < m -> lin_match IF_ATOMS (fst (drop_state j p s)) (snd (drop_state j p s)) = None.
Proof.
  unfold PAREN_TAIL. cbn [lin_match]. intros H j Hj.
  destruct (@span_drop_state_end CSpace s p) as (p' & s' & Hd & _ & Hs).
  rewrite Hd in H.
  destruct s' as [|x tl]; [discriminate|]. cbn [mem] in H.
  destruct (N.eqb x 40) eqn:E; [|discriminate]. apply N.eqb_eq in E. subst x.
  injection H as <-.
  destruct (Nat.lt_ge_cases j (span CSpace s)) as [Hlt | Hge].
  - destruct (@span_drop_state CSpace s p j Hlt) as (p1 & x & tl1 & Hd1 & Hx).
    rewrite Hd1. cbn [fst snd]. apply if_needs_i. intros tl' [= -> _]. discriminate Hx.
  - assert (j = span CSpace s) as -> by lia. rewrite Hd. cbn [fst snd].
    apply if_needs_i. intros tl' [= ]. 
Qed.

Lemma if_no_overlap (p : option char) (s : text) (n j : nat) :
  lin_match IF_ATOMS p s = Some n -> 0 < j < n ->
  lin_match IF_ATOMS (fst (drop_state j p s)) (snd (drop_state j p s)) = None.
Proof.
  change IF_ATOMS with (ABoundary :: AClass (CChar 105%N) :: AClass (CChar 102%N) :: PAREN_TAIL) at 1.
  cbn [lin_match]. intros H Hj.
  match type of H with context [xorb ?a ?b] => destruct (xorb a b) end; [|discriminate].
  destruct s as [|x1 s1]; [discriminate|]. cbn [mem] in H.
  destruct (N.eqb x1 105) eqn:E1; [|discriminate]. apply N.eqb_eq in E1. subst x1.
  destruct s1 as [|x2 s2]; [discriminate|].
  destruct (N.eqb x2 102) eqn:E2; [|discriminate]. apply N.eqb_eq in E2. subst x2.
  match type of H with
  | context [lin_match PAREN_TAIL ?a ?b] =>
      destruct (lin_match PAREN_TAIL a b) as [m|] eqn:Em; [|discriminate H]
  end.
  cbn [option_map] in H. injection H as <-.
  destruct j as [|[|j]]; [lia | reflexivity |].
  cbn [drop_state]. apply (@paren_tail_chars _ _ _ Em). lia.
Qed.

Lemma else_if_covers_if (p : option char) (s : text) (n : nat) :
  lin_match ELSE_IF_ATOMS p s = Some n ->
  exists j, j < n /\
    lin_match IF_ATOMS (fst (drop_state j p s)) (snd (drop_state j p s)) <> None.
Proof.
  change ELSE_IF_ATOMS
    with (ABoundary :: AClass (CChar 101%N) :: AClass (CChar 108%N) :: AClass (CChar 115%N)
            :: AClass (CChar 101%N) :: AClass CSpace :: ARun CSpace
            :: AClass (CChar 105%N) :: AClass (CChar 102%N) :: PAREN_TAIL).
  cbn [lin_match]. intros H.
  match type of H with context [xorb ?a ?b] => destruct (xorb a b) end; [|discriminate].
  destruct s as [|x1 s1]; [discriminate|]. destruct (mem _ x1); [|discriminate].
  destruct s1 as [|x2 s2]; [discriminate|]. destruct (mem _ x2); [|discriminate].
  destruct s2 as [|x3 s3]; [discriminate|]. destruct (mem _ x3); [|discriminate].
  destruct s3 as [|x4 s4]; [discriminate|]. destruct (mem _ x4); [|discriminate].
  destruct s4 as [|w s5]; [discriminate|]. destruct (mem CSpace w) eqn:Ew; [|discriminate].
  destruct (@span_drop_state_end CSpace s5 (Some w)) as (p6 & s6 & Hd & Hp & _).
  rewrite Hd in H.
  destruct s6 as [|y1 s7]; [discriminate|]. cbn [mem] in H.
  destruct (N.eqb y1 105) eqn:E1; [|discriminate]. apply N.eqb_eq in E1. subst y1.
  destruct s7 as [|y2 s8]; [discriminate|].
  destruct (N.eqb y2 102) eqn:E2; [|discriminate]. apply N.eqb_eq in E2. subst y2.
  match type of H with
  | context [lin_match PAREN_TAIL ?a ?b] =>
      destruct (lin_match PAREN_TAIL a b) as [m|] eqn:Em; [|discriminate H]
  end.
  cbn [option_map] in H. injection H as <-.
  exists (5 + span CSpace s5). split; [lia|].
  cbn [drop_state Nat.add]. rewrite Hd. cbn [fst snd].
  change IF_ATOMS with (ABoundary :: AClass (CChar 105%N) :: AClass (CChar 102%N) :: PAREN_TAIL).
  cbn [lin_match hd_error mem]. rewrite !N.eqb_refl, Em.
  assert (Hw : is_word_opt p6 = false).
  { destruct Hp as [-> | (c & -> & Hc)]; cbn [is_word_opt mem] in *.
    - destruct (is_word w) eqn:W; [|reflexivity]. apply is_word_not_space in W. congruence.
    - destruct (is_word c) eqn:W; [|reflexivity]. apply is_word_not_space in W. congruence. }
  rewrite Hw. cbn. discriminate.
Qed.

Lemma match_at_IF (p : option char) (s : text) (i : nat) :
  match_at TOK_IF p s i =
  match lin_match IF_ATOMS p s with
  | Some n => Some {| m_start := i; m_end := i + n; m_caps := [] |}
  | None => None
  end.
Proof. now apply match_at_linear. Qed.

Lemma match_at_ELSE_IF (p : option char) (s : text) (i : nat) :
  match_at TOK_ELSE_IF p s i =
  match lin_match ELSE_IF_ATOMS p s with
  | Some n => Some {| m_start := i; m_end := i + n; m_caps := [] |}
  | None => None
  end.
Proof. now apply match_at_linear. Qed.

(** The scan finds every occurrence of [if (]. *)
Lemma count_if_occurrences (s : text) : count_matches TOK_IF s = if_occurrences s.
Proof.
  unfold count_matches, matchAll, if_occurrences.
  rewrite (@scan_eq_occ (lin_match IF_ATOMS) TOK_IF (lin_match IF_ATOMS)
             match_at_IF (@lin_match_le IF_ATOMS) (fun _ _ => eq_refl) if_no_overlap).
  apply occ_from_0.
Qed.

(** Every match of the else-if token holds an occurrence of [if (]. *)
Lemma count_else_if_le_if (s : text) :
  count_matches TOK_ELSE_IF s <= count_matches TOK_IF s.
Proof.
  rewrite count_if_occurrences. unfold count_matches, matchAll, if_occurrences.
  rewrite <- occ_from_0.
  apply (@scan_le_occ (lin_match IF_ATOMS) TOK_ELSE_IF (lin_match ELSE_IF_ATOMS)
           match_at_ELSE_IF (@lin_match_le ELSE_IF_ATOMS) else_if_covers_if).
Qed.

(** C10. A match of the else-if token always holds a match of the if token,
    so each [else if (] is counted by both: a text whose only matches are
    those of else-if and the if matches inside them scores 1 plus twice
    their number, 3 for exactly one [else if (]. *)
Theorem else_if_counts_twice (s : text) :
  count_matches TOK_ELSE_IF s <= count_matches TOK_IF s
  /\ ((forall r, In r COMPLEXITY_TOKENS -> r <> TOK_IF -> r <> TOK_ELSE_IF ->
                 count_matches r s = 0) ->
      (count_matches TOK_IF s <= count_matches TOK_ELSE_IF s ->
       calculateComplexity s = (1 + 2 * Z.of_nat (count_matches TOK_ELSE_IF s))%Z)
      /\ (count_matches TOK_ELSE_IF s = 1 -> count_matches TOK_IF s <= 1 ->
          calculateComplexity s = 3%Z))
  /\ calculateComplexity (stripCommentsAndStrings t#"else if (a) {}") = 3%Z.
Proof.
  split; [apply count_else_if_le_if|]. split; [|vm_compute; reflexivity].
  intros Hother.
  assert (Hsum : calculateComplexity s
                 = (1 + Z.of_nat (count_matches TOK_IF s)
                    + Z.of_nat (count_matches TOK_ELSE_IF s))%Z).
  { rewrite calculateComplexity_sum. unfold COMPLEXITY_TOKENS.
    cbn [map Zsum fold_right].
    set (n_if := count_matches TOK_IF s). set (n_else_if := count_matches TOK_ELSE_IF s).
    rewrite !Hother; try token_neq; try lia;
      unfold COMPLEXITY_TOKENS; cbn [In]; tauto. }
  pose proof (count_else_if_le_if s) as Hle.
  split; intros; rewrite Hsum; lia.
Qed.

Lemma else_if_counts_twice_witness : calculateComplexity t#"else if (b) {}" = 3%Z.
Proof.
  destruct (else_if_counts_twice t#"else if (b) {}") as (_ & H & _).
  assert (Hother : forall r, In r COMPLEXITY_TOKENS -> r <> TOK_IF -> r <> TOK_ELSE_IF ->
                             count_matches r t#"else if (b) {}" = 0).
  { intros r Hin Hn1 Hn2. unfold COMPLEXITY_TOKENS in Hin. cbn [In] in Hin.
    repeat (destruct Hin as [<- | Hin];
            [first [ now elim Hn1 | now elim Hn2 | vm_compute; reflexivity ] | ]).
    destruct Hin. }
  apply (proj2 (H Hother)); vm_compute; [reflexivity | lia].
Defined.

(** ** The kind of white space does not matter *)

Lemma blank_facts (c : char) :
  is_blank c = true ->
  is_space c = true /\ is_line_terminator c = false /\ is_word c = false.
Proof.
  intros Hb. unfold is_space. rewrite Hb. split; [reflexivity|].
  revert Hb. unfold is_blank, is_line_terminator, is_word, in_range.
  rewrite !orb_true_iff, !andb_true_iff, !N.leb_le, !N.eqb_eq.
  intros H.
  rewrite !orb_false_iff, !andb_false_iff, !N.eqb_neq, !N.leb_gt. lia.
Qed.

Lemma line_terminator_facts (c : char) :
  is_line_terminator c = true ->
  is_space c = true /\ is_blank c = false /\ is_word c = false.
Proof.
  intros Hl. unfold is_space. rewrite Hl, orb_true_r. split; [reflexivity|].
  revert Hl. unfold is_blank, is_line_terminator, is_word, in_range.
  rewrite !orb_true_iff, !N.eqb_eq.
  intros H.
  rewrite !orb_false_iff, !andb_false_iff, !N.eqb_neq, !N.leb_gt. lia.
Qed.

Lemma same_kind_refl (c : char) : same_kind c c.
Proof. now left. Qed.

Lemma same_kind_cases (c c' : char) :
  same_kind c c' ->
  c = c' \/ (is_space c = true /\ is_space c' = true
             /\ is_word c = false /\ is_word c' = false
             /\ is_line_terminator c = is_line_terminator c').
Proof.
  intros [-> | [[H H'] | [H H']]]; [now left | right | right].
  - destruct (@blank_facts _ H) as (? & ? & ?), (@blank_facts _ H') as (? & ? & ?).
    repeat split; congruence.
  - destruct (@line_terminator_facts _ H) as (? & ? & ?),
             (@line_terminator_facts _ H') as (? & ? & ?).
    repeat split; congruence.
Qed.

Lemma mem_same_kind (cs : cset) (c c' : char) :
  space_blind_cset cs = true -> same_kind c c' -> mem cs c = mem cs c'.
Proof.
  intros Hcs Hk. apply same_kind_cases in Hk.
  destruct Hk as [-> | (Hs & Hs' & Hw & Hw' & Hl)]; [reflexivity|].
  induction cs as [k|lo hi| | | | |a IHa|a IHa b IHb]; cbn [mem space_blind_cset] in *.
  - apply negb_true_iff in Hcs.
    destruct (N.eqb_spec c k) as [-> | _]; [congruence|].
    destruct (N.eqb_spec c' k) as [-> | _]; [congruence | reflexivity].
  - apply andb_true_iff in Hcs. destruct Hcs as [Hlo Hhi].
    apply N.leb_le in Hlo, Hhi.
    assert (Hout : forall x, is_space x = true -> in_range lo hi x = false).
    { intros x. unfold is_space, is_blank, is_line_terminator, in_range.
      rewrite !orb_true_iff, !andb_true_iff, !N.leb_le, !N.eqb_eq.
      intros H. rewrite andb_false_iff, !N.leb_gt. lia. }
    now rewrite !Hout.
  - congruence.
  - congruence.
  - now rewrite Hl.
  - reflexivity.
  - now rewrite IHa.
  - apply andb_true_iff in Hcs. destruct Hcs. now rewrite IHa, IHb.
Qed.

Lemma is_word_same_kind (c c' : char) : same_kind c c' -> is_word c = is_word c'.
Proof. apply (@mem_same_kind CWord). reflexivity. Qed.

Lemma is_word_opt_same_kind (o o' : option char) :
  same_kind_opt o o' -> is_word_opt o = is_word_opt o'.
Proof.
  destruct o, o'; cbn; try tauto. apply is_word_same_kind.
Qed.

Lemma Forall2_flat_map (A B : Type) (R : A -> A -> Prop) (Q : B -> B -> Prop)
    (f g : A -> list B) (l l' : list A) :
  (forall x y, R x y -> Forall2 Q (f x) (g y)) ->
  Forall2 R l l' -> Forall2 Q (flat_map f l) (flat_map g l').
Proof.
  intros Hfg. induction 1 as [|x y l l' Hxy Hl IH]; cbn; [constructor|].
  apply Forall2_app; auto.
Qed.

Lemma star_loop_sim (greedy : bool) (body body' : mstate -> list mstate) :
  (forall st st', state_sim st st' -> Forall2 state_sim (body st) (body' st')) ->
  forall fuel st st', state_sim st st' ->
    Forall2 state_sim (star_loop greedy body fuel st) (star_loop greedy body' fuel st').
Proof.
  intros Hbody. induction fuel as [|fuel IH]; intros st st' Hs; cbn [star_loop].
  - constructor; [exact Hs | constructor].
  - unfold star_round.
    assert (Hmore : Forall2 state_sim
              (flat_map (fun st1 => if idx st <? idx st1
                                    then star_loop greedy body fuel st1 else [])
                        (body st))
              (flat_map (fun st1 => if idx st' <? idx st1
                                    then star_loop greedy body' fuel st1 else [])
                        (body' st'))).
    { apply Forall2_flat_map with (R := state_sim); [|now apply Hbody].
      intros x y Hxy. destruct Hs as (Hi & _), Hxy as (Hi' & Hrest).
      rewrite Hi, Hi'. destruct (idx st' <? idx y); [|constructor].
      apply IH. now split. }
    destruct greedy.
    + apply Forall2_app; [exact Hmore | constructor; [exact Hs | constructor]].
    + constructor; [exact Hs | exact Hmore].
Qed.

Lemma matchl_sim (r : regex) :
  space_blind r = true ->
  forall st st', state_sim st st' -> Forall2 state_sim (matchl r st) (matchl r st').
Proof.
  induction r as [|cs|r1 IH1 r2 IH2|r1 IH1 r2 IH2|g r1 IH1|j r1 IH1| |];
    intros Hb st st' Hs; cbn [space_blind] in Hb; cbn [matchl].
  - constructor; [exact Hs | constructor].
  - destruct Hs as (Hi & Hc & Hp & Hr).
    inversion Hr as [|c c' tl tl' Hcc Htl E E']; [constructor|].
    rewrite (@mem_same_kind cs c c' Hb Hcc). destruct (mem cs c'); [|constructor].
    constructor; [|constructor].
    unfold state_sim, advance; cbn. auto.
  - apply andb_true_iff in Hb. destruct Hb as [Hb1 Hb2].
    apply Forall2_flat_map with (R := state_sim); auto.
  - apply andb_true_iff in Hb. destruct Hb as [Hb1 Hb2].
    apply Forall2_app; auto.
  - pose proof Hs as (_ & _ & _ & Hr). rewrite (Forall2_length Hr).
    apply star_loop_sim; auto.
  - pose proof Hs as (Hi & _). rewrite Hi.
    specialize (IH1 Hb st st' Hs).
    induction IH1 as [|x y l l' Hxy Hl IH]; cbn; constructor; [|exact IH].
    destruct Hxy as (Hi' & Hc' & Hp' & Hr'). unfold state_sim, set_cap; cbn.
    rewrite Hi', Hc'. auto.
  - unfold at_word_boundary. pose proof Hs as (_ & _ & Hp & Hr).
    rewrite (@is_word_opt_same_kind _ _ Hp).
    assert (Hh : is_word_opt (hd_error (rest st)) = is_word_opt (hd_error (rest st'))).
    { inversion Hr; cbn; [reflexivity | now apply is_word_same_kind]. }
    rewrite Hh.
    match goal with |- context [xorb ?a ?b] => destruct (xorb a b) end;
      [constructor; [exact Hs | constructor] | constructor].
  - unfold at_line_end. pose proof Hs as (_ & _ & _ & Hr).
    inversion Hr as [|c c' tl tl' Hcc Htl E E'].
    + constructor; [exact Hs | constructor].
    + assert (Hl : is_line_terminator c = is_line_terminator c').
      { pose proof (@mem_same_kind CDot c c' eq_refl Hcc) as H.
        cbn [mem] in H. destruct (is_line_terminator c), (is_line_terminator c');
          cbn in H; congruence. }
      rewrite Hl. destruct (is_line_terminator c');
        [constructor; [exact Hs | constructor] | constructor].
Qed.

Lemma match_at_sim (r : regex) (p p' : option char) (s s' : text) (i : nat) :
  space_blind r = true -> same_kind_opt p p' -> Forall2 same_kind s s' ->
  match_at r p s i = match_at r p' s' i.
Proof.
  intros Hb Hp Hs. unfold match_at.
  assert (Hsim : state_sim {| prev := p; rest := s; idx := i; caps := [] |}
                           {| prev := p'; rest := s'; idx := i; caps := [] |})
    by (unfold state_sim; cbn; auto).
  destruct (matchl_sim r Hb Hsim) as [|x y l l' (Hi & Hc & _) _]; [reflexivity|].
  now rewrite Hi, Hc.
Qed.

Lemma scan_sim (r : regex) (s s' : text) :
  space_blind r = true -> Forall2 same_kind s s' ->
  forall p p' i skip, same_kind_opt p p' -> scan r p s i skip = scan r p' s' i skip.
Proof.
  intros Hb Hs. induction Hs as [|c c' s s' Hc Hs IH]; intros p p' i skip Hp.
  - destruct skip; cbn [scan]; [|reflexivity].
    now rewrite (@match_at_sim r p p' [] [] i Hb Hp (Forall2_nil _)).
  - destruct skip; cbn [scan]; [|now apply IH].
    rewrite (@match_at_sim r p p' (c :: s) (c' :: s') i Hb Hp (Forall2_cons _ _ Hc Hs)).
    destruct (match_at r p' (c' :: s') i); [f_equal|]; now apply IH.
Qed.

Lemma matchAll_sim (r : regex) (s s' : text) :
  space_blind r = true -> Forall2 same_kind s s' -> matchAll r s = matchAll r s'.
Proof. intros Hb Hs. unfold matchAll. now apply scan_sim. Qed.

Lemma Forall2_skipn (A : Type) (R : A -> A -> Prop) (n : nat) :
  forall l l', Forall2 R l l' -> Forall2 R (skipn n l) (skipn n l').
Proof.
  induction n as [|n IH]; intros l l' H; [exact H|].
  destruct H; cbn; [constructor | now apply IH].
Qed.

Lemma Forall2_firstn (A : Type) (R : A -> A -> Prop) (n : nat) :
  forall l l', Forall2 R l l' -> Forall2 R (firstn n l) (firstn n l').
Proof.
  induction n as [|n IH]; intros l l' H; [constructor|].
  destruct H; cbn; constructor; [assumption | now apply IH].
Qed.

Lemma Forall2_same_kind_refl (s : text) : Forall2 same_kind s s.
Proof. induction s; constructor; [apply same_kind_refl | assumption]. Qed.

Lemma splice_sim (s s' : text) (by_ : text) (ms : list jsmatch) :
  Forall2 same_kind s s' ->
  forall from, Forall2 same_kind (splice s from ms by_) (splice s' from ms by_).
Proof.
  intros Hs. induction ms as [|m ms IH]; intros from; cbn [splice].
  - now apply Forall2_skipn.
  - repeat apply Forall2_app.
    + unfold substring. now apply Forall2_firstn, Forall2_skipn.
    + apply Forall2_same_kind_refl.
    + apply IH.
Qed.

Lemma replace_sim (r : regex) (by_ s s' : text) :
  space_blind r = true -> Forall2 same_kind s s' ->
  Forall2 same_kind (replace r by_ s) (replace r by_ s').
Proof.
  intros Hb Hs. unfold replace. rewrite (matchAll_sim r Hb Hs). now apply splice_sim.
Qed.

Lemma stripCommentsAndStrings_sim (t t' : text) :
  Forall2 same_kind t t' ->
  Forall2 same_kind (stripCommentsAndStrings t) (stripCommentsAndStrings t').
Proof.
  intros H. unfold stripCommentsAndStrings.
  repeat (apply replace_sim; [reflexivity|]). exact H.
Qed.

Lemma complexity_tokens_space_blind :
  Forall (fun r => space_blind r = true) COMPLEXITY_TOKENS.
Proof. repeat constructor. Qed.

Lemma calculateComplexity_sim (s s' : text) :
  Forall2 same_kind s s' -> calculateComplexity s = calculateComplexity s'.
Proof.
  intros Hs. rewrite !calculateComplexity_sum. do 2 f_equal.
  apply map_ext_in. intros r Hr. unfold count_matches.
  rewrite (@matchAll_sim r s s'); [reflexivity | | exact Hs].
  exact (proj1 (Forall_forall _ _) complexity_tokens_space_blind r Hr).
Qed.

(** ** The normalizer on a string literal *)

Lemma matchl_Seq_nil (r1 r2 : regex) (st : mstate) :
  matchl r1 st = [] -> matchl (Seq r1 r2) st = [].
Proof. intros H. cbn [matchl]. now rewrite H. Qed.

Lemma matchl_char_other (k : char) (st : mstate) :
  (forall tl, rest st <> k :: tl) -> matchl (Chr (CChar k)) st = [].
Proof.
  intros H. cbn [matchl]. destruct (rest st) as [|x tl] eqn:E; [reflexivity|].
  cbn [mem]. destruct (N.eqb_spec x k) as [-> | _]; [now elim (H tl) | reflexivity].
Qed.

Lemma strip_patterns_start :
  starts_with RE_TEMPLATE backtick
  /\ starts_with RE_BLOCK_COMMENT 47%N
  /\ starts_with RE_LINE_COMMENT 47%N
  /\ starts_with RE_SINGLE_QUOTED sq
  /\ starts_with RE_DOUBLE_QUOTED dq.
Proof.
  repeat split; intros st H;
    repeat (apply matchl_Seq_nil); now apply matchl_char_other.
Qed.

Lemma starts_with_match_at (r : regex) (k : char) (p : option char) (s : text) (i : nat) :
  starts_with r k -> (forall tl, s <> k :: tl) -> match_at r p s i = None.
Proof. intros Hr Hs. unfold match_at. now rewrite Hr. Qed.

Lemma last_before_cons (x : char) (a : text) (p : option char) :
  last_before (x :: a) p = last_before a (Some x).
Proof.
  unfold last_before. cbn [rev]. destruct (rev a) as [|y l]; reflexivity.
Qed.

(** Positions whose character is not [k] are passed without a match. *)
Lemma scan_prefix_absent (r : regex) (k : char) (pre s : text) :
  starts_with r k -> ~ In k pre ->
  forall p i,
    scan r p (pre ++ s) i 0 = scan r (last_before pre p) s (i + length pre) 0.
Proof.
  intros Hr. induction pre as [|x pre IH]; intros Hk p i.
  - cbn. now rewrite Nat.add_0_r.
  - cbn [app scan]. rewrite (@starts_with_match_at r k p (x :: pre ++ s) i Hr).
    + rewrite IH by (intros H; apply Hk; now right).
      rewrite last_before_cons. cbn [length]. f_equal. lia.
    + intros tl [= -> _]. apply Hk. now left.
Qed.

Lemma scan_absent (r : regex) (k : char) (s : text) :
  starts_with r k -> ~ In k s -> forall p i, scan r p s i 0 = [].
Proof.
  intros Hr Hk p i.
  rewrite <- (app_nil_r s), (@scan_prefix_absent r k s [] Hr Hk). cbn [scan].
  now rewrite (@starts_with_match_at r k _ [] _ Hr) by discriminate.
Qed.

(** The positions covered by a match are passed without looking. *)
Lemma scan_skip (r : regex) (a s : text) :
  forall p i, scan r p (a ++ s) i (length a) = scan r (last_before a p) s (i + length a) 0.
Proof.
  induction a as [|x a IH]; intros p i.
  - cbn [app length]. now rewrite Nat.add_0_r.
  - cbn [app length scan]. rewrite IH, last_before_cons. f_equal. lia.
Qed.

Lemma replace_absent (r : regex) (k : char) (by_ s : text) :
  starts_with r k -> ~ In k s -> replace r by_ s = s.
Proof.
  intros Hr Hk. unfold replace, matchAll. now rewrite (@scan_absent r k s Hr Hk).
Qed.

Lemma span_app_stop (cs : cset) (b : text) (y : char) (post : text) :
  Forall (fun x => mem cs x = true) b -> mem cs y = false ->
  span cs (b ++ y :: post) = length b.
Proof.
  intros Hb Hy. induction Hb as [|x b Hx Hb IH]; cbn [app span length].
  - now rewrite Hy.
  - now rewrite Hx, IH.
Qed.

Lemma drop_state_app (a s : text) :
  forall p, drop_state (length a) p (a ++ s) = (last_before a p, s).
Proof.
  induction a as [|x a IH]; intros p.
  - cbn. now destruct s.
  - cbn [length app drop_state]. now rewrite IH, last_before_cons.
Qed.

Lemma lin_match_quoted (q : char) (p : option char) (b post : text) :
  ~ In q b ->
  lin_match (QUOTED_ATOMS q) p (q :: b ++ q :: post) = Some (length b + 2).
Proof.
  intros Hq. unfold QUOTED_ATOMS. cbn [lin_match mem]. rewrite N.eqb_refl.
  rewrite span_app_stop.
  - rewrite drop_state_app. cbn [lin_match mem]. rewrite N.eqb_refl. cbn.
    f_equal. lia.
  - apply Forall_forall. intros x Hx. cbn [mem].
    destruct (N.eqb_spec x q) as [-> | _]; [contradiction | reflexivity].
  - cbn [mem]. now rewrite N.eqb_refl.
Qed.

Lemma skipn_app_length (A : Type) (a l : list A) (n : nat) :
  skipn (length a + n) (a ++ l) = skipn n l.
Proof. induction a as [|x a IH]; cbn; [reflexivity | exact IH]. Qed.

Lemma firstn_app_length (A : Type) (a l : list A) : firstn (length a) (a ++ l) = a.
Proof. induction a as [|x a IH]; cbn; [reflexivity | now rewrite IH]. Qed.

(** A literal pattern replaces the one literal of a text that has no other
    quote of its kind. *)
Lemma replace_quoted (r : regex) (q : char) (by_ pre b post : text) :
  linearize r = Some (QUOTED_ATOMS q) ->
  ~ In q pre -> ~ In q b -> ~ In q post ->
  replace r by_ (pre ++ q :: b ++ q :: post) = pre ++ by_ ++ post.
Proof.
  intros Hl Hpre Hb Hpost.
  assert (Hwf : run_delimited (QUOTED_ATOMS q) = true).
  { cbn. now rewrite N.eqb_refl. }
  assert (Hr : starts_with r q).
  { intros st Hst. rewrite (@linearize_sound r _ Hl), (@lin_regex_matchl _ Hwf).
    unfold QUOTED_ATOMS. cbn [lin_match mem].
    destruct (rest st) as [|x tl] eqn:E; [reflexivity|].
    destruct (N.eqb_spec x q) as [-> | _]; [now elim (Hst tl) | reflexivity]. }
  assert (Hall : matchAll r (pre ++ q :: b ++ q :: post)
                 = [{| m_start := length pre; m_end := length pre + (length b + 2);
                       m_caps := [] |}]).
  { unfold matchAll. rewrite (@scan_prefix_absent r q pre _ Hr Hpre). cbn [Nat.add scan].
    rewrite (@match_at_linear r _ _ _ _ Hl Hwf), lin_match_quoted by exact Hb.
    f_equal. cbn [m_end].
    replace (length pre + (length b + 2) - length pre - 1) with (length (b ++ [q]))
      by (rewrite length_app; cbn; lia).
    replace (b ++ q :: post) with ((b ++ [q]) ++ post) by now rewrite <- app_assoc.
    rewrite scan_skip. now apply (@scan_absent r q post Hr Hpost). }
  unfold replace. rewrite Hall. cbn [splice m_start m_end]. unfold substring.
  rewrite Nat.sub_0_r. cbn [skipn]. rewrite firstn_app_length. f_equal. f_equal.
  rewrite skipn_app_length.
  replace (q :: b ++ q :: post) with ((q :: b ++ [q]) ++ post)
    by (cbn; now rewrite <- app_assoc).
  replace (length b + 2) with (length (q :: b ++ [q]) + 0)
    by (cbn; rewrite length_app; cbn; lia).
  now rewrite skipn_app_length.
Qed.

Lemma plain_absent (k : char) (s : text) :
  In k [backtick; sq; dq; 47%N] -> Forall plain s -> ~ In k s.
Proof.
  intros Hk Hs Hin. apply (proj1 (Forall_forall _ _) Hs) in Hin.
  destruct Hin as (H1 & H2 & H3 & H4).
  cbn in Hk. intuition congruence.
Qed.

(** The normalized form of a text with one string literal and no other
    quote, backtick or slash: the literal becomes the placeholder, whatever
    its content. *)
Lemma stripCommentsAndStrings_literal (q : char) (pre b post : text) :
  q = sq \/ q = dq ->
  Forall plain pre -> Forall plain b -> Forall plain post ->
  stripCommentsAndStrings (pre ++ q :: b ++ q :: post) = pre ++ dq :: dq :: post.
Proof.
  intros Hq Hpre Hb Hpost.
  destruct strip_patterns_start as (Ht & Hbc & Hlc & Hsq & Hdq).
  assert (Habs : forall k, In k [backtick; sq; dq; 47%N] -> k <> q ->
                           ~ In k (pre ++ q :: b ++ q :: post)).
  { intros k Hk Hkq Hin.
    apply in_app_iff in Hin. destruct Hin as [Hin | [Hin | Hin]].
    - revert Hin. now apply plain_absent.
    - congruence.
    - apply in_app_iff in Hin. destruct Hin as [Hin | [Hin | Hin]].
      + revert Hin. now apply plain_absent.
      + congruence.
      + revert Hin. now apply plain_absent. }
  unfold stripCommentsAndStrings.
  rewrite (@replace_absent RE_TEMPLATE backtick _ _ Ht)
    by (apply Habs; [cbn; tauto | destruct Hq; subst q; discriminate]).
  rewrite (@replace_absent RE_BLOCK_COMMENT 47%N _ _ Hbc)
    by (apply Habs; [cbn; tauto | destruct Hq; subst q; discriminate]).
  rewrite (@replace_absent RE_LINE_COMMENT 47%N _ _ Hlc)
    by (apply Habs; [cbn; tauto | destruct Hq; subst q; discriminate]).
  destruct Hq as [-> | ->].
  - rewrite (@replace_quoted RE_SINGLE_QUOTED sq _ pre b post eq_refl)
      by (apply plain_absent; [cbn; tauto | assumption]).
    change ([dq; dq] ++ post) with (dq :: [] ++ dq :: post).
    rewrite (@replace_quoted RE_DOUBLE_QUOTED dq _ pre [] post eq_refl);
      [reflexivity | | intros [] |]; (apply plain_absent; [cbn; tauto | assumption]).
  - rewrite (@replace_absent RE_SINGLE_QUOTED sq _ _ Hsq)
      by (apply Habs; [cbn; tauto | discriminate]).
    rewrite (@replace_quoted RE_DOUBLE_QUOTED dq _ pre b post eq_refl);
      [reflexivity | | |]; (apply plain_absent; [cbn; tauto | assumption]).
Qed.


(** ** Appending text keeps the matches of most tokens *)

Lemma star_loop_head (cs : cset) :
  forall fuel st,
    length (rest st) < fuel ->
    hd_error (star_loop true (matchl (Chr cs)) fuel st)
    = Some (jump (span cs (rest st)) st).
Proof.
  induction fuel as [|fuel IH]; intros st Hlt; [lia|].
  cbn [star_loop]. unfold star_round.
  change (matchl (Chr cs) st)
    with (match rest st with
          | [] => []
          | c :: tl => if mem cs c then [advance st c tl] else []
          end).
  destruct (rest st) as [|x tl] eqn:E; [reflexivity|].
  cbn [span]. destruct (mem cs x) eqn:Em; [|reflexivity].
  cbn [flat_map advance idx]. rewrite (proj2 (Nat.ltb_lt _ _)) by lia.
  rewrite app_nil_r.
  specialize (IH (advance st x tl)). cbn [advance rest] in IH.
  assert (Hlt' : length tl < fuel) by (cbn in Hlt; lia).
  specialize (IH Hlt'). cbn [jump]. rewrite E.
  destruct (star_loop true (matchl (Chr cs)) fuel _) as [|y l]; [discriminate|].
  exact IH.
Qed.

Lemma hd_error_app_nil (A : Type) (l : list A) : hd_error (l ++ []) = hd_error l.
Proof. now rewrite app_nil_r. Qed.

Lemma lin_regex_head (l : list atom) :
  runs_closed l = true ->
  forall st,
    hd_error (matchl (lin_regex l) st)
    = option_map (fun n => jump n st) (lin_match l (prev st) (rest st)).
Proof.
  induction l as [|a l IH]; intros Hwf st; [reflexivity|].
  destruct a as [cs|cs|]; cbn [lin_regex atom_regex].
  - cbn [matchl lin_match]. cbn [runs_closed] in Hwf.
    destruct (rest st) as [|x tl] eqn:E; [reflexivity|].
    destruct (mem cs x); [|reflexivity].
    cbn [flat_map]. rewrite app_nil_r, (IH Hwf). cbn [advance prev rest].
    destruct (lin_match l (Some x) tl); [|reflexivity].
    cbn [option_map jump]. now rewrite E.
  - cbn [runs_closed] in Hwf.
    change (matchl (Seq (Star true (Chr cs)) (lin_regex l)) st)
      with (flat_map (matchl (lin_regex l))
              (star_loop true (matchl (Chr cs)) (S (length (rest st))) st)).
    destruct l as [|[[c| | | | | | |]| |] l']; try discriminate.
    + cbn [lin_regex lin_match].
      rewrite (flat_map_ext (matchl Eps) (fun x => [x]) (fun _ => eq_refl)).
      rewrite flat_map_singleton, star_loop_head by lia.
      destruct (drop_state (span cs (rest st)) (prev st) (rest st)) as [p' s'].
      cbn [option_map]. now rewrite Nat.add_0_r.
    + apply andb_true_iff in Hwf. destruct Hwf as [Hc Hwf]. apply negb_true_iff in Hc.
      rewrite star_run_then; [|clear st|lia].
      * rewrite (IH Hwf).
        remember (AClass (CChar c) :: l') as tl eqn:Etl. cbn [lin_match].
        pose proof (jump_drop_state (span cs (rest st)) st) as Hj.
        destruct (drop_state (span cs (rest st)) (prev st) (rest st)) as [p' s'].
        injection Hj as -> ->.
        destruct (lin_match tl p' s'); [|reflexivity].
        cbn [option_map]. now rewrite jump_add.
      * intros st x tl E Em. cbn [lin_regex atom_regex matchl]. rewrite E.
        cbn [mem]. destruct (N.eqb x c) eqn:Exc; [|reflexivity].
        apply N.eqb_eq in Exc. subst x. congruence.
  - cbn [matchl lin_match]. cbn [runs_closed] in Hwf.
    unfold at_word_boundary.
    destruct (xorb (is_word_opt (prev st)) (is_word_opt (hd_error (rest st))));
      [|reflexivity].
    cbn [flat_map]. now rewrite app_nil_r, (IH Hwf).
Qed.

Lemma match_at_linear_head (r : regex) (l : list atom) (p : option char) (s : text) (i : nat) :
  linearize r = Some l -> runs_closed l = true ->
  match_at r p s i =
  match lin_match l p s with
  | Some n => Some {| m_start := i; m_end := i + n; m_caps := [] |}
  | None => None
  end.
Proof.
  intros Hl Hwf. unfold match_at.
  rewrite (@linearize_sound r _ Hl).
  pose proof (@lin_regex_head l Hwf {| prev := p; rest := s; idx := i; caps := [] |}) as H.
  cbn [prev rest] in H.
  destruct (matchl (lin_regex l) _) as [|st sts]; cbn [hd_error] in H;
    destruct (lin_match l p s) as [n|] eqn:E; cbn [option_map] in H; try discriminate;
    [reflexivity|].
  injection H as ->. apply lin_match_le in E.
  rewrite jump_idx, jump_caps by exact E. reflexivity.
Qed.

Lemma lin_match_nil (l : list atom) :
  consumes l = true -> forall p, lin_match l p [] = None.
Proof.
  unfold consumes.
  induction l as [|a l IH]; intros Hc p; cbn [existsb] in Hc; [discriminate|].
  destruct a as [cs|cs|]; cbn [lin_match span drop_state hd_error].
  - reflexivity.
  - cbn in Hc. now rewrite IH.
  - cbn in Hc. destruct (xorb _ _); [now apply IH | reflexivity].
Qed.

Lemma lin_match_class_nonempty (cs : cset) (l : list atom) (p : option char) (s : text) (n : nat) :
  lin_match (AClass cs :: l) p s = Some n -> 1 <= n /\ s <> [].
Proof.
  cbn [lin_match]. destruct s as [|x s']; [discriminate|].
  destruct (mem cs x); [|discriminate].
  destruct (lin_match l (Some x) s'); [|discriminate].
  intros [= <-]. split; [lia | discriminate].
Qed.

Lemma span_app_inside (cs : cset) (s u : text) :
  span cs s < length s -> span cs (s ++ u) = span cs s.
Proof.
  induction s as [|x s IH]; cbn [span length app]; [lia|].
  destruct (mem cs x); [|reflexivity]. intros H. rewrite IH; [reflexivity | lia].
Qed.

Lemma span_app_ge (cs : cset) (s u : text) : span cs s <= span cs (s ++ u).
Proof.
  induction s as [|x s IH]; cbn [span app]; [lia|].
  destruct (mem cs x); lia.
Qed.

Lemma span_app_back (cs : cset) (s u : text) :
  span cs (s ++ u) <= length s -> span cs s = span cs (s ++ u).
Proof.
  induction s as [|x s IH]; cbn [span length app].
  - lia.
  - destruct (mem cs x); [|reflexivity]. intros H. rewrite IH; [reflexivity | lia].
Qed.

Lemma drop_state_app_l (u : text) (j : nat) :
  forall p s, j <= length s ->
    drop_state j p (s ++ u) = (fst (drop_state j p s), snd (drop_state j p s) ++ u).
Proof.
  induction j as [|j IH]; intros p s Hle.
  - cbn. now destruct s.
  - destruct s as [|x s]; cbn in Hle; [lia|]. cbn [app drop_state]. apply IH. lia.
Qed.

Lemma drop_state_length (j : nat) :
  forall p s, length (snd (drop_state j p s)) = length s - j.
Proof.
  induction j as [|j IH]; intros p s; cbn; [destruct s; cbn; lia|].
  destruct s as [|x s]; cbn; [reflexivity | apply IH].
Qed.

Lemma drop_state_add (a b : nat) :
  forall p s,
    drop_state (a + b) p s
    = drop_state b (fst (drop_state a p s)) (snd (drop_state a p s)).
Proof.
  induction a as [|a IH]; intros p s.
  - cbn. now destruct s.
  - destruct s as [|x s]; cbn [Nat.add drop_state fst snd].
    + now destruct b.
    + apply IH.
Qed.

(** A match in a text is still there, or longer, when text is appended. *)
Lemma lin_match_app (u : text) (l : list atom) :
  runs_closed l = true -> boundary_guarded l = true ->
  forall p s n,
    lin_match l p s = Some n ->
    exists n', lin_match l p (s ++ u) = Some n'
               /\ (n' = n \/ (n = length s /\ n <= n')).
Proof.
  induction l as [|a l IH]; intros Hr Hg p s n H.
  - cbn in H. injection H as <-. exists 0. cbn. auto.
  - destruct a as [cs|cs|].
    + cbn [runs_closed boundary_guarded] in Hr, Hg. cbn [lin_match] in H.
      destruct s as [|x s']; [discriminate|]. cbn [app lin_match].
      destruct (mem cs x); [|discriminate].
      destruct (lin_match l (Some x) s') as [k|] eqn:E; [|discriminate].
      injection H as <-.
      destruct (IH Hr Hg _ _ _ E) as (k' & -> & Hk). exists (S k'). cbn [option_map length].
      split; [reflexivity | lia].
    + cbn [runs_closed boundary_guarded] in Hr, Hg.
      destruct l as [|[[c| | | | | | |]| |] l']; try discriminate.
      * cbn [lin_match] in *.
        destruct (drop_state (span cs s) p s) as [p1 s1].
        destruct (drop_state (span cs (s ++ u)) p (s ++ u)) as [p2 s2].
        cbn [option_map] in *. injection H as <-.
        exists (span cs (s ++ u) + 0). split; [reflexivity|].
        pose proof (span_le cs s). pose proof (span_app_ge cs s u).
        destruct (Nat.eq_dec (span cs s) (length s)) as [Heq | Hne].
        -- right. lia.
        -- left. rewrite span_app_inside by lia. reflexivity.
      * apply andb_true_iff in Hr. destruct Hr as [Hc Hr].
        remember (AClass (CChar c) :: l') as tl eqn:Etl.
        cbn [lin_match] in H |- *.
        pose proof (drop_state_length (span cs s) p s) as Hlen.
        destruct (drop_state (span cs s) p s) as [p1 s1] eqn:Ed. cbn [snd] in Hlen.
        destruct (lin_match tl p1 s1) as [k|] eqn:E; [|discriminate].
        injection H as <-.
        assert (Hk : 1 <= k /\ s1 <> []) by (subst tl; eapply lin_match_class_nonempty; eauto).
        assert (Hin : span cs s < length s).
        { pose proof (span_le cs s). destruct s1; [tauto|]. cbn in Hlen. lia. }
        rewrite span_app_inside by exact Hin.
        rewrite drop_state_app_l, Ed by lia. cbn [fst snd].
        destruct (IH Hr Hg _ _ _ E) as (k' & -> & Hk').
        exists (span cs s + k'). cbn [option_map]. split; [reflexivity | lia].
    + cbn [runs_closed boundary_guarded] in Hr, Hg.
      destruct l as [|[cs| |] l']; try discriminate.
      remember (AClass cs :: l') as tl eqn:Etl.
      cbn [lin_match] in H |- *.
      destruct (xorb (is_word_opt p) (is_word_opt (hd_error s))) eqn:Ex; [|discriminate].
      assert (Hs : 1 <= n /\ s <> [])
        by (subst tl; eapply lin_match_class_nonempty; eauto).
      destruct s as [|x s']; [tauto|]. cbn [app hd_error] in *. rewrite Ex.
      exact (IH Hr Hg _ _ _ H).
Qed.

(** A match of an extended text that ends inside the text is a match of
    the text. *)
Lemma lin_match_app_inv (u : text) (l : list atom) :
  runs_closed l = true -> boundary_guarded l = true ->
  forall p s n,
    lin_match l p (s ++ u) = Some n -> n <= length s -> lin_match l p s = Some n.
Proof.
  induction l as [|a l IH]; intros Hr Hg p s n H Hn.
  - exact H.
  - destruct a as [cs|cs|].
    + cbn [runs_closed boundary_guarded] in Hr, Hg.
      destruct (@lin_match_class_nonempty _ _ _ _ _ H) as [Hn1 _].
      destruct s as [|x s']; [cbn in Hn; lia|]. cbn [app lin_match] in H |- *.
      destruct (mem cs x); [|discriminate].
      destruct (lin_match l (Some x) (s' ++ u)) as [k|] eqn:E; [|discriminate].
      injection H as <-. cbn in Hn. rewrite (IH Hr Hg _ _ _ E) by lia. reflexivity.
    + cbn [runs_closed boundary_guarded] in Hr, Hg.
      destruct l as [|[[c| | | | | | |]| |] l']; try discriminate.
      * cbn [lin_match] in *.
        destruct (drop_state (span cs s) p s) as [p1 s1].
        destruct (drop_state (span cs (s ++ u)) p (s ++ u)) as [p2 s2].
        cbn [option_map] in *. injection H as <-.
        rewrite (span_app_back cs s u) by lia. reflexivity.
      * apply andb_true_iff in Hr. destruct Hr as [Hc Hr].
        remember (AClass (CChar c) :: l') as tl eqn:Etl.
        cbn [lin_match] in H |- *.
        destruct (drop_state (span cs (s ++ u)) p (s ++ u)) as [p2 s2] eqn:Ed2.
        destruct (lin_match tl p2 s2) as [k|] eqn:E; [|discriminate].
        injection H as <-.
        assert (Hk : 1 <= k /\ s2 <> []) by (subst tl; eapply lin_match_class_nonempty; eauto).
        assert (Hsp : span cs s = span cs (s ++ u)) by (apply span_app_back; lia).
        rewrite <- Hsp in *.
        rewrite drop_state_app_l in Ed2 by lia.
        pose proof (drop_state_length (span cs s) p s) as Hlen.
        destruct (drop_state (span cs s) p s) as [p1 s1]. cbn [fst snd] in *.
        injection Ed2 as <- <-.
        rewrite (IH Hr Hg _ _ _ E) by lia. reflexivity.
    + cbn [runs_closed boundary_guarded] in Hr, Hg.
      destruct l as [|[cs| |] l']; try discriminate.
      remember (AClass cs :: l') as tl eqn:Etl.
      cbn [lin_match] in H |- *.
      destruct (xorb (is_word_opt p) (is_word_opt (hd_error (s ++ u)))) eqn:Ex; [|discriminate].
      assert (Hn1 : 1 <= n /\ s ++ u <> [])
        by (subst tl; eapply lin_match_class_nonempty; eauto).
      destruct s as [|x s']; [cbn in Hn; lia|]. cbn [app hd_error] in *. rewrite Ex.
      exact (IH Hr Hg p (x :: s') n H Hn).
Qed.

Lemma clear_blocked (c1 : char) (l : list atom) :
  forall aw p s m,
    (aw = true -> is_word_opt p = true) ->
    clear_of c1 aw l = true ->
    lin_match l p s = Some m ->
    forall j, j < m -> blocked c1 (fst (drop_state j p s)) (snd (drop_state j p s)).
Proof.
  induction l as [|a l IH]; intros aw p s m Haw Hc H j Hj.
  - cbn in H. injection H as <-. lia.
  - destruct a as [cs|cs|].
    + assert (Hx : forall x, mem cs x = true ->
                     (x <> c1 \/ aw = true)
                     /\ exists aw', clear_of c1 aw' l = true
                                    /\ (aw' = true -> is_word x = true)).
      { intros x Hm. cbn [clear_of] in Hc.
        destruct cs as [c| | | | | | |];
          try (apply andb_true_iff in Hc; destruct Hc as [Hc1 Hc2];
               apply negb_true_iff in Hc1;
               split; [left; intros ->; congruence | exists false; split; [exact Hc2 | discriminate]]).
        apply andb_true_iff in Hc. destruct Hc as [Hc1 Hc2].
        cbn [mem] in Hm. apply N.eqb_eq in Hm. subst x.
        split.
        - apply orb_true_iff in Hc1. destruct Hc1 as [Hc1 | Hc1]; [left | now right].
          apply negb_true_iff, N.eqb_neq in Hc1. exact Hc1.
        - exists (is_word c). split; [exact Hc2 | tauto]. }
      cbn [lin_match] in H. destruct s as [|x s']; [discriminate|].
      destruct (mem cs x) eqn:Em; [|discriminate].
      destruct (lin_match l (Some x) s') as [k|] eqn:E; [|discriminate].
      injection H as <-.
      destruct (Hx x Em) as [Hhere (aw' & Hc' & Haw')].
      destruct j as [|j]; cbn [drop_state fst snd blocked].
      * destruct Hhere as [Hne | ->]; [now left | right; now apply Haw].
      * apply (IH aw' (Some x) s' k Haw' Hc' E). lia.
    + cbn [clear_of] in Hc. apply andb_true_iff in Hc. destruct Hc as [Hc1 Hc2].
      apply negb_true_iff in Hc1. cbn [lin_match] in H.
      destruct (drop_state (span cs s) p s) as [p1 s1] eqn:Ed.
      destruct (lin_match l p1 s1) as [k|] eqn:E; [|discriminate].
      injection H as <-.
      destruct (Nat.lt_ge_cases j (span cs s)) as [Hlt | Hge].
      * destruct (@span_drop_state cs s p j Hlt) as (pj & x & tl & -> & Hx).
        cbn [fst snd blocked]. left. intros ->. congruence.
      * replace j with (span cs s + (j - span cs s)) by lia.
        rewrite drop_state_add, Ed. cbn [fst snd].
        apply (IH false p1 s1 k ltac:(discriminate) Hc2 E). lia.
    + cbn [clear_of] in Hc. cbn [lin_match] in H.
      destruct (xorb _ _); [|discriminate]. eauto.
Qed.

Lemma keyword_blocked (c1 : char) (tl : list atom) (p : option char) (s : text) :
  is_word c1 = true -> blocked c1 p s ->
  lin_match (ABoundary :: AClass (CChar c1) :: tl) p s = None.
Proof.
  intros Hw Hb. cbn [lin_match].
  destruct s as [|x s']; cbn [hd_error mem].
  - now destruct (xorb _ _).
  - destruct (N.eqb_spec x c1) as [-> | Hne].
    + destruct Hb as [Hb | Hb]; [congruence|].
      cbn [is_word_opt]. rewrite Hb, Hw. reflexivity.
    + now destruct (xorb _ _).
Qed.

Lemma keyword_no_overlap (l : list atom) :
  keyword_like l = true ->
  forall p s n j, lin_match l p s = Some n -> 0 < j < n ->
                  found_at (lin_match l) j p s = None.
Proof.
  intros Hk p s n j H Hj. unfold keyword_like in Hk.
  destruct l as [|[| |] [|[[c1| | | | | | |]| |] tl]]; try discriminate.
  apply andb_true_iff in Hk. destruct Hk as [Hw Hc].
  unfold found_at. apply keyword_blocked; [exact Hw|].
  remember (AClass (CChar c1) :: tl) as l1 eqn:El1.
  cbn [lin_match] in H. destruct (xorb _ _); [|discriminate]. subst l1.
  cbn [lin_match] in H. destruct s as [|x s']; [discriminate|].
  cbn [mem] in H. destruct (N.eqb_spec x c1) as [-> | _]; [|discriminate].
  destruct (lin_match tl (Some c1) s') as [k|] eqn:E; [|discriminate].
  injection H as <-.
  destruct j as [|j]; [lia|]. cbn [drop_state].
  apply (@clear_blocked c1 tl true (Some c1) s' k (fun _ => Hw) Hc E). lia.
Qed.

Lemma fixed_length_match (l : list atom) :
  fixed_length l = true ->
  forall p s n, lin_match l p s = Some n -> n = length l.
Proof.
  induction l as [|a l IH]; intros Hf p s n H.
  - cbn in H. now injection H as <-.
  - cbn [fixed_length forallb] in Hf. destruct a as [cs| |]; try discriminate.
    cbn [lin_match] in H. destruct s as [|x s']; [discriminate|].
    destruct (mem cs x); [|discriminate].
    destruct (lin_match l (Some x) s') as [k|] eqn:E; [|discriminate].
    injection H as <-. cbn. f_equal. exact (IH Hf _ _ _ E).
Qed.

Section AppendScan.

Variable r : regex.
Variable M : option char -> text -> option nat.
Variable u : text.

Hypothesis match_at_M :
  forall p s i,
    match_at r p s i =
    match M p s with
    | Some n => Some {| m_start := i; m_end := i + n; m_caps := [] |}
    | None => None
    end.

Hypothesis M_nil : forall p, M p [] = None.

Hypothesis M_app :
  forall p s n, M p s = Some n ->
    exists n', M p (s ++ u) = Some n' /\ (n' = n \/ (n = length s /\ n <= n')).

Hypothesis M_cross :
  forall p s n', M p s = None -> M p (s ++ u) = Some n' ->
    forall j, j <= length s -> found_at M j p s = None.

Lemma scan_none (s : text) :
  forall p i, (forall j, j <= length s -> found_at M j p s = None) ->
              scan r p s i 0 = [].
Proof.
  induction s as [|x tl IH]; intros p i Hnone; cbn [scan]; rewrite match_at_M.
  - now rewrite M_nil.
  - pose proof (Hnone 0 ltac:(lia)) as H0. unfold found_at in H0. cbn in H0.
    rewrite H0. apply IH. intros j Hj.
    exact (Hnone (S j) ltac:(cbn; lia)).
Qed.

Lemma scan_skip_all (s : text) :
  forall p i k, length s <= k -> scan r p s i k = [].
Proof.
  induction s as [|x tl IH]; intros p i k Hk.
  - destruct k; cbn [scan]; [|reflexivity]. now rewrite match_at_M, M_nil.
  - destruct k; cbn in Hk; [lia|]. cbn [scan]. apply IH. lia.
Qed.

(** Appending text does not lower the number of matches. *)
Lemma scan_app_le (s : text) :
  forall p i skip, length (scan r p s i skip) <= length (scan r p (s ++ u) i skip).
Proof.
  induction s as [|x tl IH]; intros p i skip.
  - rewrite scan_skip_all by (cbn; lia). cbn. lia.
  - destruct skip; [|cbn [app scan]; apply IH].
    destruct (M p (x :: tl)) as [n|] eqn:E.
    + destruct (M_app E) as (n' & E' & Hn').
      cbn [app scan]. rewrite !match_at_M, E.
      change (x :: tl ++ u) with ((x :: tl) ++ u). rewrite E'.
      cbn [length m_end app].
      destruct Hn' as [-> | [Hn Hle]].
      * apply le_n_S, IH.
      * rewrite scan_skip_all by (cbn in Hn; lia). cbn. lia.
    + destruct (M p ((x :: tl) ++ u)) as [n'|] eqn:E'.
      * rewrite (@scan_none (x :: tl) p i (M_cross E E')). cbn. lia.
      * cbn [app scan]. rewrite !match_at_M, E.
        change (x :: tl ++ u) with ((x :: tl) ++ u). rewrite E'. apply IH.
Qed.

End AppendScan.

Lemma append_stable_cross (u : text) (l : list atom) :
  append_stable l = true ->
  forall p s n', lin_match l p s = None -> lin_match l p (s ++ u) = Some n' ->
    forall j, j <= length s -> found_at (lin_match l) j p s = None.
Proof.
  unfold append_stable. rewrite !andb_true_iff, orb_true_iff.
  intros [[[Hr Hg] Hc] Hkind] p s n' Hnone Hsome j Hj.
  assert (Hlong : length s < n').
  { destruct (Nat.lt_ge_cases (length s) n') as [H | H]; [exact H|].
    rewrite (@lin_match_app_inv u l Hr Hg p s n' Hsome H) in Hnone. discriminate. }
  destruct j as [|j]; [unfold found_at; cbn; now destruct s|].
  destruct (found_at (lin_match l) (S j) p s) as [m|] eqn:Ef; [exfalso | reflexivity].
  unfold found_at in Ef.
  pose proof (drop_state_length (S j) p s) as Hlen.
  destruct (@lin_match_app u l Hr Hg _ _ _ Ef) as (m' & Ef' & Hm').
  assert (Hfa : found_at (lin_match l) (S j) p (s ++ u) = Some m').
  { unfold found_at. rewrite (drop_state_app_l u p s Hj). exact Ef'. }
  destruct Hkind as [Hk | Hf].
  - pose proof (@keyword_no_overlap l Hk p (s ++ u) n' (S j) Hsome ltac:(lia)) as Hno.
    congruence.
  - pose proof (@fixed_length_match l Hf _ _ _ Hsome).
    pose proof (@fixed_length_match l Hf _ _ _ Ef).
    pose proof (lin_match_le _ _ _ Ef). lia.
Qed.

Lemma append_stable_count (r : regex) (l : list atom) (t u : text) :
  linearize r = Some l -> append_stable l = true ->
  count_matches r t <= count_matches r (t ++ u).
Proof.
  intros Hl Hs. pose proof Hs as Hs'. unfold append_stable in Hs'.
  rewrite !andb_true_iff in Hs'. destruct Hs' as [[[Hr Hg] Hc] _].
  unfold count_matches, matchAll.
  apply (@scan_app_le r (lin_match l) u).
  - intros p s i. now apply match_at_linear_head.
  - intros p. now apply lin_match_nil.
  - intros p s n. now apply lin_match_app.
  - now apply append_stable_cross.
Qed.

Lemma stable_tokens :
  forall r, In r COMPLEXITY_TOKENS -> r <> TOK_FOR_OF ->
            exists l, linearize r = Some l /\ append_stable l = true.
Proof.
  intros r Hin Hne. unfold COMPLEXITY_TOKENS in Hin. cbn [In] in Hin.
  repeat (destruct Hin as [<- | Hin];
          [first [ now elim Hne | eexists; split; reflexivity ] | ]).
  destruct Hin.
Qed.

(** C8, as the code has it. Appending a text [u] to the text [t] given to
    the scorer never lowers the number of matches of a decision-point token
    other than the for-of token, the one token that ends with a word
    boundary. So the score of [t ++ u] is at least the score of [t] whenever
    the for-of token matches in [t ++ u] at least as often as in [t], in
    particular when it does not match in [t]; and in general the score of
    [t'] is at least the score of [t] when every token matches in [t'] at
    least as often as in [t]. *)
Theorem append_keeps_score (t u : text) :
  (forall r, In r COMPLEXITY_TOKENS -> r <> TOK_FOR_OF ->
             count_matches r t <= count_matches r (t ++ u))
  /\ (count_matches TOK_FOR_OF t <= count_matches TOK_FOR_OF (t ++ u) ->
      (calculateComplexity t <= calculateComplexity (t ++ u))%Z)
  /\ (count_matches TOK_FOR_OF t = 0 ->
      (calculateComplexity t <= calculateComplexity (t ++ u))%Z)
  /\ (forall t', (forall r, In r COMPLEXITY_TOKENS ->
                            count_matches r t <= count_matches r t') ->
                 (calculateComplexity t <= calculateComplexity t')%Z).
Proof.
  assert (Hstable : forall r, In r COMPLEXITY_TOKENS -> r <> TOK_FOR_OF ->
                              count_matches r t <= count_matches r (t ++ u)).
  { intros r Hin Hne. destruct (@stable_tokens r Hin Hne) as (l & Hl & Hs).
    now apply append_stable_count with (l := l). }
  assert (Hfor : count_matches TOK_FOR_OF t <= count_matches TOK_FOR_OF (t ++ u) ->
                 (calculateComplexity t <= calculateComplexity (t ++ u))%Z).
  { intros Hle. apply complexity_monotone_in_counts. intros r Hin.
    assert (Hdec : r = TOK_FOR_OF \/ r <> TOK_FOR_OF).
    { unfold COMPLEXITY_TOKENS in Hin. cbn [In] in Hin.
      repeat (destruct Hin as [<- | Hin];
              [first [ left; reflexivity | right; token_neq ] | ]).
      destruct Hin. }
    destruct Hdec as [-> | Hne]; [exact Hle | now apply Hstable]. }
  split; [exact Hstable|]. split; [exact Hfor|]. split.
  - intros H0. apply Hfor. lia.
  - intros t'. apply complexity_monotone_in_counts.
Qed.

Lemma append_keeps_score_witness :
  (calculateComplexity t#"if (a) {}"
   <= calculateComplexity (t#"if (a) {}" ++ t#"else if (b) { c && d }"))%Z.
Proof.
  destruct (append_keeps_score t#"if (a) {}" t#"else if (b) { c && d }") as (_ & _ & H & _).
  apply H. vm_compute. reflexivity.
Defined.

(** C8, as stated, fails. Appending [if (a)] to [for const x of] glues [of]
    and [if] into one word, so the for-of token no longer matches and the
    appended [if (] is not matched either: the score drops from 2 to 1,
    although the appended text has a decision point of its own. Neither
    text contains anything the normalizer would change. The second pair is
    well-formed code: the quote inside the regular expression literal of the
    first text pairs up with the first quote of the appended text, and the
    two [if (] between them are stripped. *)
Lemma append_lowers_score :
  count_matches TOK_IF t#"if (a)" = 1
  /\ stripCommentsAndStrings t#"for const x of" = t#"for const x of"
  /\ stripCommentsAndStrings (t#"for const x of" ++ t#"if (a)") = t#"for const x of" ++ t#"if (a)"
  /\ calculateComplexity t#"for const x of" = 2%Z
  /\ calculateComplexity (t#"for const x of" ++ t#"if (a)") = 1%Z
  /\ count_matches TOK_AND (stripCommentsAndStrings t#" s = 'x' && y;") = 1
  /\ calculateComplexity (stripCommentsAndStrings t#"r = /'/; if (a) {} if (b) {}") = 3%Z
  /\ calculateComplexity
       (stripCommentsAndStrings (t#"r = /'/; if (a) {} if (b) {}" ++ t#" s = 'x' && y;")) = 2%Z
  /\ ~ (forall t u : text,
           (exists r, In r COMPLEXITY_TOKENS /\ 1 <= count_matches r u) ->
           (calculateComplexity t <= calculateComplexity (t ++ u))%Z).
Proof.
  do 8 (split; [vm_compute; reflexivity|]).
  intros H.
  specialize (H t#"for const x of" t#"if (a)").
  assert (Hu : exists r, In r COMPLEXITY_TOKENS /\ 1 <= count_matches r t#"if (a)").
  { exists TOK_IF. split; [now left | vm_compute; lia]. }
  specialize (H Hu). vm_compute in H. apply H. reflexivity.
Qed.

(** ** The normalizer on a comment *)

Lemma flat_map_all_nil (A B : Type) (f : A -> list B) (l : list A) :
  (forall x, In x l -> f x = []) -> flat_map f l = [].
Proof.
  induction l as [|x l IH]; intros H; cbn; [reflexivity|].
  rewrite (H x (or_introl eq_refl)), IH; [reflexivity|].
  intros y Hy. apply H. now right.
Qed.

Lemma block_comment_unfold (st : mstate) :
  matchl RE_BLOCK_COMMENT st
  = flat_map (matchl BLOCK_BODY) (matchl (Lit "/*") st).
Proof. reflexivity. Qed.

Lemma close_needs_slash (st : mstate) :
  ~ In 47%N (rest st) -> matchl (Lit "*/") st = [].
Proof.
  intros H. change (Lit "*/") with (Seq (Chr (CChar 42%N)) (Chr (CChar 47%N))).
  cbn [matchl]. destruct (rest st) as [|x tl] eqn:E; [reflexivity|].
  cbn [mem]. destruct (N.eqb x 42); [|reflexivity].
  cbn [flat_map advance rest]. rewrite app_nil_r.
  destruct tl as [|y tl']; [reflexivity|].
  destruct (N.eqb_spec y 47) as [-> | _]; [|reflexivity].
  elim H. right. now left.
Qed.

(** Without a slash ahead a block comment cannot be closed. *)
Lemma block_body_none (st : mstate) :
  ~ In 47%N (rest st) -> matchl BLOCK_BODY st = [].
Proof.
  intros H. unfold BLOCK_BODY. cbn [matchl].
  apply flat_map_all_nil. intros st' Hst'. apply close_needs_slash.
  revert Hst'.
  apply (@star_loop_invariant (fun s => ~ In 47%N (rest s)) false (matchl (Chr CAll)));
    [|exact H].
  intros a b Ha Hb. cbn [matchl] in Hb.
  destruct (rest a) as [|x tl] eqn:E; [destruct Hb|].
  cbn [mem] in Hb. destruct Hb as [<- | []]. cbn [advance rest].
  intros Hin. apply Ha. now right.
Qed.

Lemma block_comment_none (p : option char) (x : char) (tl : text) (i : nat) :
  ~ In 47%N tl \/ (exists tl', tl = 47%N :: tl') ->
  match_at RE_BLOCK_COMMENT p (x :: tl) i = None.
Proof.
  intros H. unfold match_at. rewrite block_comment_unfold.
  change (Lit "/*") with (Seq (Chr (CChar 47%N)) (Chr (CChar 42%N))).
  cbn [matchl rest mem].
  destruct (N.eqb x 47); [|reflexivity].
  cbn [flat_map advance rest]. rewrite app_nil_r.
  destruct tl as [|y tl']; [reflexivity|].
  destruct (N.eqb_spec y 42) as [-> | _]; [|reflexivity].
  cbn [flat_map]. rewrite app_nil_r.
  rewrite block_body_none; [reflexivity|]. cbn [advance rest].
  destruct H as [H | (tl'' & [= ])].
  intros Hin. apply H. now right.
Qed.

Lemma span_line (body post : text) :
  Forall (fun c => is_line_terminator c = false) body -> at_eol post ->
  span CDot (body ++ post) = length body.
Proof.
  intros Hb Hp. induction Hb as [|x body Hx Hb IH]; cbn [app span length mem].
  - destruct post as [|c tl]; [reflexivity|]. cbn in Hp. cbn [span mem]. now rewrite Hp.
  - now rewrite Hx, IH.
Qed.

Lemma line_comment_match (p : option char) (body post : text) (i : nat) :
  Forall (fun c => is_line_terminator c = false) body -> at_eol post ->
  match_at RE_LINE_COMMENT p (47%N :: 47%N :: body ++ post) i
  = Some {| m_start := i; m_end := i + (length body + 2); m_caps := [] |}.
Proof.
  intros Hb Hp. unfold match_at.
  change RE_LINE_COMMENT
    with (Seq (Seq (Chr (CChar 47%N)) (Chr (CChar 47%N)))
              (Seq (Star true (Chr CDot)) EndLine)).
  set (st2 := {| prev := Some 47%N; rest := body ++ post; idx := S (S i); caps := [] |}).
  assert (H1 : matchl (Seq (Chr (CChar 47%N)) (Chr (CChar 47%N)))
                 {| prev := p; rest := 47%N :: 47%N :: body ++ post; idx := i; caps := [] |}
               = [st2]) by reflexivity.
  assert (H2 : matchl (Seq (Seq (Chr (CChar 47%N)) (Chr (CChar 47%N)))
                           (Seq (Star true (Chr CDot)) EndLine))
                 {| prev := p; rest := 47%N :: 47%N :: body ++ post; idx := i; caps := [] |}
               = flat_map (matchl EndLine)
                   (star_loop true (matchl (Chr CDot)) (S (length (rest st2))) st2)).
  { change (matchl (Seq ?a ?b) ?s) with (flat_map (matchl b) (matchl a s)) at 1.
    rewrite H1. cbn [flat_map]. now rewrite app_nil_r. }
  rewrite H2.
  pose proof (@star_loop_head CDot (S (length (rest st2))) st2 ltac:(lia)) as Hh.
  assert (Hsp : span CDot (rest st2) = length body) by now apply span_line.
  rewrite Hsp in Hh.
  destruct (star_loop true (matchl (Chr CDot)) (S (length (rest st2))) st2) as [|y l];
    [discriminate|]. cbn [hd_error] in Hh. injection Hh as ->.
  cbn [flat_map matchl].
  pose proof (jump_drop_state (length body) st2) as Hj.
  change (prev st2) with (Some 47%N) in Hj. change (rest st2) with (body ++ post) in Hj.
  rewrite drop_state_app in Hj. injection Hj as Hprev Hrest.
  unfold at_line_end. rewrite Hrest.
  assert (Hend : match post with [] => true | c :: _ => is_line_terminator c end = true).
  { destruct post; [reflexivity | exact Hp]. }
  rewrite Hend. cbn [app]. rewrite jump_caps. f_equal.
  rewrite jump_idx by (cbn; rewrite length_app; lia). cbn. f_equal. lia.
Qed.

Lemma block_body_head (body : text) :
  forall st fuel post,
    rest st = body ++ 42%N :: 47%N :: post -> ~ In 47%N body ->
    length (rest st) < fuel ->
    hd_error (flat_map (matchl (Lit "*/")) (star_loop false (matchl (Chr CAll)) fuel st))
    = Some (jump (length body + 2) st).
Proof.
  change (Lit "*/") with (Seq (Chr (CChar 42%N)) (Chr (CChar 47%N))).
  induction body as [|x b IH]; intros st fuel post Hrest Hno Hlt.
  - destruct fuel as [|fuel]; [lia|]. cbn [star_loop]. unfold star_round.
    cbn [flat_map app] in *.
    assert (H : matchl (Seq (Chr (CChar 42%N)) (Chr (CChar 47%N))) st = [jump 2 st]).
    { cbn [matchl jump]. rewrite Hrest. reflexivity. }
    rewrite H. reflexivity.
  - destruct fuel as [|fuel]; [lia|]. cbn [star_loop]. unfold star_round.
    cbn [flat_map app] in *.
    assert (H : matchl (Seq (Chr (CChar 42%N)) (Chr (CChar 47%N))) st = []).
    { cbn [matchl]. rewrite Hrest. cbn [mem].
      destruct (N.eqb x 42); [|reflexivity].
      cbn [flat_map advance rest]. rewrite app_nil_r.
      destruct b as [|y b']; cbn [app]; [reflexivity|].
      destruct (N.eqb_spec y 47) as [-> | _]; [|reflexivity].
      elim Hno. right. now left. }
    rewrite H. cbn [app].
    change (matchl (Chr CAll) st)
      with (match rest st with
            | [] => []
            | c :: tl => if mem CAll c then [advance st c tl] else []
            end).
    rewrite Hrest. cbn [mem flat_map advance idx].
    assert (Hi : (idx st <? S (idx st)) = true) by (apply Nat.ltb_lt; lia).
    rewrite Hi, !app_nil_r.
    rewrite (IH _ fuel post); cbn [rest].
    + cbn [jump length Nat.add]. now rewrite Hrest.
    + reflexivity.
    + intros Hin. apply Hno. now right.
    + rewrite Hrest in Hlt. cbn in Hlt |- *. lia.
Qed.

Lemma block_comment_match (p : option char) (body post : text) (i : nat) :
  ~ In 47%N body ->
  match_at RE_BLOCK_COMMENT p (47%N :: 42%N :: body ++ 42%N :: 47%N :: post) i
  = Some {| m_start := i; m_end := i + (length body + 4); m_caps := [] |}.
Proof.
  intros Hno. unfold match_at. rewrite block_comment_unfold.
  set (st2 := {| prev := Some 42%N; rest := body ++ 42%N :: 47%N :: post;
                 idx := S (S i); caps := [] |}).
  assert (H1 : matchl (Lit "/*")
                 {| prev := p; rest := 47%N :: 42%N :: body ++ 42%N :: 47%N :: post;
                    idx := i; caps := [] |} = [st2]) by reflexivity.
  rewrite H1. cbn [flat_map]. rewrite app_nil_r.
  pose proof (@block_body_head body st2 (S (length (rest st2))) post eq_refl Hno
                ltac:(lia)) as Hh.
  change (matchl BLOCK_BODY st2)
    with (flat_map (matchl (Lit "*/"))
            (star_loop false (matchl (Chr CAll)) (S (length (rest st2))) st2)).
  destruct (flat_map _ _) as [|y l]; [discriminate|].
  cbn [hd_error] in Hh. injection Hh as ->.
  rewrite jump_caps. f_equal.
  rewrite jump_idx by (cbn; rewrite length_app; cbn; lia). cbn. f_equal. lia.
Qed.

(** A pattern that matches the middle of a text and cannot start in the
    rest of it replaces exactly the middle. *)
Lemma replace_one (r : regex) (k : char) (by_ pre mid post : text) :
  starts_with r k -> ~ In k pre -> ~ In k post -> mid <> [] ->
  (forall p i, match_at r p (mid ++ post) i
               = Some {| m_start := i; m_end := i + length mid; m_caps := [] |}) ->
  replace r by_ (pre ++ mid ++ post) = pre ++ by_ ++ post.
Proof.
  intros Hr Hpre Hpost Hmid Hm.
  assert (Hall : matchAll r (pre ++ mid ++ post)
                 = [{| m_start := length pre; m_end := length pre + length mid;
                       m_caps := [] |}]).
  { unfold matchAll. rewrite (@scan_prefix_absent r k pre _ Hr Hpre). cbn [Nat.add].
    destruct mid as [|x mid']; [congruence|].
    cbn [app scan]. change (x :: mid' ++ post) with ((x :: mid') ++ post).
    rewrite Hm. f_equal. cbn [m_end length].
    replace (length pre + S (length mid') - length pre - 1) with (length mid') by lia.
    rewrite scan_skip. now apply (@scan_absent r k post Hr Hpost). }
  unfold replace. rewrite Hall. cbn [splice m_start m_end]. unfold substring.
  rewrite Nat.sub_0_r. cbn [skipn]. rewrite firstn_app_length. f_equal. f_equal.
  rewrite skipn_app_length.
  rewrite <- (Nat.add_0_r (length mid)). now rewrite skipn_app_length.
Qed.

Lemma block_absent_in_line_comment (pre body post : text) :
  ~ In 47%N pre -> ~ In 47%N body -> ~ In 47%N post ->
  replace RE_BLOCK_COMMENT [] (pre ++ 47%N :: 47%N :: body ++ post)
  = pre ++ 47%N :: 47%N :: body ++ post.
Proof.
  intros Hpre Hbody Hpost.
  destruct strip_patterns_start as (_ & Hbc & _).
  assert (Hrest : ~ In 47%N (body ++ post)).
  { intros H. apply in_app_iff in H. tauto. }
  unfold replace, matchAll.
  rewrite (@scan_prefix_absent RE_BLOCK_COMMENT 47%N pre _ Hbc Hpre).
  cbn [scan]. rewrite block_comment_none by (right; eauto).
  rewrite block_comment_none by (now left).
  now rewrite (@scan_absent RE_BLOCK_COMMENT 47%N _ Hbc Hrest).
Qed.

Lemma comment_char_absent (k : char) (s : text) :
  k = backtick \/ k = 47%N -> Forall comment_char s -> ~ In k s.
Proof.
  intros Hk Hs Hin. apply (proj1 (Forall_forall _ _) Hs) in Hin.
  destruct Hin as (H1 & H2). destruct Hk; congruence.
Qed.

Lemma not_in_app3 (k : char) (a m b : text) :
  ~ In k a -> ~ In k m -> ~ In k b -> ~ In k (a ++ m ++ b).
Proof. intros Ha Hm Hb H. rewrite !in_app_iff in H. tauto. Qed.

(** A block comment is removed, whatever it holds apart from backticks
    and slashes. *)
Lemma stripCommentsAndStrings_block_comment (pre body post : text) :
  Forall plain pre -> Forall comment_char body -> Forall plain post ->
  stripCommentsAndStrings (pre ++ t#"/*" ++ body ++ t#"*/" ++ post) = pre ++ post.
Proof.
  intros Hpre Hbody Hpost.
  destruct strip_patterns_start as (Ht & Hbc & Hlc & Hsq & Hdq).
  change (t#"/*" ++ body ++ t#"*/" ++ post) with (47%N :: 42%N :: body ++ 42%N :: 47%N :: post).
  unfold stripCommentsAndStrings.
  rewrite (@replace_absent RE_TEMPLATE backtick _ _ Ht).
  2:{ change (47%N :: 42%N :: body ++ 42%N :: 47%N :: post)
        with ([47%N; 42%N] ++ body ++ [42%N; 47%N] ++ post).
      intros H. rewrite !in_app_iff in H.
      destruct H as [H | [[H | [H | []]] | [H | [[H | [H | []]] | H]]]];
        try discriminate H.
      - revert H. apply plain_absent; [cbn; tauto | exact Hpre].
      - revert H. apply comment_char_absent; [now left | exact Hbody].
      - revert H. apply plain_absent; [cbn; tauto | exact Hpost]. }
  replace (47%N :: 42%N :: body ++ 42%N :: 47%N :: post)
    with ((47%N :: 42%N :: body ++ [42%N; 47%N]) ++ post)
    by (cbn; now rewrite <- app_assoc).
  rewrite (@replace_one RE_BLOCK_COMMENT 47%N [] pre _ post Hbc).
  - cbn [app].
    assert (Hno : forall k, In k [backtick; sq; dq; 47%N] -> ~ In k (pre ++ post)).
    { intros k Hk H. apply in_app_iff in H.
      destruct H as [H | H]; revert H; now apply plain_absent. }
    rewrite (@replace_absent RE_LINE_COMMENT 47%N _ _ Hlc) by (apply Hno; cbn; tauto).
    rewrite (@replace_absent RE_SINGLE_QUOTED sq _ _ Hsq) by (apply Hno; cbn; tauto).
    rewrite (@replace_absent RE_DOUBLE_QUOTED dq _ _ Hdq) by (apply Hno; cbn; tauto).
    reflexivity.
  - apply plain_absent; [cbn; tauto | exact Hpre].
  - apply plain_absent; [cbn; tauto | exact Hpost].
  - discriminate.
  - intros p i. cbn [app]. rewrite <- app_assoc. cbn [app].
    rewrite block_comment_match by (apply comment_char_absent; [now right | exact Hbody]).
    do 2 f_equal. cbn. rewrite length_app. cbn. lia.
Qed.

(** A line comment is removed up to the end of its line, whatever it holds
    apart from backticks and slashes. *)
Lemma stripCommentsAndStrings_line_comment (pre body post : text) :
  Forall plain pre -> Forall comment_char body ->
  Forall (fun c => is_line_terminator c = false) body ->
  Forall plain post -> at_eol post ->
  stripCommentsAndStrings (pre ++ t#"//" ++ body ++ post) = pre ++ post.
Proof.
  intros Hpre Hbody Hline Hpost Heol.
  destruct strip_patterns_start as (Ht & Hbc & Hlc & Hsq & Hdq).
  change (t#"//" ++ body ++ post) with (47%N :: 47%N :: body ++ post).
  unfold stripCommentsAndStrings.
  rewrite (@replace_absent RE_TEMPLATE backtick _ _ Ht).
  2:{ change (47%N :: 47%N :: body ++ post) with ([47%N; 47%N] ++ body ++ post).
      intros H. rewrite !in_app_iff in H.
      destruct H as [H | [[H | [H | []]] | [H | H]]]; try discriminate H.
      - revert H. apply plain_absent; [cbn; tauto | exact Hpre].
      - revert H. apply comment_char_absent; [now left | exact Hbody].
      - revert H. apply plain_absent; [cbn; tauto | exact Hpost]. }
  rewrite block_absent_in_line_comment;
    [ | apply plain_absent; [cbn; tauto | exact Hpre]
      | apply comment_char_absent; [now right | exact Hbody]
      | apply plain_absent; [cbn; tauto | exact Hpost] ].
  replace (47%N :: 47%N :: body ++ post) with ((47%N :: 47%N :: body) ++ post)
    by reflexivity.
  rewrite (@replace_one RE_LINE_COMMENT 47%N [] pre _ post Hlc).
  - cbn [app].
    assert (Hno : forall k, In k [backtick; sq; dq; 47%N] -> ~ In k (pre ++ post)).
    { intros k Hk H. apply in_app_iff in H.
      destruct H as [H | H]; revert H; now apply plain_absent. }
    rewrite (@replace_absent RE_SINGLE_QUOTED sq _ _ Hsq) by (apply Hno; cbn; tauto).
    rewrite (@replace_absent RE_DOUBLE_QUOTED dq _ _ Hdq) by (apply Hno; cbn; tauto).
    reflexivity.
  - apply plain_absent; [cbn; tauto | exact Hpre].
  - apply plain_absent; [cbn; tauto | exact Hpost].
  - discriminate.
  - intros p i. cbn [app].
    rewrite line_comment_match by assumption.
    do 2 f_equal. cbn. lia.
Qed.

(** The normalizer leaves a text without quote, backtick and slash as it is. *)
Lemma stripCommentsAndStrings_plain (s : text) :
  Forall plain s -> stripCommentsAndStrings s = s.
Proof.
  intros Hs. destruct strip_patterns_start as (Ht & Hbc & Hlc & Hsq & Hdq).
  unfold stripCommentsAndStrings.
  rewrite (@replace_absent RE_TEMPLATE backtick _ _ Ht)
    by (apply plain_absent; [cbn; tauto | exact Hs]).
  rewrite (@replace_absent RE_BLOCK_COMMENT 47%N _ _ Hbc)
    by (apply plain_absent; [cbn; tauto | exact Hs]).
  rewrite (@replace_absent RE_LINE_COMMENT 47%N _ _ Hlc)
    by (apply plain_absent; [cbn; tauto | exact Hs]).
  rewrite (@replace_absent RE_SINGLE_QUOTED sq _ _ Hsq)
    by (apply plain_absent; [cbn; tauto | exact Hs]).
  now rewrite (@replace_absent RE_DOUBLE_QUOTED dq _ _ Hdq)
    by (apply plain_absent; [cbn; tauto | exact Hs]).
Qed.

Ltac plain_chars :=
  match goal with
  | |- Forall plain ?l => let l' := eval vm_compute in l in change (Forall plain l')
  end;
  repeat (apply Forall_cons;
          [unfold plain; repeat split;
           (let Hc := fresh in intro Hc; vm_compute in Hc; discriminate Hc) | ]);
  apply Forall_nil.

Ltac comment_chars :=
  match goal with
  | |- Forall comment_char ?l =>
      let l' := eval vm_compute in l in change (Forall comment_char l')
  end;
  repeat (apply Forall_cons;
          [unfold comment_char; split;
           (let Hc := fresh in intro Hc; vm_compute in Hc; discriminate Hc) | ]);
  apply Forall_nil.

(** C7, as stated, fails on each of its counts. Removing the blank between
    [case] and a string literal loses the case label; turning the line break
    that ends a comment into a blank puts the following [if (] into the
    comment; a string that holds two slashes starts a comment that swallows
    the rest of its line; a backtick in each of two comments makes a
    template literal of the code between them. *)
Lemma score_depends_on_space_and_content :
  (without_space t#"switch (x) { case 'a': f(); }"
   = without_space t#"switch (x) { case'a': f(); }"
   /\ score t#"switch (x) { case 'a': f(); }" = 2%Z
   /\ score t#"switch (x) { case'a': f(); }" = 1%Z)
  /\ (score (t#"f(); // note" ++ [10%N] ++ t#"if (a) {}") = 2%Z
      /\ score (t#"f(); // note" ++ [32%N] ++ t#"if (a) {}") = 1%Z)
  /\ (score t#"u = 'x'; if (a) {}" = 2%Z
      /\ score t#"u = 'http://x'; if (a) {}" = 1%Z)
  /\ (score t#"/* a */ if (x) {} /* b */" = 2%Z
      /\ score t#"/* ` */ if (x) {} /* ` */" = 1%Z).
Proof.
  split; [split; [|split]; vm_compute; reflexivity|].
  split; [split; vm_compute; reflexivity|].
  split; split; vm_compute; reflexivity.
Qed.

(** * Further properties of the analyzers *)

(** ** What a capture holds *)

Lemma skipn_cons_step (A : Type) (s : list A) (n : nat) (c : A) (tl : list A) :
  skipn n s = c :: tl -> skipn (S n) s = tl.
Proof.
  revert n. induction s as [|x s IH]; intros [|n] H; cbn in *; try discriminate.
  - now injection H.
  - now apply IH.
Qed.

Lemma position_kept (s : text) (r : regex) :
  forall st st', position_of s st -> In st' (matchl r st) -> position_of s st'.
Proof.
  induction r as [|cs|r1 IH1 r2 IH2|r1 IH1 r2 IH2|g r1 IH1|j r1 IH1| |];
    intros st st' Hpos Hin; cbn [matchl] in Hin.
  - destruct Hin as [<- | []]. exact Hpos.
  - destruct (rest st) as [|c tl] eqn:E; [destruct Hin|].
    destruct (mem cs c); [|destruct Hin]. destruct Hin as [<- | []].
    unfold position_of in *. cbn. symmetry. apply skipn_cons_step with (c := c).
    now rewrite <- Hpos.
  - apply in_flat_map in Hin. destruct Hin as (st1 & H1 & H2). eauto.
  - apply in_app_iff in Hin. destruct Hin; eauto.
  - apply (@star_loop_invariant (position_of s) g (matchl r1))
      with (fuel := S (length (rest st))) (st := st); eauto.
  - apply in_map_iff in Hin. destruct Hin as (st1 & <- & H1).
    unfold position_of, set_cap. cbn. now apply (IH1 st).
  - destruct (at_word_boundary st); [|destruct Hin]. destruct Hin as [<- | []]. exact Hpos.
  - destruct (at_line_end st); [|destruct Hin]. destruct Hin as [<- | []]. exact Hpos.
Qed.

(** What [[cs]+] consumes. *)
Lemma plus_class_consumes (cs : cset) (st st' : mstate) :
  In st' (matchl (Plus (Chr cs)) st) ->
  exists pre, pre <> [] /\ Forall (fun x => mem cs x = true) pre
              /\ rest st = pre ++ rest st'
              /\ idx st' = idx st + length pre
              /\ caps st' = caps st.
Proof.
  unfold Plus. cbn [matchl]. intros Hin.
  apply in_flat_map in Hin. destruct Hin as (st1 & H1 & H2).
  destruct (rest st) as [|c tl] eqn:E; [destruct H1|].
  destruct (mem cs c) eqn:Ec; [|destruct H1]. destruct H1 as [<- | []].
  set (P := fun st2 : mstate =>
              exists pre, pre <> [] /\ Forall (fun x => mem cs x = true) pre
                          /\ c :: tl = pre ++ rest st2
                          /\ idx st2 = idx st + length pre
                          /\ caps st2 = caps st).
  apply (@star_loop_invariant P true (matchl (Chr cs)))
    with (fuel := S (length (rest (advance st c tl)))) (st := advance st c tl);
    [| |exact H2].
  - intros st2 st3 (pre & Hne & Hall & Hrest & Hidx & Hcaps) H3. cbn [matchl] in H3.
    destruct (rest st2) as [|c2 tl2] eqn:E2; [destruct H3|].
    destruct (mem cs c2) eqn:Ec2; [|destruct H3]. destruct H3 as [<- | []].
    exists (pre ++ [c2]). repeat split.
    + now destruct pre.
    + apply Forall_app. split; [exact Hall | now constructor].
    + cbn. now rewrite <- app_assoc.
    + cbn. rewrite length_app. cbn. lia.
    + exact Hcaps.
  - exists [c]. repeat split; cbn; try congruence; try lia.
    now constructor.
Qed.

Lemma captures_span (cs : cset) (s : text) (r : regex) :
  forall st st',
    groups_over cs r -> position_of s st -> Forall (span_over cs s) (caps st) ->
    In st' (matchl r st) -> Forall (span_over cs s) (caps st').
Proof.
  induction r as [|c0|r1 IH1 r2 IH2|r1 IH1 r2 IH2|g r1 IH1|j r1 IH1| |];
    intros st st' Hg Hpos Hcaps Hin; cbn [matchl] in Hin; cbn [groups_over] in Hg.
  - destruct Hin as [<- | []]. exact Hcaps.
  - destruct (rest st) as [|c tl]; [destruct Hin|].
    destruct (mem c0 c); [|destruct Hin]. destruct Hin as [<- | []]. exact Hcaps.
  - apply in_flat_map in Hin. destruct Hin as (st1 & H1 & H2). destruct Hg as [Hg1 Hg2].
    apply (IH2 st1); [exact Hg2 | eapply position_kept; eauto | eauto | exact H2].
  - destruct Hg as [Hg1 Hg2]. apply in_app_iff in Hin. destruct Hin; eauto.
  - set (P := fun st2 : mstate => position_of s st2 /\ Forall (span_over cs s) (caps st2)).
    assert (HP : P st') ; [|exact (proj2 HP)].
    apply (@star_loop_invariant P g (matchl r1))
      with (fuel := S (length (rest st))) (st := st); [|split; assumption|exact Hin].
    intros st2 st3 [Hp2 Hc2] H3. split; [eapply position_kept; eauto | eauto].
  - subst r1. apply in_map_iff in Hin. destruct Hin as (st1 & <- & H1).
    apply plus_class_consumes in H1.
    destruct H1 as (pre & Hne & Hall & Hrest & Hidx & Hc1).
    cbn [set_cap caps]. constructor; [|now rewrite Hc1].
    assert (E : substring s (idx st) (idx st1) = pre).
    { unfold substring. rewrite <- Hpos, Hrest, Hidx.
      replace (idx st + length pre - idx st) with (length pre) by lia.
      apply firstn_app_length. }
    unfold span_over. cbn [fst snd]. rewrite E. split; assumption.
  - destruct (at_word_boundary st); [|destruct Hin]. destruct Hin as [<- | []]. exact Hcaps.
  - destruct (at_line_end st); [|destruct Hin]. destruct Hin as [<- | []]. exact Hcaps.
Qed.

(** A match of the global scan starts at a position of the text. *)
Lemma scan_In_position (r : regex) (m : jsmatch) (s : text) :
  forall p i skip,
    In m (scan r p s i skip) -> exists p' j, match_at r p' (skipn j s) (i + j) = Some m.
Proof.
  induction s as [|c s IH]; intros p i skip Hin.
  - destruct skip; cbn in Hin; [|destruct Hin].
    destruct (match_at r p [] i) as [m'|] eqn:E; [|destruct Hin].
    destruct Hin as [<- | []]. exists p, 0. now rewrite Nat.add_0_r.
  - assert (Hnext : forall q k, In m (scan r q s (S i) k) ->
               exists p' j, match_at r p' (skipn j (c :: s)) (i + j) = Some m).
    { intros q k H. apply IH in H. destruct H as (p' & j & H).
      exists p', (S j). cbn [skipn]. now rewrite Nat.add_succ_r. }
    destruct skip; cbn in Hin; [|now apply Hnext in Hin].
    destruct (match_at r p (c :: s) i) as [m'|] eqn:E; [|now apply Hnext in Hin].
    destruct Hin as [<- | Hin]; [|now apply Hnext in Hin].
    exists p, 0. now rewrite Nat.add_0_r.
Qed.

(** The text of group [i] of a match of a pattern whose groups are runs of
    [cs]. *)
Lemma group_over (cs : cset) (r : regex) (s x : text) (m : jsmatch) (i : nat) :
  groups_over cs r -> In m (matchAll r s) -> group s m i = Some x ->
  x <> [] /\ Forall (fun c => mem cs c = true) x.
Proof.
  intros Hg Hin Hx. apply scan_In_position in Hin. destruct Hin as (p' & j & Hm).
  unfold match_at in Hm.
  destruct (matchl r _) as [|st l] eqn:E; [discriminate|]. injection Hm as <-.
  assert (Hall : Forall (span_over cs s) (caps st)).
  { apply (@captures_span cs s r {| prev := p'; rest := skipn j s; idx := 0 + j; caps := [] |});
      [exact Hg | reflexivity | constructor | rewrite E; now left]. }
  unfold group in Hx. cbn [m_caps] in Hx.
  destruct (find (fun c => fst c =? i) (caps st)) as [[k [a b]]|] eqn:F; [|discriminate].
  injection Hx as <-. apply find_some in F. destruct F as [F _].
  exact (proj1 (Forall_forall _ _) Hall _ F).
Qed.

(** X1. Every name the function detector returns is a non-empty run of
    word characters (letters, digits, underscore). *)
Theorem extractFunctions_identifiers (stripped x : text) :
  In x (extractFunctions stripped) ->
  x <> [] /\ Forall (fun c => is_word c = true) x.
Proof.
  intros Hin. apply extractFunctions_In in Hin. destruct Hin as (r & m & Hr & Hm & Hg).
  apply (@group_over CWord r stripped x m 1); [|exact Hm|exact Hg].
  destruct Hr as [<- | [<- | [<- | []]]]; cbn; repeat split; reflexivity.
Qed.

Lemma extractFunctions_identifiers_witness :
  In t#"hello" (extractFunctions t#"function hello() {}")
  /\ t#"hello" <> [] /\ Forall (fun c => is_word c = true) t#"hello".
Proof.
  assert (H : In t#"hello" (extractFunctions t#"function hello() {}"))
    by (vm_compute; now left).
  split; [exact H|]. exact (extractFunctions_identifiers _ _ H).
Defined.

(** X2. Every dependency is a non-empty specifier without a quote
    character of either kind, and is none of the excluded modules. *)
Theorem extractDependencies_specifiers (content x : text) :
  In x (extractDependencies content) ->
  x <> [] /\ ~ In sq x /\ ~ In dq x /\ ~ In x EXCLUDED.
Proof.
  intros Hin. apply extractDependencies_In in Hin. destruct Hin as [(m & Hm & Hg) Hex].
  assert (Hgo : groups_over (CNot quote) IMPORT_REGEX) by (cbn; repeat split; reflexivity).
  destruct (@group_over _ _ _ _ _ _ Hgo Hm Hg) as [Hne Hall].
  repeat split; [exact Hne| | |exact Hex]; intros Hq;
    apply (proj1 (Forall_forall _ _) Hall) in Hq; vm_compute in Hq; discriminate.
Qed.

Lemma extractDependencies_specifiers_witness :
  In t#"./utils" (extractDependencies t#"import { foo } from './utils';")
  /\ t#"./utils" <> [] /\ ~ In sq t#"./utils" /\ ~ In dq t#"./utils"
  /\ ~ In t#"./utils" EXCLUDED.
Proof.
  assert (H : In t#"./utils" (extractDependencies t#"import { foo } from './utils';"))
    by (vm_compute; now left).
  split; [exact H|]. exact (extractDependencies_specifiers _ _ H).
Defined.

(** Two strictly increasing lists with the same elements are equal. *)
Lemma text_lt_asym (a b : text) : text_lt a b -> text_lt b a -> False.
Proof.
  unfold text_lt. intros H1 H2. pose proof (text_ltb_trans _ _ _ H1 H2) as H.
  now rewrite text_ltb_irrefl in H.
Qed.

Lemma sorted_same_elements (l1 : list text) :
  forall l2,
    StronglySorted text_lt l1 -> StronglySorted text_lt l2 ->
    (forall x, In x l1 <-> In x l2) -> l1 = l2.
Proof.
  induction l1 as [|a l1 IH]; intros [|b l2] H1 H2 Hin.
  - reflexivity.
  - exfalso. apply (proj2 (Hin b)). now left.
  - exfalso. apply (proj1 (Hin a)). now left.
  - inversion H1 as [|? ? S1 A1]; subst. inversion H2 as [|? ? S2 A2]; subst.
    assert (a = b) as <-.
    { destruct (proj1 (Hin a) (or_introl eq_refl)) as [E | Ha]; [now symmetry|].
      destruct (proj2 (Hin b) (or_introl eq_refl)) as [E | Hb]; [exact E|].
      exfalso. apply (@text_lt_asym a b).
      - exact (proj1 (Forall_forall _ _) A1 _ Hb).
      - exact (proj1 (Forall_forall _ _) A2 _ Ha). }
    f_equal. apply IH; [exact S1 | exact S2 |]. intros x. split; intros Hx.
    + destruct (proj1 (Hin x) (or_intror Hx)) as [<- | H]; [|exact H].
      exfalso. pose proof (proj1 (Forall_forall _ _) A1 _ Hx) as L.
      unfold text_lt in L. now rewrite text_ltb_irrefl in L.
    + destruct (proj2 (Hin x) (or_intror Hx)) as [<- | H]; [|exact H].
      exfalso. pose proof (proj1 (Forall_forall _ _) A2 _ Hx) as L.
      unfold text_lt in L. now rewrite text_ltb_irrefl in L.
Qed.

Lemma extractDependencies_In_specifiers (content x : text) :
  In x (extractDependencies content) <-> In x (specifiers content) /\ ~ In x EXCLUDED.
Proof.
  rewrite extractDependencies_In. unfold specifiers. rewrite in_map_iff.
  assert (Hb : binds 1 IMPORT_REGEX = true) by reflexivity.
  split; intros [(m & H1 & H2) Hex]; (split; [|exact Hex]); exists m.
  - split; [|exact H1]. pose proof (@capture_defined 1 _ _ _ Hb H1) as E. congruence.
  - split; [exact H2|]. rewrite (@capture_defined 1 _ _ _ Hb H2). now f_equal.
Qed.

(** X3. The dependency list depends only on the set of the captured
    specifiers: neither the order of the import statements nor their
    repetition matters. *)
Theorem extractDependencies_order_free (content1 content2 : text) :
  (forall x, In x (specifiers content1) <-> In x (specifiers content2)) ->
  extractDependencies content1 = extractDependencies content2.
Proof.
  intros Hsame. apply sorted_same_elements; try apply extractDependencies_sorted.
  intros x. rewrite !extractDependencies_In_specifiers, Hsame. tauto.
Qed.

Lemma extractDependencies_order_free_witness :
  extractDependencies t#"import a from 'x'; import b from 'y'; import c from 'x';"
  = extractDependencies t#"import b from 'y'; import a from 'x';".
Proof.
  apply extractDependencies_order_free.
  intros x. vm_compute. tauto.
Defined.

(** ** Lines of a file *)

Lemma split_lines_length (s : text) : length (split_lines s) = S (line_feeds s).
Proof.
  unfold line_feeds, occurrences. induction s as [|c s IH]; [reflexivity|].
  cbn [split_lines filter].
  destruct (N.eqb c 10); cbn [length]; [now rewrite IH|].
  destruct (split_lines s) as [|l ls]; [discriminate | exact IH].
Qed.

Lemma split_lines_Forall (P : char -> Prop) (s : text) :
  Forall P s -> Forall (Forall P) (split_lines s).
Proof.
  induction 1 as [|c s Hc Hs IH]; cbn [split_lines]; [repeat constructor|].
  destruct (N.eqb c 10); [now constructor|].
  destruct (split_lines s) as [|l ls]; [repeat constructor; assumption|].
  inversion IH; subst. constructor; [now constructor | assumption].
Qed.

Lemma filter_none (A : Type) (f : A -> bool) (l : list A) :
  (forall x, In x l -> f x = false) -> filter f l = [].
Proof.
  induction l as [|x l IH]; intros H; cbn; [reflexivity|].
  rewrite (H x (or_introl eq_refl)). apply IH. intros y Hy. apply H. now right.
Qed.

Lemma trimStart_blank (l : text) : Forall (fun c => is_space c = true) l -> trimStart l = [].
Proof. induction 1 as [|c l Hc _ IH]; cbn; [reflexivity | now rewrite Hc]. Qed.

Lemma trim_blank (l : text) : Forall (fun c => is_space c = true) l -> trim l = [].
Proof. intros H. unfold trim. now rewrite (trimStart_blank H). Qed.

Section AnalyzerLines.

Variable readFileSync : text -> option text.
Variable basename : text -> text.
Variable sha256_hex : text -> text.

(** X4. A readable file is always analyzed; its totalLines is one more
    than the number of line feeds of the content (so the empty file has one
    line), lines repeats it, and codeLines lies between 0 and totalLines. *)
Theorem analyzeFile_line_counts (path content : text) (opts : Options) :
  readFileSync path = Some content ->
  exists r, analyzeFile readFileSync basename sha256_hex path opts = Some r
            /\ totalLines r = Z.of_nat (1 + line_feeds content)
            /\ lines r = totalLines r
            /\ (0 <= codeLines r <= totalLines r)%Z.
Proof.
  intros Hread. unfold analyzeFile. rewrite Hread. eexists. split; [reflexivity|].
  cbn [totalLines lines codeLines]. rewrite split_lines_length.
  split; [reflexivity|]. split; [reflexivity|].
  pose proof (filter_length_le is_code_line (split_lines content)) as H.
  rewrite split_lines_length in H. cbn [Nat.add]. lia.
Qed.

(** X5. A file that holds nothing but white space has no code line. *)
Theorem analyzeFile_blank_file (path content : text) (opts : Options) :
  readFileSync path = Some content ->
  Forall (fun c => is_space c = true) content ->
  exists r, analyzeFile readFileSync basename sha256_hex path opts = Some r
            /\ codeLines r = 0%Z /\ (1 <= totalLines r)%Z.
Proof.
  intros Hread Hblank. unfold analyzeFile. rewrite Hread. eexists. split; [reflexivity|].
  cbn [totalLines codeLines]. rewrite split_lines_length. split; [|lia].
  rewrite filter_none; [reflexivity|]. intros l Hl.
  pose proof (proj1 (Forall_forall _ _) (split_lines_Forall Hblank) l Hl) as Hsp.
  unfold is_code_line. now rewrite (trim_blank Hsp).
Qed.

End AnalyzerLines.

Lemma analyzeFile_line_counts_witness :
  exists r, analyzeFile (fun _ => Some t#"a
b
") (fun p => p) (fun c => c) t#"/src/a.ts"
              {| opt_complexity := true; opt_functions := true |} = Some r
            /\ totalLines r = 3%Z
            /\ lines r = totalLines r
            /\ (0 <= codeLines r <= totalLines r)%Z.
Proof.
  apply (@analyzeFile_line_counts (fun _ => Some t#"a
b
") (fun p => p) (fun c => c) t#"/src/a.ts" t#"a
b
" {| opt_complexity := true; opt_functions := true |}).
  reflexivity.
Defined.

Lemma analyzeFile_blank_file_witness :
  exists r, analyzeFile (fun _ => Some t#"  
 ") (fun p => p) (fun c => c) t#"/src/a.ts"
              {| opt_complexity := true; opt_functions := true |} = Some r
            /\ codeLines r = 0%Z /\ (1 <= totalLines r)%Z.
Proof.
  apply (@analyzeFile_blank_file (fun _ => Some t#"  
 ") (fun p => p) (fun c => c) t#"/src/a.ts" t#"  
 " {| opt_complexity := true; opt_functions := true |}).
  - reflexivity.
  - repeat constructor.
Defined.

(** ** More on the duplicate groups *)

Lemma paths_with_unique (h : text) (results : list FileAnalysis) :
  NoDup (map contentHash results) -> length (paths_with h results) <= 1.
Proof.
  unfold paths_with. rewrite length_map.
  induction results as [|r results IH]; cbn; intros Hnd; [lia|].
  inversion Hnd as [|? ? Hnotin Hnd']; subst.
  destruct (text_eqb (contentHash r) h) eqn:E; [|now apply IH].
  apply text_eqb_eq in E. subst h. cbn.
  rewrite filter_none; [cbn; lia|]. intros r' Hr'.
  apply text_eqb_neq. intros Heq. apply Hnotin.
  rewrite <- Heq. now apply in_map.
Qed.

(** X6. Results with pairwise different content hashes give no group. *)
Theorem findDuplicates_distinct_hashes (results : list FileAnalysis) :
  NoDup (map contentHash results) -> findDuplicates results = [].
Proof.
  intros Hnd. destruct (findDuplicates results) as [|g l] eqn:E; [reflexivity|].
  assert (Hin : In g (findDuplicates results)) by (rewrite E; now left).
  apply findDuplicates_In in Hin. destruct Hin as [Hfiles Hlen].
  pose proof (@paths_with_unique (hash g) results Hnd) as H. rewrite <- Hfiles in H. lia.
Qed.

Lemma findDuplicates_distinct_hashes_witness :
  findDuplicates [sample_result "/a/foo.ts" "aaa" 1 0 0;
                  sample_result "/b/foo.ts" "bbb" 1 0 0] = [].
Proof.
  apply findDuplicates_distinct_hashes.
  cbn. repeat constructor; cbn; intros H; repeat destruct H as [H | H]; try discriminate H;
    try exact H.
Defined.

Lemma record_file_keys (hashMap : JsMap.t (list text)) (r : FileAnalysis) :
  map fst (record_file hashMap r) = JsSet.add (map fst hashMap) (contentHash r).
Proof.
  rewrite record_file_cases. unfold JsSet.add.
  destruct (JsMap.get hashMap (contentHash r)) as [ps|] eqn:E.
  - assert (Hin : In (contentHash r) (map fst hashMap)).
    { destruct (in_dec (list_eq_dec N.eq_dec) (contentHash r) (map fst hashMap)) as [H | H];
        [exact H|]. apply get_None_keys in H. congruence. }
    rewrite (proj2 (JsSet_has_In _ _) Hin). apply set_keys. congruence.
  - apply get_None_keys in E.
    destruct (JsSet.has (map fst hashMap) (contentHash r)) eqn:Eh.
    + apply JsSet_has_In in Eh. contradiction.
    + now rewrite map_app.
Qed.

Lemma fold_record_file_keys (results : list FileAnalysis) :
  forall hashMap,
    map fst (fold_left record_file results hashMap)
    = fold_left JsSet.add (map contentHash results) (map fst hashMap).
Proof.
  induction results as [|r results IH]; intros hashMap; cbn; [reflexivity|].
  now rewrite IH, record_file_keys.
Qed.

Lemma filter_keys (A : Type) (f : text -> A) (P : A -> bool) (m : list (text * A)) :
  (forall e, In e m -> snd e = f (fst e)) ->
  map fst (filter (fun e => P (snd e)) m) = filter (fun k => P (f k)) (map fst m).
Proof.
  induction m as [|e m IH]; intros H; cbn; [reflexivity|].
  rewrite <- (H e (or_introl eq_refl)).
  destruct (P (snd e)); cbn; rewrite IH; auto; intros e' He'; apply H; now right.
Qed.

(** X7. The groups come in the order in which their hashes are first
    seen in the results. *)
Theorem findDuplicates_first_seen_order (results : list FileAnalysis) :
  map hash (findDuplicates results)
  = filter (fun h => 1 <? length (paths_with h results))
           (first_seen (map contentHash results)).
Proof.
  rewrite findDuplicates_filter, map_map. cbn [hash].
  destruct (grouped_fold results grouped_nil) as [Hnd Hget]. cbn [app] in Hget.
  unfold first_seen.
  change (@nil text) with (map (@fst text (list text)) []).
  rewrite <- (fold_record_file_keys results []).
  set (hashMap := fold_left record_file results []) in *.
  change (fun x : text * list text => fst x) with (@fst text (list text)).
  apply (@filter_keys _ (fun h => paths_with h results) (fun fs => 1 <? length fs)).
  intros [h fs] Hin. cbn. apply (In_get hashMap h fs Hnd) in Hin.
  rewrite Hget in Hin. destruct (paths_with h results); [discriminate | congruence].
Qed.

(** X8. More results never dissolve a group: every group of a list of
    results is still a group when further results follow, with the same
    files first and the new paths of that hash after them. *)
Theorem findDuplicates_more_results (results more : list FileAnalysis)
    (g : DuplicateGroup) :
  In g (findDuplicates results) ->
  In {| hash := hash g; files := files g ++ paths_with (hash g) more |}
     (findDuplicates (results ++ more)).
Proof.
  intros Hin. apply findDuplicates_In in Hin. destruct Hin as [Hfiles Hlen].
  apply findDuplicates_In. cbn [hash files]. rewrite paths_with_app, <- Hfiles.
  split; [reflexivity|]. rewrite length_app. lia.
Qed.

Lemma findDuplicates_more_results_witness :
  In {| hash := t#"aaa"; files := [t#"/a/foo.ts"; t#"/b/foo.ts"; t#"/c/foo.ts"] |}
     (findDuplicates ([sample_result "/a/foo.ts" "aaa" 1 0 0;
                       sample_result "/b/foo.ts" "aaa" 1 0 0]
                      ++ [sample_result "/c/foo.ts" "aaa" 1 0 0;
                          sample_result "/c/bar.ts" "bbb" 1 0 0])).
Proof.
  apply (@findDuplicates_more_results
           [sample_result "/a/foo.ts" "aaa" 1 0 0; sample_result "/b/foo.ts" "aaa" 1 0 0]
           [sample_result "/c/foo.ts" "aaa" 1 0 0; sample_result "/c/bar.ts" "bbb" 1 0 0]
           {| hash := t#"aaa"; files := [t#"/a/foo.ts"; t#"/b/foo.ts"] |}).
  vm_compute. now left.
Defined.

(** ** The set of duplicated paths *)

Lemma getDuplicateFilePaths_fold (groups : list DuplicateGroup) :
  forall paths,
    let res := fold_left (fun paths group =>
                            fold_left (fun paths file => JsSet.add paths file)
                                      (files group) paths) groups paths in
    (NoDup paths -> NoDup res)
    /\ (forall p, In p res <-> In p paths \/ exists g, In g groups /\ In p (files g)).
Proof.
  induction groups as [|g groups IH]; intros paths; cbn.
  - split; [tauto|]. intros p. split; [tauto|]. intros [H | (g & [] & _)]. exact H.
  - destruct (fold_add_spec (fun file : text => file) (fun _ => true) (files g) paths)
      as [Hnd1 Hin1]. cbv zeta in Hnd1, Hin1.
    destruct (IH (fold_left (fun paths file => JsSet.add paths file) (files g) paths))
      as [Hnd Hin].
    split; [tauto|]. intros p. rewrite Hin, Hin1. split.
    + intros [[H | (f & Hf & _ & <-)] | (g' & Hg' & Hp)]; [tauto | |];
        right; [exists g | exists g']; tauto.
    + intros [H | (g' & [<- | Hg'] & Hp)]; [tauto | |].
      * left. right. exists p. tauto.
      * right. exists g'. tauto.
Qed.

Lemma getDuplicateFilePaths_In (groups : list DuplicateGroup) (p : text) :
  In p (getDuplicateFilePaths groups) <-> exists g, In g groups /\ In p (files g).
Proof.
  destruct (getDuplicateFilePaths_fold groups []) as [_ Hin]. cbv zeta in Hin.
  unfold getDuplicateFilePaths. rewrite Hin. cbn. tauto.
Qed.

(** X9. getDuplicateFilePaths returns the paths of all groups, each
    once. *)
Theorem getDuplicateFilePaths_union (groups : list DuplicateGroup) :
  NoDup (getDuplicateFilePaths groups)
  /\ (forall p, In p (getDuplicateFilePaths groups) <->
                exists g, In g groups /\ In p (files g)).
Proof.
  split; [|intros p; apply getDuplicateFilePaths_In].
  destruct (getDuplicateFilePaths_fold groups []) as [Hnd _]. apply Hnd. constructor.
Qed.

(** X10. A path is marked as duplicated exactly when it is the path of a
    result whose content hash is carried by at least two results. *)
Theorem duplicate_paths_of_results (results : list FileAnalysis) (p : text) :
  In p (getDuplicateFilePaths (findDuplicates results)) <->
  exists r, In r results /\ filePath r = p
            /\ 2 <= length (paths_with (contentHash r) results).
Proof.
  rewrite getDuplicateFilePaths_In. split.
  - intros (g & Hg & Hp). apply findDuplicates_In in Hg. destruct Hg as [Hfiles Hlen].
    rewrite Hfiles in Hp. unfold paths_with in Hp. apply in_map_iff in Hp.
    destruct Hp as (r & <- & Hr). apply filter_In in Hr. destruct Hr as [Hr Hh].
    apply text_eqb_eq in Hh. exists r. rewrite Hh, <- Hfiles. tauto.
  - intros (r & Hr & <- & Hlen).
    exists {| hash := contentHash r; files := paths_with (contentHash r) results |}.
    split; [apply findDuplicates_In; cbn; tauto|]. cbn [files].
    unfold paths_with. apply in_map. apply filter_In. split; [exact Hr|].
    apply text_eqb_refl.
Qed.

(** ** The analysis loop of main and what it feeds *)

Section MainFacts.

Variable readFileSync : text -> option text.
Variable basename : text -> text.
Variable sha256_hex : text -> text.

Lemma analysis_loop_spec (opts : Options) (total : nat) (files : list text) :
  forall i results log,
    analysis_loop readFileSync basename sha256_hex opts total files i results log
    = (results ++ analyzed readFileSync basename sha256_hex opts files,
       log ++ loop_log readFileSync total files i).
Proof.
  induction files as [|path files IH]; intros i results log; cbn [analysis_loop].
  - cbn. now rewrite !app_nil_r.
  - cbn [analyzed flat_map loop_log]. unfold readable, analyzeFile at 1 2.
    destruct (readFileSync path) as [content|]; rewrite IH; fold (analyzed readFileSync
      basename sha256_hex opts files); cbn [app]; now rewrite <- !app_assoc.
Qed.

Lemma analyzed_In (opts : Options) (files : list text) (r : FileAnalysis) :
  In r (analyzed readFileSync basename sha256_hex opts files) <->
  exists path, In path files
               /\ analyzeFile readFileSync basename sha256_hex path opts = Some r.
Proof.
  unfold analyzed. rewrite in_flat_map. split; intros (path & Hp & H); exists path;
    (split; [exact Hp|]).
  - destruct (analyzeFile _ _ _ path opts) as [r'|]; [|destruct H].
    destruct H as [<- | []]. reflexivity.
  - rewrite H. now left.
Qed.

Lemma analyzed_paths (opts : Options) (files : list text) :
  map filePath (analyzed readFileSync basename sha256_hex opts files)
  = filter (readable readFileSync) files.
Proof.
  induction files as [|path files IH]; [reflexivity|].
  cbn [analyzed flat_map filter]. rewrite map_app. fold (analyzed readFileSync
    basename sha256_hex opts files). rewrite IH.
  unfold readable, analyzeFile. destruct (readFileSync path); reflexivity.
Qed.

Lemma loop_log_progress (total : nat) (files : list text) :
  forall i,
    filter is_progress (loop_log readFileSync total files i)
    = map (fun k => LogProgress k total) (seq (S i) (length files)).
Proof.
  induction files as [|path files IH]; intros i; [reflexivity|].
  cbn [loop_log length seq map]. rewrite filter_app.
  replace (filter is_progress (if readable readFileSync path then [] else [LogSkipped path]))
    with (@nil log_event) by now destruct (readable readFileSync path).
  cbn. rewrite IH. replace (i + 1) with (S i) by lia. reflexivity.
Qed.



(** X12. Progress is reported once per file, counting from 1 to the
    number of files, whether or not the file could be analyzed. *)
Theorem analyze_all_progress (config : Config) (files : list text) :
  filter is_progress (snd (analyze_all readFileSync basename sha256_hex config files))
  = map (fun k => LogProgress k (length files)) (seq 1 (length files)).
Proof.
  unfold analyze_all. rewrite analysis_loop_spec. cbn [snd app]. apply loop_log_progress.
Qed.

Lemma two_elements (A : Type) (a b : A) (l : list A) :
  In a l -> In b l -> a <> b -> 2 <= length l.
Proof.
  destruct l as [|x [|y l]]; cbn; [tauto | | lia].
  intros [<- | []] [<- | []] H. congruence.
Qed.

Lemma analyzed_record (opts : Options) (files : list text) (path content : text) :
  In path files -> readFileSync path = Some content ->
  exists r, In r (analyzed readFileSync basename sha256_hex opts files)
            /\ filePath r = path /\ contentHash r = sha256_hex content.
Proof.
  intros Hin Hread.
  destruct (analyzeFile_readable readFileSync basename sha256_hex path opts Hread)
    as [r Hr].
  exists r. split; [apply analyzed_In; now exists path|].
  pose proof (@analyzeFile_fields readFileSync basename sha256_hex path content opts r
                Hread Hr) as H.
  tauto.
Qed.

(** X13. With duplicate detection on, two different files of the scan
    with the same content are reported in one group, under the hash of that
    content. *)
Theorem identical_files_grouped (config : Config) (scanned : list text)
    (p q content : text) :
  cfg_duplicates config = true ->
  In p scanned -> In q scanned -> p <> q ->
  readFileSync p = Some content -> readFileSync q = Some content ->
  exists g,
    In g (snd (fst (report_data readFileSync basename sha256_hex config scanned)))
    /\ hash g = sha256_hex content /\ In p (files g) /\ In q (files g).
Proof.
  intros Hdup Hp Hq Hne Hrp Hrq. unfold report_data. cbn [fst snd]. rewrite Hdup.
  unfold analyze_all. rewrite analysis_loop_spec. cbn [fst app].
  set (opts := {| opt_complexity := cfg_complexity config;
                  opt_functions := cfg_functions config |}).
  set (results := analyzed readFileSync basename sha256_hex opts scanned).
  destruct (analyzed_record opts scanned Hp Hrp) as (rp & Hrp_in & Hpath_p & Hhash_p).
  destruct (analyzed_record opts scanned Hq Hrq) as (rq & Hrq_in & Hpath_q & Hhash_q).
  fold results in Hrp_in, Hrq_in.
  assert (Mp : In p (paths_with (sha256_hex content) results)).
  { unfold paths_with. apply in_map_iff. exists rp. split; [exact Hpath_p|].
    apply filter_In. split; [exact Hrp_in | now apply text_eqb_eq]. }
  assert (Mq : In q (paths_with (sha256_hex content) results)).
  { unfold paths_with. apply in_map_iff. exists rq. split; [exact Hpath_q|].
    apply filter_In. split; [exact Hrq_in | now apply text_eqb_eq]. }
  exists {| hash := sha256_hex content; files := paths_with (sha256_hex content) results |}.
  split; [|cbn; tauto].
  apply findDuplicates_In. cbn. split; [reflexivity|].
  exact (@two_elements _ _ _ _ Mp Mq Hne).
Qed.

(** X14. If no two of the scanned files with different contents have the
    same digest, the files of a group all have the same content. *)
Theorem grouped_files_identical (config : Config) (scanned : list text)
    (g : DuplicateGroup) (p q : text) :
  (forall p1 p2 c1 c2,
      In p1 scanned -> In p2 scanned ->
      readFileSync p1 = Some c1 -> readFileSync p2 = Some c2 ->
      sha256_hex c1 = sha256_hex c2 -> c1 = c2) ->
  In g (snd (fst (report_data readFileSync basename sha256_hex config scanned))) ->
  In p (files g) -> In q (files g) ->
  exists content, readFileSync p = Some content /\ readFileSync q = Some content
                  /\ hash g = sha256_hex content.
Proof.
  intros Hinj Hg Hp Hq. unfold report_data in Hg. cbn [fst snd] in Hg.
  destruct (cfg_duplicates config); [|destruct Hg].
  unfold analyze_all in Hg. rewrite analysis_loop_spec in Hg. cbn [fst app] in Hg.
  set (opts := {| opt_complexity := cfg_complexity config;
                  opt_functions := cfg_functions config |}) in *.
  apply findDuplicates_In in Hg. destruct Hg as [Hfiles _]. rewrite Hfiles in Hp, Hq.
  assert (Hsrc : forall x, In x (paths_with (hash g)
                                   (analyzed readFileSync basename sha256_hex opts scanned)) ->
                           exists c, In x scanned /\ readFileSync x = Some c
                                     /\ hash g = sha256_hex c).
  { intros x Hx. unfold paths_with in Hx. apply in_map_iff in Hx.
    destruct Hx as (r & <- & Hr). apply filter_In in Hr. destruct Hr as [Hr Hh].
    apply text_eqb_eq in Hh. apply analyzed_In in Hr. destruct Hr as (path & Hin & Hr).
    destruct (readFileSync path) as [c|] eqn:Eread;
      [|now rewrite (analyzeFile_unreadable _ _ _ _ _ Eread) in Hr].
    pose proof (@analyzeFile_fields readFileSync basename sha256_hex path c opts r
                  Eread Hr) as (Hpath & Hhash & _).
    exists c. rewrite Hpath, <- Hh, Hhash. tauto. }
  destruct (Hsrc p Hp) as (cp & Ip & Rp & Ep).
  destruct (Hsrc q Hq) as (cq & Iq & Rq & Eq).
  assert (cp = cq) as <- by (apply (Hinj p q cp cq Ip Iq Rp Rq); congruence).
  exists cp. tauto.
Qed.

(** X15. The summary of a run counts the files that could be read, which
    are at most the scanned files; every file has at least one line, a
    requested complexity total is at least the number of files, and a
    requested function total is not negative. *)
Theorem report_summary_bounds (config : Config) (files : list text) (summary : Summary) :
  summary = snd (report_data readFileSync basename sha256_hex config files) ->
  sum_totalFiles summary = Z.of_nat (length (filter (readable readFileSync) files))
  /\ (sum_totalFiles summary <= Z.of_nat (length files))%Z
  /\ (sum_totalFiles summary <= sum_totalLines summary)%Z
  /\ (cfg_complexity config = true ->
      exists c, sum_totalComplexity summary = Some c /\ (sum_totalFiles summary <= c)%Z)
  /\ (cfg_functions config = true ->
      exists f, sum_totalFunctions summary = Some f /\ (0 <= f)%Z).
Proof.
  intros ->. unfold report_data. cbn [snd]. unfold analyze_all. rewrite analysis_loop_spec.
  cbn [fst app]. rewrite buildSummary_unfold.
  cbn [sum_totalFiles sum_totalLines sum_totalComplexity sum_totalFunctions].
  set (opts := {| opt_complexity := cfg_complexity config;
                  opt_functions := cfg_functions config |}).
  set (results := analyzed readFileSync basename sha256_hex opts files).
  assert (Hfields : forall r, In r results ->
            (1 <= lines r)%Z /\ (0 <= functionCount r)%Z
            /\ (cfg_complexity config = true -> 1 <= complexity r)%Z).
  { intros r Hr. apply analyzed_In in Hr. destruct Hr as (path & _ & Hr).
    destruct (readFileSync path) as [c|] eqn:Eread;
      [|now rewrite (analyzeFile_unreadable _ _ _ _ _ Eread) in Hr].
    pose proof (@analyzeFile_fields readFileSync basename sha256_hex path c opts r
                  Eread Hr) as (_ & _ & Hl & Ht & _ & _ & Hf & Hc).
    rewrite Hl, Ht, Hf, Hc, split_lines_length. cbn [opts opt_complexity].
    repeat split; try lia. intros ->. apply calculateComplexity_baseline. }
  assert (Hsum : forall f : FileAnalysis -> Z,
            (forall r, In r results -> (1 <= f r)%Z) ->
            (Z.of_nat (length results) <= Zsum (map f results))%Z).
  { intros f. clear. induction results as [|r l IH]; intros H; cbn [length map Zsum fold_right];
      [lia|]. fold (Zsum (map f l)).
    pose proof (H r (or_introl eq_refl)). specialize (IH (fun x Hx => H x (or_intror Hx))).
    lia. }
  assert (Hlen : length results = length (filter (readable readFileSync) files)).
  { unfold results. now rewrite <- (length_map filePath), analyzed_paths. }
  split; [now rewrite Hlen|].
  split.
  { rewrite Hlen. pose proof (filter_length_le (readable readFileSync) files). lia. }
  split; [apply Hsum; intros r Hr; apply (Hfields r Hr)|].
  split.
  - intros Hc. rewrite Hc. eexists. split; [reflexivity|].
    apply Hsum. intros r Hr. now apply (Hfields r Hr).
  - intros Hf. rewrite Hf. eexists. split; [reflexivity|].
    apply Zsum_nonneg. apply Forall_forall. intros z Hz. apply in_map_iff in Hz.
    destruct Hz as (r & <- & Hr). apply (Hfields r Hr).
Qed.

End MainFacts.

Lemma identical_files_grouped_witness :
  exists g,
    In g (snd (fst (report_data (fun p => if text_eqb p t#"/c.ts" then Some t#"y"
                                          else Some t#"x")
                                (fun p => p) (fun c => c)
                                {| cfg_duplicates := true; cfg_complexity := true;
                                   cfg_functions := true |}
                                [t#"/a.ts"; t#"/b.ts"; t#"/c.ts"])))
    /\ hash g = t#"x" /\ In t#"/a.ts" (files g) /\ In t#"/b.ts" (files g).
Proof.
  apply (@identical_files_grouped
           (fun p => if text_eqb p t#"/c.ts" then Some t#"y" else Some t#"x")
           (fun p => p) (fun c => c)
           {| cfg_duplicates := true; cfg_complexity := true; cfg_functions := true |}
           [t#"/a.ts"; t#"/b.ts"; t#"/c.ts"] t#"/a.ts" t#"/b.ts" t#"x").
  - reflexivity.
  - now left.
  - right. now left.
  - discriminate.
  - reflexivity.
  - reflexivity.
Defined.

Lemma grouped_files_identical_witness :
  exists content,
    (if text_eqb t#"/a.ts" t#"/c.ts" then Some t#"y1" else Some t#"x1") = Some content
    /\ (if text_eqb t#"/b.ts" t#"/c.ts" then Some t#"y1" else Some t#"x1") = Some content
    /\ t#"x" = firstn 1 content.
Proof.
  apply (@grouped_files_identical
           (fun p => if text_eqb p t#"/c.ts" then Some t#"y1" else Some t#"x1")
           (fun p => p) (fun c => firstn 1 c)
           {| cfg_duplicates := true; cfg_complexity := true; cfg_functions := true |}
           [t#"/a.ts"; t#"/b.ts"; t#"/c.ts"]
           {| hash := t#"x"; files := [t#"/a.ts"; t#"/b.ts"] |} t#"/a.ts" t#"/b.ts").
  - intros p1 p2 c1 c2 H1 H2 R1 R2 Hd.
    destruct H1 as [<- | [<- | [<- | []]]]; destruct H2 as [<- | [<- | [<- | []]]];
      vm_compute in R1, R2; injection R1 as <-; injection R2 as <-;
      first [reflexivity | vm_compute in Hd; discriminate Hd].
  - vm_compute. now left.
  - now left.
  - right. now left.
Defined.

Lemma report_summary_bounds_witness :
  sum_totalFiles (snd (report_data (fun _ => Some t#"x") (fun p => p) (fun c => c)
                         {| cfg_duplicates := true; cfg_complexity := true;
                            cfg_functions := true |} [t#"/a.ts"]))
  = Z.of_nat (length (filter (readable (fun _ => Some t#"x")) [t#"/a.ts"]))
  /\ (sum_totalFiles (snd (report_data (fun _ => Some t#"x") (fun p => p) (fun c => c)
                             {| cfg_duplicates := true; cfg_complexity := true;
                                cfg_functions := true |} [t#"/a.ts"]))
      <= sum_totalLines (snd (report_data (fun _ => Some t#"x") (fun p => p) (fun c => c)
                                {| cfg_duplicates := true; cfg_complexity := true;
                                   cfg_functions := true |} [t#"/a.ts"])))%Z.
Proof.
  destruct (@report_summary_bounds (fun _ => Some t#"x") (fun p => p) (fun c => c)
              {| cfg_duplicates := true; cfg_complexity := true; cfg_functions := true |}
              [t#"/a.ts"] _ eq_refl) as (H1 & _ & H3 & _).
  split; [exact H1 | exact H3].
Defined.

(** ** The summary *)

Lemma Zsum_Permutation (l1 l2 : list Z) : Permutation l1 l2 -> Zsum l1 = Zsum l2.
Proof.
  unfold Zsum. induction 1; cbn; lia.
Qed.

(** X16. The summary does not depend on the order of the results. *)
Theorem buildSummary_order_free (results1 results2 : list FileAnalysis)
    (config : Config) :
  Permutation results1 results2 ->
  buildSummary results1 config = buildSummary results2 config.
Proof.
  intros Hperm. rewrite !buildSummary_unfold.
  rewrite (Permutation_length Hperm).
  rewrite (Zsum_Permutation (Permutation_map lines Hperm)).
  rewrite (Zsum_Permutation (Permutation_map functionCount Hperm)).
  rewrite (Zsum_Permutation (Permutation_map complexity Hperm)).
  reflexivity.
Qed.

Lemma buildSummary_order_free_witness :
  buildSummary [sample_result "/a.ts" "aaa" 10 2 5; sample_result "/b.ts" "bbb" 20 3 7]
               {| cfg_duplicates := true; cfg_complexity := true; cfg_functions := true |}
  = buildSummary [sample_result "/b.ts" "bbb" 20 3 7; sample_result "/a.ts" "aaa" 10 2 5]
                 {| cfg_duplicates := true; cfg_complexity := true; cfg_functions := true |}.
Proof.
  apply buildSummary_order_free. apply perm_swap.
Defined.

(** X17. The complexity level never goes down when the total goes up. *)
Theorem complexity_level_monotone (a b : Z) :
  (a <= b)%Z -> level_rank (complexity_level a) <= level_rank (complexity_level b).
Proof.
  intros Hab. unfold complexity_level.
  destruct (Z.leb_spec a 500); destruct (Z.leb_spec b 500);
    destruct (Z.leb_spec a 1500); destruct (Z.leb_spec b 1500);
    destruct (Z.leb_spec a 3000); destruct (Z.leb_spec b 3000);
    cbn; lia.
Qed.

Lemma complexity_level_monotone_witness :
  level_rank (complexity_level 500) <= level_rank (complexity_level 501).
Proof.
  apply complexity_level_monotone. lia.
Defined.

(** ** The command line *)









Section CliFacts.

Variable value : Type.
Variable truthy : value -> bool.
Variable minimist : list text -> MinimistArgs value.

Lemma parseArgs_Parsed (argv : list text) (c : CliConfig value) :
  parseArgs truthy minimist argv = Parsed c ->
  exists extra,
    extraIgnore (arg_ignore (minimist argv)) = Some extra
    /\ ignorePatterns c = DEFAULT_IGNORE ++ extra.
Proof.
  unfold parseArgs. destruct (arg_help (minimist argv)); [discriminate|].
  destruct (hd_error (arg_positional (minimist argv))) as [dir|]; [|discriminate].
  destruct (negb (truthy dir)); [discriminate|].
  destruct (extraIgnore (arg_ignore (minimist argv))) as [extra|]; [|discriminate].
  intros H. exists extra. split; [reflexivity|]. injection H as <-. reflexivity.
Qed.

(** X18. A returned configuration always has at least one analysis on:
    with --all, or with none of the three flags, all three are on; otherwise
    the flags are as given. *)
Theorem parseArgs_flags (argv : list text) (c : CliConfig value) :
  parseArgs truthy minimist argv = Parsed c ->
  (duplicates c || complexity_enabled c || functions_enabled c)%bool = true
  /\ ((arg_all (minimist argv)
       || negb (arg_duplicates (minimist argv) || arg_complexity (minimist argv)
                || arg_functions (minimist argv)))%bool = true ->
      duplicates c = true /\ complexity_enabled c = true /\ functions_enabled c = true)
  /\ ((arg_all (minimist argv)
       || negb (arg_duplicates (minimist argv) || arg_complexity (minimist argv)
                || arg_functions (minimist argv)))%bool = false ->
      duplicates c = arg_duplicates (minimist argv)
      /\ complexity_enabled c = arg_complexity (minimist argv)
      /\ functions_enabled c = arg_functions (minimist argv)).
Proof.
  unfold parseArgs. destruct (arg_help (minimist argv)); [discriminate|].
  destruct (hd_error (arg_positional (minimist argv))) as [dir|]; [|discriminate].
  destruct (negb (truthy dir)); [discriminate|].
  destruct (extraIgnore (arg_ignore (minimist argv))) as [extra|]; [|discriminate].
  intros [= <-].
  cbn [duplicates complexity_enabled functions_enabled].
  destruct (arg_all (minimist argv)), (arg_duplicates (minimist argv)),
    (arg_complexity (minimist argv)), (arg_functions (minimist argv)); cbn;
    repeat split; try reflexivity; try discriminate.
Qed.

(** X19. --help ends the process with code 0 whatever else is given;
    without it, a missing or falsy first positional argument ends it with
    code 1; otherwise a repeated --ignore, which minimist turns into an
    array, makes parseArgs throw, and in every other case the configuration
    is returned and carries that argument as the project directory, the
    output path and the verbosity. *)
Theorem parseArgs_exit (argv : list text) :
  (arg_help (minimist argv) = true -> parseArgs truthy minimist argv = ProcessExit value 0)
  /\ (arg_help (minimist argv) = false ->
      match hd_error (arg_positional (minimist argv)) with
      | Some dir =>
          if truthy dir
          then match arg_ignore (minimist argv) with
               | OptArray _ => parseArgs truthy minimist argv = Thrown value
               | _ => exists c, parseArgs truthy minimist argv = Parsed c
                                /\ projectDir c = dir
                                /\ outputPath c = arg_path (minimist argv)
                                /\ verbose c = arg_verbose (minimist argv)
               end
          else parseArgs truthy minimist argv = ProcessExit value 1
      | None => parseArgs truthy minimist argv = ProcessExit value 1
      end).
Proof.
  unfold parseArgs. split; intros ->; [reflexivity|].
  destruct (hd_error (arg_positional (minimist argv))) as [dir|]; [|reflexivity].
  destruct (truthy dir); [|reflexivity]. cbn [negb].
  destruct (arg_ignore (minimist argv)) as [|[|x tl]|l]; cbn [extraIgnore];
    try reflexivity; (eexists; split; [reflexivity|]; cbn; tauto).
Qed.


End CliFacts.

Lemma parseArgs_flags_witness :
  (true || false || false)%bool = true
  /\ ((false || negb (true || false || false))%bool = true ->
      true = true /\ false = true /\ false = true)
  /\ ((false || negb (true || false || false))%bool = false ->
      true = true /\ false = false /\ false = false).
Proof.
  apply (@parseArgs_flags text (fun v => negb (Nat.eqb (length v) 0))
           (fun _ => {| arg_duplicates := true; arg_complexity := false;
                        arg_functions := false; arg_all := false; arg_help := false;
                        arg_verbose := false; arg_path := OptString t#"analysis_report.html";
                        arg_ignore := OptUndefined; arg_positional := [t#"./my-app"] |})
           [t#"./my-app"; t#"-d"]
           {| projectDir := t#"./my-app"; outputPath := OptString t#"analysis_report.html";
              duplicates := true; complexity_enabled := false; functions_enabled := false;
              verbose := false; ignorePatterns := DEFAULT_IGNORE ++ [] |}).
  reflexivity.
Defined.

Lemma parseArgs_exit_witness :
  parseArgs (fun v : text => negb (Nat.eqb (length v) 0))
            (fun _ => {| arg_duplicates := false; arg_complexity := false;
                         arg_functions := false; arg_all := false; arg_help := false;
                         arg_verbose := false;
                         arg_path := OptString t#"analysis_report.html";
                         arg_ignore := OptArray [t#"a"; t#"b"];
                         arg_positional := [t#"x"] |})
            [t#"x"; t#"--ignore"; t#"a"; t#"--ignore"; t#"b"] = Thrown text.
Proof.
  apply (proj2 (@parseArgs_exit text (fun v => negb (Nat.eqb (length v) 0))
           (fun _ => {| arg_duplicates := false; arg_complexity := false;
                        arg_functions := false; arg_all := false; arg_help := false;
                        arg_verbose := false;
                        arg_path := OptString t#"analysis_report.html";
                        arg_ignore := OptArray [t#"a"; t#"b"];
                        arg_positional := [t#"x"] |})
           [t#"x"; t#"--ignore"; t#"a"; t#"--ignore"; t#"b"])).
  reflexivity.
Defined.


(** ** The scan *)

Lemma ts_suffix_at (p : option char) (s : text) (i : nat) :
  existsb (fun st => match rest st with [] => true | _ :: _ => false end)
          (matchl RE_TS_SUFFIX {| prev := p; rest := s; idx := i; caps := [] |}) = true
  <-> s = t#".ts" \/ s = t#".tsx".
Proof.
  destruct s as [|c1 s]; [cbn; intuition discriminate|].
  destruct (N.eqb_spec c1 46) as [-> | H1].
  2:{ cbn. destruct (N.eqb_spec c1 46); [contradiction|]. cbn.
      split; [discriminate | intros [E | E]; injection E; intros; congruence]. }
  destruct s as [|c2 s]; [cbn; intuition discriminate|].
  destruct (N.eqb_spec c2 116) as [-> | H2].
  2:{ cbn. destruct (N.eqb_spec c2 116); [contradiction|]. cbn.
      split; [discriminate | intros [E | E]; injection E; intros; congruence]. }
  destruct s as [|c3 s]; [cbn; intuition discriminate|].
  destruct (N.eqb_spec c3 115) as [-> | H3].
  2:{ cbn. destruct (N.eqb_spec c3 115); [contradiction|]. cbn.
      split; [discriminate | intros [E | E]; injection E; intros; congruence]. }
  destruct s as [|c4 s]; [cbn; intuition|].
  destruct (N.eqb_spec c4 120) as [-> | H4].
  2:{ cbn. destruct (N.eqb_spec c4 120); [contradiction|]. cbn.
      split; [discriminate | intros [E | E]; injection E; intros; congruence]. }
  destruct s as [|c5 s]; [cbn; intuition|].
  cbn. split; [discriminate | intros [E | E]; discriminate E].
Qed.

Lemma ends_with_cons (c : char) (s suffix : text) :
  ends_with (c :: s) suffix <-> c :: s = suffix \/ ends_with s suffix.
Proof.
  unfold ends_with. split.
  - intros ([|x pre] & E); [now left|]. right. exists pre. now injection E.
  - intros [E | (pre & E)]; [now exists [] | exists (c :: pre); cbn; now f_equal].
Qed.

Lemma test_to_end_ts (s : text) :
  forall p i,
    test_to_end RE_TS_SUFFIX p s i = true <-> ends_with s t#".ts" \/ ends_with s t#".tsx".
Proof.
  induction s as [|c s IH]; intros p i; cbn [test_to_end];
    rewrite orb_true_iff, ts_suffix_at.
  - split; [intros [[E | E] | E]; discriminate E|].
    intros [([|x pre] & E) | ([|x pre] & E)]; discriminate E.
  - rewrite IH, !ends_with_cons. tauto.
Qed.

(** X21. The scanner takes a file for a TypeScript file exactly when its
    name ends in [.ts] or [.tsx]. *)
Theorem is_ts_name_suffix (name : text) :
  is_ts_name name = true <-> ends_with name t#".ts" \/ ends_with name t#".tsx".
Proof. apply test_to_end_ts. Qed.

Lemma fsnode_rect_entries (P : fsnode -> Prop) :
  P FsFile -> P FsOther -> P (FsDir None) ->
  (forall entries, Forall (fun e => P (snd e)) entries -> P (FsDir (Some entries))) ->
  forall node, P node.
Proof.
  intros Hfile Hother Hnone Hdir. fix IH 1. intros [|[entries|]|]; try assumption.
  apply Hdir. induction entries as [|[name entry] entries IHe]; constructor;
    [apply IH | exact IHe].
Qed.

Lemma text_le_trans (a b c : text) : text_le a b -> text_le b c -> text_le a c.
Proof.
  unfold text_le. intros Hab Hbc.
  destruct (text_ltb c a) eqn:Hca; [|reflexivity]. exfalso.
  destruct (list_eq_dec N.eq_dec a b) as [-> | Hne]; [congruence|].
  pose proof (@text_ltb_total b a Hab (fun E => Hne (eq_sym E))) as Hlt.
  pose proof (@text_ltb_trans c a b Hca Hlt). congruence.
Qed.

Lemma sort_insert_le (x : text) (l : list text) :
  StronglySorted text_le l -> StronglySorted text_le (sort_insert x l).
Proof.
  intros Hs. induction Hs as [|z l Hs IH Hall]; cbn.
  - repeat constructor.
  - destruct (text_ltb z x) eqn:E.
    + constructor; [exact IH|].
      apply Forall_forall. intros y Hy. apply sort_insert_In in Hy.
      destruct Hy as [-> | Hy]; [|exact (proj1 (Forall_forall _ _) Hall y Hy)].
      unfold text_le. destruct (text_ltb x z) eqn:F; [|reflexivity].
      pose proof (@text_ltb_trans x z x F E) as H. now rewrite text_ltb_irrefl in H.
    + constructor; [now constructor|]. constructor; [exact E|].
      eapply Forall_impl; [|exact Hall]. intros y Hy.
      apply (@text_le_trans x z y); [exact E | exact Hy].
Qed.

Lemma Array_sort_le (l : list text) : StronglySorted text_le (Array_sort l).
Proof.
  induction l as [|x l IH]; cbn; [constructor | now apply sort_insert_le].
Qed.

Section ScannerFacts.

Variable join : text -> text -> text.
Variable relative : text -> text -> text.
Variable resolve : text -> text.
Variable minimatch : text -> text -> bool.

Lemma walk_dir (ignore : list text) (absoluteRoot dir : text)
    (entries : list (text * fsnode)) :
  forall results,
    walk join relative minimatch ignore absoluteRoot dir (FsDir (Some entries)) results
    = walk_entries join relative minimatch ignore absoluteRoot dir entries results.
Proof.
  cbn [walk]. induction entries as [|[name entry] entries IH]; intros results;
    cbn [walk_entries]; [reflexivity|].
  destruct (existsb _ ignore); [apply IH|].
  destruct entry; [destruct (is_ts_name name)| |]; apply IH.
Qed.

(** walk only adds to the results it is given. *)
Lemma walk_app (ignore : list text) (absoluteRoot : text) (node : fsnode) :
  forall dir results,
    walk join relative minimatch ignore absoluteRoot dir node results
    = results ++ walk join relative minimatch ignore absoluteRoot dir node [].
Proof.
  induction node as [| | |entries IH] using fsnode_rect_entries; intros dir results;
    try (cbn; now rewrite app_nil_r).
  rewrite !walk_dir. revert results.
  assert (H : forall acc results,
             walk_entries join relative minimatch ignore absoluteRoot dir entries
                          (results ++ acc)
             = results ++ walk_entries join relative minimatch ignore absoluteRoot dir
                                       entries acc).
  { induction IH as [|[name entry] entries Hentry _ IHe]; intros acc results;
      cbn [walk_entries]; [reflexivity|].
    destruct (existsb _ ignore); [apply IHe|].
    destruct entry as [|listing|].
    - destruct (is_ts_name name); [|apply IHe]. rewrite <- app_assoc. apply IHe.
    - cbn [snd] in Hentry. rewrite (Hentry _ (results ++ acc)), (Hentry _ acc).
      rewrite <- app_assoc. apply IHe.
    - apply IHe. }
  intros results. rewrite <- (H [] results). now rewrite app_nil_r.
Qed.

Lemma walk_entries_cons (ignore : list text) (absoluteRoot dir name : text)
    (entry : fsnode) (more : list (text * fsnode)) :
  walk_entries join relative minimatch ignore absoluteRoot dir ((name, entry) :: more) []
  = (if existsb (fun pattern => minimatch (relative absoluteRoot (join dir name)) pattern)
                ignore
     then []
     else match entry with
          | FsDir _ =>
              walk join relative minimatch ignore absoluteRoot (join dir name) entry []
          | FsFile => if is_ts_name name then [join dir name] else []
          | FsOther => []
          end)
    ++ walk_entries join relative minimatch ignore absoluteRoot dir more [].
Proof.
  cbn [walk_entries]. destruct (existsb _ ignore); [reflexivity|].
  destruct entry as [|listing|]; [destruct (is_ts_name name)| |]; try reflexivity.
  - rewrite <- walk_dir. rewrite (walk_app _ _ (FsDir (Some more)) dir ([] ++ [join dir name])).
    now rewrite walk_dir.
  - rewrite <- walk_dir, walk_app, walk_dir. reflexivity.
Qed.

(** Every path walk finds is a TypeScript file name joined to a directory,
    and no ignore pattern matches its relative path. *)
Lemma walk_found (ignore : list text) (absoluteRoot : text) (node : fsnode) :
  forall dir p,
    In p (walk join relative minimatch ignore absoluteRoot dir node []) ->
    exists d name,
      p = join d name /\ is_ts_name name = true
      /\ forall pattern, In pattern ignore ->
                         minimatch (relative absoluteRoot p) pattern = false.
Proof.
  induction node as [| | |entries IH] using fsnode_rect_entries; intros dir p Hin;
    try (cbn in Hin; contradiction).
  rewrite walk_dir in Hin.
  induction IH as [|[name entry] entries Hentry _ IHe]; [destruct Hin|].
  rewrite walk_entries_cons in Hin. apply in_app_iff in Hin.
  destruct Hin as [Hin | Hin]; [|now apply IHe].
  destruct (existsb _ ignore) eqn:Eig; [destruct Hin|].
  destruct entry as [|listing|]; [| now apply (Hentry (join dir name)) | destruct Hin].
  destruct (is_ts_name name) eqn:Ets; [|destruct Hin]. destruct Hin as [<- | []].
  exists dir, name. split; [reflexivity|]. split; [exact Ets|].
  intros pattern Hp. destruct (minimatch _ pattern) eqn:Em; [|reflexivity].
  assert (existsb (fun pattern => minimatch (relative absoluteRoot (join dir name)) pattern)
                  ignore = true) by (apply existsb_exists; eauto).
  congruence.
Qed.

(** More ignore patterns never add a file. *)
Lemma walk_more_ignored (ignore more : list text) (absoluteRoot : text) (node : fsnode) :
  forall dir p,
    In p (walk join relative minimatch (ignore ++ more) absoluteRoot dir node []) ->
    In p (walk join relative minimatch ignore absoluteRoot dir node []).
Proof.
  induction node as [| | |entries IH] using fsnode_rect_entries; intros dir p Hin;
    try (cbn in Hin; contradiction).
  rewrite walk_dir in *.
  induction IH as [|[name entry] entries Hentry _ IHe]; [destruct Hin|].
  rewrite walk_entries_cons in *. apply in_app_iff in Hin. apply in_app_iff.
  destruct Hin as [Hin | Hin]; [left | right; now apply IHe].
  rewrite existsb_app in Hin.
  destruct (existsb _ ignore); [destruct Hin|]. cbn [orb] in Hin.
  destruct (existsb _ more); [destruct Hin|].
  destruct entry as [|listing|]; [exact Hin | now apply Hentry | exact Hin].
Qed.

(** X22. The scan returns only TypeScript file names joined to a
    directory whose path relative to the root no ignore pattern matches,
    and it returns them in the order of code units. *)
Theorem scanTypeScriptFiles_sound (root : fsnode) (rootDir : text) (ignore : list text) :
  StronglySorted text_le
    (scanTypeScriptFiles join relative resolve minimatch root rootDir ignore)
  /\ forall p,
       In p (scanTypeScriptFiles join relative resolve minimatch root rootDir ignore) ->
       exists d name,
         p = join d name /\ is_ts_name name = true
         /\ forall pattern, In pattern ignore ->
                            minimatch (relative (resolve rootDir) p) pattern = false.
Proof.
  unfold scanTypeScriptFiles. split; [apply Array_sort_le|].
  intros p Hp. apply (proj1 (Array_sort_In _ _)) in Hp. exact (walk_found _ _ _ _ _ Hp).
Qed.

(** X23. Further ignore patterns never add a file to the scan. *)
Theorem scanTypeScriptFiles_more_ignored (root : fsnode) (rootDir : text)
    (ignore more : list text) (p : text) :
  In p (scanTypeScriptFiles join relative resolve minimatch root rootDir (ignore ++ more)) ->
  In p (scanTypeScriptFiles join relative resolve minimatch root rootDir ignore).
Proof.
  unfold scanTypeScriptFiles. rewrite !Array_sort_In. apply walk_more_ignored.
Qed.

(** X24. A root that is not a directory that can be read gives no file,
    even when it is itself a TypeScript file. *)
Theorem scanTypeScriptFiles_no_directory (root : fsnode) (rootDir : text)
    (ignore : list text) :
  (forall entries, root <> FsDir (Some entries)) ->
  scanTypeScriptFiles join relative resolve minimatch root rootDir ignore = [].
Proof.
  intros Hroot. unfold scanTypeScriptFiles.
  destruct root as [|[entries|]|]; try reflexivity. now elim (Hroot entries).
Qed.

(** X25. A TypeScript file directly in the root that no pattern ignores
    is returned; an unreadable directory beside it does not hide it. *)
Theorem scanTypeScriptFiles_top_level (entries : list (text * fsnode))
    (rootDir name : text) (ignore : list text) :
  In (name, FsFile) entries ->
  is_ts_name name = true ->
  (forall pattern, In pattern ignore ->
                   minimatch (relative (resolve rootDir) (join (resolve rootDir) name))
                             pattern = false) ->
  In (join (resolve rootDir) name)
     (scanTypeScriptFiles join relative resolve minimatch (FsDir (Some entries))
                          rootDir ignore).
Proof.
  intros Hin Hts Hig. unfold scanTypeScriptFiles. apply (proj2 (Array_sort_In _ _)).
  rewrite walk_dir.
  induction entries as [|[n e] entries IH]; [destruct Hin|].
  rewrite walk_entries_cons. apply in_app_iff.
  destruct Hin as [[= -> ->] | Hin]; [left | right; now apply IH].
  replace (existsb _ ignore) with false; [rewrite Hts; now left|].
  symmetry. apply not_true_is_false. intros H. apply existsb_exists in H.
  destruct H as (pattern & Hp & Hm). rewrite (Hig pattern Hp) in Hm. discriminate.
Qed.

End ScannerFacts.

Lemma scanTypeScriptFiles_sound_witness :
  exists d name,
    t#"/p/lib/b.tsx" = sample_join d name /\ is_ts_name name = true
    /\ forall pattern, In pattern [t#"a.ts"] ->
                       sample_minimatch (sample_relative t#"/p" t#"/p/lib/b.tsx") pattern
                       = false.
Proof.
  apply (proj2 (@scanTypeScriptFiles_sound sample_join sample_relative (fun d => d)
                  sample_minimatch sample_tree t#"/p" [t#"a.ts"])).
  vm_compute. now left.
Defined.

Lemma scanTypeScriptFiles_more_ignored_witness :
  In t#"/p/lib/b.tsx"
     (scanTypeScriptFiles sample_join sample_relative (fun d => d) sample_minimatch
                          sample_tree t#"/p" [t#"lib/c.js"]).
Proof.
  apply (@scanTypeScriptFiles_more_ignored sample_join sample_relative (fun d => d)
           sample_minimatch sample_tree t#"/p" [t#"lib/c.js"] [t#"a.ts"]).
  vm_compute. now left.
Defined.

Lemma scanTypeScriptFiles_no_directory_witness :
  scanTypeScriptFiles sample_join sample_relative (fun d => d) sample_minimatch
                      FsFile t#"/p/a.ts" DEFAULT_IGNORE = [].
Proof.
  apply scanTypeScriptFiles_no_directory. intros entries. discriminate.
Defined.

Lemma scanTypeScriptFiles_top_level_witness :
  In (sample_join t#"/p" t#"a.ts")
     (scanTypeScriptFiles sample_join sample_relative (fun d => d) sample_minimatch
                          (FsDir (Some [(t#"locked", FsDir None); (t#"a.ts", FsFile)]))
                          t#"/p" [t#"b.ts"]).
Proof.
  apply (@scanTypeScriptFiles_top_level sample_join sample_relative (fun d => d)
           sample_minimatch [(t#"locked", FsDir None); (t#"a.ts", FsFile)]
           t#"/p" t#"a.ts" [t#"b.ts"]).
  - right. now left.
  - vm_compute. reflexivity.
  - intros pattern [<- | []]. vm_compute. reflexivity.
Defined.

(** ** From the command line to the scan *)

Section CliScan.

Variable value : Type.
Variable truthy : value -> bool.
Variable minimist : list text -> MinimistArgs value.
Variable join : text -> text -> text.
Variable relative : text -> text -> text.
Variable resolve : text -> text.
Variable minimatch : text -> text -> bool.

Lemma parseArgs_default_ignore (argv : list text) (c : CliConfig value) (pattern : text) :
  parseArgs truthy minimist argv = Parsed c ->
  In pattern DEFAULT_IGNORE -> In pattern (ignorePatterns c).
Proof.
  intros H Hin. destruct (@parseArgs_Parsed _ truthy minimist argv c H) as (extra & _ & E).
  rewrite E. apply in_or_app. now left.
Qed.

(** X30. Whatever the command line, a scan with the ignore patterns of
    the parsed configuration returns no file whose relative path one of the
    default patterns matches. *)
Theorem default_ignore_always_applies (argv : list text) (c : CliConfig value)
    (root : fsnode) (rootDir p pattern : text) :
  parseArgs truthy minimist argv = Parsed c ->
  In p (scanTypeScriptFiles join relative resolve minimatch root rootDir
                            (ignorePatterns c)) ->
  In pattern DEFAULT_IGNORE ->
  minimatch (relative (resolve rootDir) p) pattern = false.
Proof.
  intros Hparse Hp Hpat. unfold scanTypeScriptFiles in Hp.
  apply (proj1 (Array_sort_In _ _)) in Hp.
  destruct (@walk_found _ _ _ _ _ _ _ _ Hp) as (d & name & _ & _ & Hig).
  apply Hig. exact (@parseArgs_default_ignore argv c pattern Hparse Hpat).
Qed.

End CliScan.

Lemma default_ignore_always_applies_witness :
  sample_minimatch (sample_relative t#"/p" t#"/p/a.ts") t#"**/dist/**" = false.
Proof.
  apply (@default_ignore_always_applies text (fun v => negb (Nat.eqb (length v) 0))
           (fun _ => {| arg_duplicates := false; arg_complexity := false;
                        arg_functions := false; arg_all := true; arg_help := false;
                        arg_verbose := false; arg_path := OptString t#"analysis_report.html";
                        arg_ignore := OptUndefined; arg_positional := [t#"/p"] |})
           sample_join sample_relative (fun d => d) sample_minimatch
           [t#"/p"; t#"--all"]
           {| projectDir := t#"/p"; outputPath := OptString t#"analysis_report.html";
              duplicates := true; complexity_enabled := true; functions_enabled := true;
              verbose := false; ignorePatterns := DEFAULT_IGNORE ++ [] |}
           sample_tree t#"/p" t#"/p/a.ts" t#"**/dist/**").
  - reflexivity.
  - vm_compute. now left.
  - vm_compute. tauto.
Defined.

(** ** The normalizer *)

(** X26. A text without quote, backtick and slash is its own normalized
    form. *)
Theorem normalizer_keeps_plain_text (s : text) :
  Forall plain s -> stripCommentsAndStrings s = s.
Proof. apply stripCommentsAndStrings_plain. Qed.

Lemma normalizer_keeps_plain_text_witness :
  stripCommentsAndStrings t#"if (a) { b = 1; }" = t#"if (a) { b = 1; }".
Proof.
  apply normalizer_keeps_plain_text. plain_chars.
Defined.

Lemma stripCommentsAndStrings_template (pre b post : text) :
  Forall plain pre -> ~ In backtick b -> Forall plain post ->
  stripCommentsAndStrings (pre ++ backtick :: b ++ backtick :: post)
  = pre ++ dq :: dq :: post.
Proof.
  intros Hpre Hb Hpost.
  destruct strip_patterns_start as (Ht & Hbc & Hlc & Hsq & Hdq).
  unfold stripCommentsAndStrings.
  rewrite (@replace_quoted RE_TEMPLATE backtick _ pre b post eq_refl);
    [| apply plain_absent; [cbn; tauto | assumption] | exact Hb
     | apply plain_absent; [cbn; tauto | assumption]].
  assert (Habs : forall k, In k [backtick; sq; 47%N] -> ~ In k (pre ++ [dq; dq] ++ post)).
  { intros k Hk Hin. rewrite !in_app_iff in Hin.
    destruct Hin as [Hin | [[Hin | [Hin | []]] | Hin]].
    - revert Hin. apply plain_absent; [cbn in *; tauto | assumption].
    - cbn in Hk. subst k. destruct Hk as [H | [H | [H | []]]]; discriminate H.
    - cbn in Hk. subst k. destruct Hk as [H | [H | [H | []]]]; discriminate H.
    - revert Hin. apply plain_absent; [cbn in *; tauto | assumption]. }
  rewrite (@replace_absent RE_BLOCK_COMMENT 47%N _ _ Hbc) by (apply Habs; cbn; tauto).
  rewrite (@replace_absent RE_LINE_COMMENT 47%N _ _ Hlc) by (apply Habs; cbn; tauto).
  rewrite (@replace_absent RE_SINGLE_QUOTED sq _ _ Hsq) by (apply Habs; cbn; tauto).
  change ([dq; dq] ++ post) with (dq :: [] ++ dq :: post).
  rewrite (@replace_quoted RE_DOUBLE_QUOTED dq _ pre [] post eq_refl);
    [reflexivity | | intros [] |]; (apply plain_absent; [cbn; tauto | assumption]).
Qed.

(** X27. A string literal in single or double quotes, and a template
    literal in backticks whatever it holds (quotes, slashes, line breaks),
    standing in a text without other quotes, backticks and slashes, is
    replaced by the placeholder of two double quotes. *)
Theorem normalizer_replaces_literals (pre b post : text) :
  Forall plain pre -> Forall plain post ->
  (Forall plain b ->
   stripCommentsAndStrings (pre ++ sq :: b ++ sq :: post) = pre ++ dq :: dq :: post
   /\ stripCommentsAndStrings (pre ++ dq :: b ++ dq :: post) = pre ++ dq :: dq :: post)
  /\ (~ In backtick b ->
      stripCommentsAndStrings (pre ++ backtick :: b ++ backtick :: post)
      = pre ++ dq :: dq :: post).
Proof.
  intros Hpre Hpost. split.
  - intros Hb. split; apply stripCommentsAndStrings_literal; auto.
  - intros Hb. now apply stripCommentsAndStrings_template.
Qed.

Lemma normalizer_replaces_literals_witness :
  (Forall plain t#"if" ->
   stripCommentsAndStrings (t#"x = " ++ sq :: t#"if" ++ sq :: t#";") = t#"x = " ++ dq :: dq :: t#";"
   /\ stripCommentsAndStrings (t#"x = " ++ dq :: t#"if" ++ dq :: t#";")
      = t#"x = " ++ dq :: dq :: t#";")
  /\ (~ In backtick t#"if" ->
      stripCommentsAndStrings (t#"x = " ++ backtick :: t#"if" ++ backtick :: t#";")
      = t#"x = " ++ dq :: dq :: t#";").
Proof.
  apply (@normalizer_replaces_literals t#"x = " t#"if" t#";"); plain_chars.
Defined.

(** X28. A block comment and a line comment (up to the end of its line)
    without backtick and slash inside, standing in a text without quotes,
    backticks and slashes, are removed; the line break after a line comment
    stays. *)
Theorem normalizer_removes_comments (pre body post : text) :
  Forall plain pre -> Forall comment_char body -> Forall plain post ->
  stripCommentsAndStrings (pre ++ t#"/*" ++ body ++ t#"*/" ++ post) = pre ++ post
  /\ (Forall (fun c => is_line_terminator c = false) body -> at_eol post ->
      stripCommentsAndStrings (pre ++ t#"//" ++ body ++ post) = pre ++ post).
Proof.
  intros Hpre Hbody Hpost. split.
  - now apply stripCommentsAndStrings_block_comment.
  - intros Hline Heol. now apply stripCommentsAndStrings_line_comment.
Qed.

Lemma normalizer_removes_comments_witness :
  stripCommentsAndStrings (t#"a; " ++ t#"/*" ++ t#" if (x) " ++ t#"*/" ++ []) = t#"a; " ++ []
  /\ (Forall (fun c => is_line_terminator c = false) t#" if (x) " -> at_eol [] ->
      stripCommentsAndStrings (t#"a; " ++ t#"//" ++ t#" if (x) " ++ []) = t#"a; " ++ []).
Proof.
  apply (@normalizer_removes_comments t#"a; " t#" if (x) " []);
    [plain_chars | comment_chars | constructor].
Defined.

(** *** The normalized text is never longer *)

Lemma matchl_min_length (r : regex) :
  forall st st', In st' (matchl r st) -> idx st + min_length r <= idx st'.
Proof.
  induction r as [|cs|r1 IH1 r2 IH2|r1 IH1 r2 IH2|g r1 IH1|j r1 IH1| |];
    intros st st' Hin; cbn [min_length];
    try (apply matchl_reached in Hin; destruct Hin as [Hin _]; lia).
  - cbn [matchl] in Hin. destruct (rest st) as [|c tl]; [destruct Hin|].
    destruct (mem cs c); [|destruct Hin]. destruct Hin as [<- | []]. cbn. lia.
  - cbn [matchl] in Hin. apply in_flat_map in Hin. destruct Hin as (st1 & H1 & H2).
    apply IH1 in H1. apply IH2 in H2. lia.
  - cbn [matchl] in Hin. apply in_app_iff in Hin.
    destruct Hin as [H | H]; [apply IH1 in H | apply IH2 in H]; lia.
  - cbn [matchl] in Hin. apply in_map_iff in Hin. destruct Hin as (st1 & <- & H1).
    apply IH1 in H1. cbn. exact H1.
Qed.

Lemma well_placed_from (from from' limit k : nat) (ms : list jsmatch) :
  from <= from' -> well_placed from' limit k ms -> well_placed from limit k ms.
Proof. destruct ms as [|m tl]; cbn; [tauto|]. intros. intuition lia. Qed.

Lemma match_at_bounds (r : regex) (p : option char) (s : text) (i : nat) (m : jsmatch) :
  match_at r p s i = Some m ->
  m_start m = i /\ i + min_length r <= m_end m /\ m_end m <= i + length s.
Proof.
  unfold match_at. destruct (matchl r _) as [|st l] eqn:E; [discriminate|].
  intros [= <-]. cbn [m_start m_end].
  assert (Hin : In st (matchl r {| prev := p; rest := s; idx := i; caps := [] |}))
    by (rewrite E; now left).
  pose proof (matchl_min_length _ _ _ Hin) as H1.
  pose proof (matchl_reached _ _ _ Hin) as [_ H2]. cbn in H1, H2. lia.
Qed.

Lemma scan_well_placed (r : regex) (s : text) :
  forall p i skip,
    well_placed (i + skip) (i + length s) (min_length r) (scan r p s i skip).
Proof.
  induction s as [|c s IH]; intros p i skip.
  - destruct skip; cbn [scan]; [|exact I].
    destruct (match_at r p [] i) as [m|] eqn:E; [|exact I].
    apply match_at_bounds in E. cbn [well_placed length] in *. intuition lia.
  - destruct skip; cbn [scan].
    + destruct (match_at r p (c :: s) i) as [m|] eqn:E.
      * apply match_at_bounds in E. cbn [well_placed length] in *.
        repeat split; try lia.
        apply (@well_placed_from _ (S i + (m_end m - i - 1))); [lia|].
        replace (i + S (length s)) with (S i + length s) by lia. apply IH.
      * apply (@well_placed_from _ (S i + 0)); [lia|].
        cbn [length]. replace (i + S (length s)) with (S i + length s) by lia. apply IH.
    + cbn [length]. replace (i + S skip) with (S i + skip) by lia.
      replace (i + S (length s)) with (S i + length s) by lia. apply IH.
Qed.

Lemma splice_length (s by_ : text) (ms : list jsmatch) :
  forall from,
    from <= length s -> well_placed from (length s) (length by_) ms ->
    length (splice s from ms by_) + from <= length s.
Proof.
  induction ms as [|m tl IH]; intros from Hfrom Hwp; cbn [splice].
  - rewrite length_skipn. lia.
  - cbn [well_placed] in Hwp. destruct Hwp as (H1 & H2 & H3 & H4).
    rewrite !length_app. unfold substring. rewrite length_firstn, length_skipn.
    specialize (IH (m_end m) H3 H4). lia.
Qed.

Lemma replace_length (r : regex) (by_ s : text) :
  length by_ <= min_length r -> length (replace r by_ s) <= length s.
Proof.
  intros Hmin. unfold replace, matchAll.
  pose proof (scan_well_placed r s None 0 0) as Hwp. cbn [Nat.add] in Hwp.
  assert (Hwp' : well_placed 0 (length s) (length by_) (scan r None s 0 0)).
  { revert Hwp. generalize (scan r None s 0 0) as ms. generalize 0 as from.
    intros from ms. revert from. induction ms as [|m tl IH]; intros from; cbn; [tauto|].
    intros (H1 & H2 & H3 & H4). repeat split; try lia. now apply IH. }
  pose proof (@splice_length s by_ _ 0 (Nat.le_0_l _) Hwp'). lia.
Qed.

(** X29. The normalized text is never longer than the text. *)
Theorem normalizer_never_longer (code : text) :
  length (stripCommentsAndStrings code) <= length code.
Proof.
  unfold stripCommentsAndStrings.
  repeat (etransitivity; [apply replace_length; cbn; lia|]). reflexivity.
Qed.

(** * The normalizer and the score on every text *)

(** ** Matching without backtracking *)

Lemma to_dpat_sound (r : regex) :
  forall k d,
    to_dpat r k = Some d ->
    forall st, flat_map (matchl (dregex k)) (matchl r st) = matchl (dregex d) st.
Proof.
  induction r as [|cs|r1 IH1 r2 IH2|r1 IH1 r2 IH2|g r1 IH1|j r1 IH1| |];
    intros k d Hd st; cbn [to_dpat] in Hd; try discriminate.
  - injection Hd as <-. cbn [matchl flat_map]. apply app_nil_r.
  - injection Hd as <-. reflexivity.
  - destruct (to_dpat r2 k) as [d2|] eqn:E2; [|discriminate].
    cbn [matchl]. rewrite flat_map_flat_map.
    rewrite (flat_map_ext _ _ (IH2 k d2 E2)). now apply IH1.
  - destruct (to_dpat r1 k) as [a|] eqn:E1; [|discriminate].
    destruct (to_dpat r2 k) as [b|] eqn:E2; [|discriminate].
    injection Hd as <-. cbn [matchl dregex]. rewrite flat_map_app.
    now rewrite (IH1 k a E1), (IH2 k b E2).
  - destruct g; [|discriminate]. destruct r1; try discriminate.
    injection Hd as <-. reflexivity.
  - injection Hd as <-. reflexivity.
Qed.

Lemma hd_error_app (A : Type) (l1 l2 : list A) :
  hd_error (l1 ++ l2) = match hd_error l1 with Some x => Some x | None => hd_error l2 end.
Proof. destruct l1; reflexivity. Qed.

Lemma dmatch_head (d : dpat) :
  dwf d ->
  forall st,
    hd_error (matchl (dregex d) st)
    = option_map (fun n => jump n st) (dmatch d (prev st) (rest st)).
Proof.
  induction d as [|cs k IH|cs k IH|k IH|a IHa b IHb]; intros Hwf st; cbn [dwf] in Hwf.
  - reflexivity.
  - cbn [dregex matchl dmatch].
    destruct (rest st) as [|x tl] eqn:E; [reflexivity|].
    destruct (mem cs x); [|reflexivity].
    cbn [flat_map]. rewrite app_nil_r, (IH Hwf). cbn [advance prev rest].
    destruct (dmatch k (Some x) tl); [|reflexivity].
    cbn [option_map jump]. now rewrite E.
  - destruct Hwf as [Hguard Hwf]. cbn [dmatch].
    pose proof (jump_drop_state (span cs (rest st)) st) as Hj.
    destruct (drop_state (span cs (rest st)) (prev st) (rest st)) as [p' s'].
    injection Hj as <- <-.
    change (matchl (dregex (DRun cs k)) st)
      with (flat_map (matchl (dregex k))
              (star_loop true (matchl (Chr cs)) (S (length (rest st))) st)).
    destruct Hguard as [-> | Hguard].
    + cbn [dregex dmatch option_map].
      change (matchl Eps) with (fun x : mstate => [x]).
      rewrite flat_map_singleton, star_loop_head by lia.
      now rewrite Nat.add_0_r.
    + rewrite star_run_then; [|exact Hguard|lia].
      rewrite (IH Hwf).
      destruct (dmatch k _ _); [|reflexivity].
      cbn [option_map]. now rewrite jump_add.
  - cbn [dregex matchl dmatch]. unfold at_word_boundary.
    destruct (xorb (is_word_opt (prev st)) (is_word_opt (hd_error (rest st))));
      [|reflexivity].
    cbn [flat_map]. now rewrite app_nil_r, (IH Hwf).
  - destruct Hwf as [Ha Hb]. cbn [dregex matchl dmatch].
    rewrite hd_error_app, (IHa Ha), (IHb Hb).
    destruct (dmatch a (prev st) (rest st)); reflexivity.
Qed.

Lemma dmatch_le (d : dpat) :
  forall p s n, dmatch d p s = Some n -> n <= length s.
Proof.
  induction d as [|cs k IH|cs k IH|k IH|a IHa b IHb]; intros p s n H; cbn [dmatch] in H.
  - injection H as <-. lia.
  - destruct s as [|x s']; [discriminate|]. destruct (mem cs x); [|discriminate].
    destruct (dmatch k (Some x) s') as [j|] eqn:E; [|discriminate].
    injection H as <-. apply IH in E. cbn. lia.
  - assert (Hd : forall j p0 s0, length (snd (drop_state j p0 s0)) = length s0 - j).
    { induction j as [|j IHj]; intros p0 s0; cbn; [lia|].
      destruct s0 as [|x s0']; cbn; [reflexivity | apply IHj]. }
    specialize (Hd (span cs s) p s). pose proof (span_le cs s).
    destruct (drop_state (span cs s) p s) as [p' s'].
    destruct (dmatch k p' s') as [j|] eqn:E; [|discriminate].
    injection H as <-. apply IH in E. cbn in Hd. lia.
  - destruct (xorb _ _); [eauto | discriminate].
  - destruct (dmatch a p s) as [j|] eqn:E; [injection H as <-; eauto | eauto].
Qed.

(** The first match of such a pattern at a position. *)
Lemma match_at_dmatch (r : regex) (d : dpat) (p : option char) (s : text) (i : nat) :
  to_dpat r DEnd = Some d -> dwf d ->
  match_at r p s i =
  match dmatch d p s with
  | Some n => Some {| m_start := i; m_end := i + n; m_caps := [] |}
  | None => None
  end.
Proof.
  intros Hd Hwf. unfold match_at.
  set (st := {| prev := p; rest := s; idx := i; caps := [] |}).
  assert (E : matchl r st = matchl (dregex d) st).
  { rewrite <- (to_dpat_sound r DEnd Hd st). cbn [dregex].
    change (matchl Eps) with (fun x : mstate => [x]). now rewrite flat_map_singleton. }
  rewrite E. pose proof (dmatch_head d Hwf st) as H. cbn [prev rest st] in H.
  destruct (dmatch d p s) as [n|] eqn:En; cbn [option_map] in H.
  - destruct (matchl (dregex d) st) as [|st' l]; [discriminate|].
    injection H as ->. apply dmatch_le in En.
    rewrite jump_idx, jump_caps by exact En. reflexivity.
  - destruct (matchl (dregex d) st); [reflexivity | discriminate].
Qed.

(** ** Classes and white space *)

Lemma space_class_sound (cs : cset) (b : bool) (c : char) :
  space_class cs = Some b -> is_space c = true -> mem cs c = b.
Proof.
  intros Hcs Hc. revert b Hcs.
  induction cs as [k|lo hi| | | | |a IHa|a IHa b0 IHb]; intros b Hcs;
    cbn [space_class mem] in *; try discriminate.
  - destruct (is_space k) eqn:Ek; [discriminate|]. injection Hcs as <-.
    destruct (N.eqb_spec c k) as [-> | _]; [congruence | reflexivity].
  - now injection Hcs as <-.
  - injection Hcs as <-. destruct (is_word c) eqn:Ew; [|reflexivity].
    apply is_word_not_space in Ew. congruence.
  - now injection Hcs as <-.
  - destruct (space_class a) as [x|]; [|discriminate]. injection Hcs as <-.
    now rewrite (IHa x eq_refl).
  - destruct (space_class a) as [x|]; [|discriminate].
    destruct (space_class b0) as [y|]; [|discriminate]. injection Hcs as <-.
    now rewrite (IHa x eq_refl), (IHb y eq_refl).
Qed.

Lemma space_not_word (c : char) : is_space c = true -> is_word c = false.
Proof.
  intros Hc. destruct (is_word c) eqn:Ew; [|reflexivity].
  apply is_word_not_space in Ew. congruence.
Qed.

Lemma dmatch_prev (d : dpat) :
  forall p p' s, is_word_opt p = is_word_opt p' -> dmatch d p s = dmatch d p' s.
Proof.
  induction d as [|cs k IH|cs k IH|k IH|a IHa b IHb]; intros p p' s Hp; cbn [dmatch].
  - reflexivity.
  - reflexivity.
  - destruct s as [|x tl]; cbn [span].
    + cbn [drop_state]. f_equal. now apply IH.
    + destruct (mem cs x); cbn [drop_state]; [reflexivity|]. f_equal. now apply IH.
  - rewrite Hp. destruct (xorb _ _); [now apply IH | reflexivity].
  - rewrite (IHa p p' s Hp), (IHb p p' s Hp). reflexivity.
Qed.

Lemma dstarts_none (d : dpat) (p : option char) :
  dstarts d = true ->
  dmatch d p [] = None
  /\ forall c tl, is_space c = true -> dmatch d p (c :: tl) = None.
Proof.
  induction d as [|cs k IH|cs k IH|k IH|a IHa b IHb]; intros Hd; cbn [dstarts] in Hd;
    try discriminate.
  - split; [reflexivity|]. intros c tl Hc. cbn [dmatch].
    destruct (space_class cs) as [[|]|] eqn:E; try discriminate.
    now rewrite (space_class_sound cs c E Hc).
  - destruct (IH Hd) as [H1 H2]. split; cbn [dmatch].
    + destruct (xorb _ _); [exact H1 | reflexivity].
    + intros c tl Hc. destruct (xorb _ _); [now apply H2 | reflexivity].
  - apply andb_true_iff in Hd. destruct Hd as [Ha Hb].
    destruct (IHa Ha) as [A1 A2], (IHb Hb) as [B1 B2]. split; cbn [dmatch].
    + now rewrite A1.
    + intros c tl Hc. now rewrite (A2 c tl Hc), (B2 c tl Hc).
Qed.

Lemma dstarts_pos (d : dpat) :
  dstarts d = true -> forall p s n, dmatch d p s = Some n -> 1 <= n.
Proof.
  induction d as [|cs k IH|cs k IH|k IH|a IHa b IHb]; intros Hd p s n H;
    cbn [dstarts] in Hd; try discriminate; cbn [dmatch] in H.
  - destruct s as [|x s']; [discriminate|]. destruct (mem cs x); [|discriminate].
    destruct (dmatch k (Some x) s'); [|discriminate]. injection H as <-. lia.
  - destruct (xorb _ _); [eauto | discriminate].
  - apply andb_true_iff in Hd. destruct Hd as [Ha Hb].
    destruct (dmatch a p s) as [j|] eqn:E; [injection H as <-; eauto | eauto].
Qed.

(** ** A match when a run of white space loses a character *)

Lemma del_out_S (e : bool) (n : nat) (x y : char) (o o' : option nat) :
  del_out e n x y o o' -> del_out e (S n) x y (option_map S o) (option_map S o').
Proof.
  destruct o as [k|], o' as [k'|]; cbn; try tauto.
  intros [H | [H | [H | H]]]; [left | right; left | right; right; left | right; right; right];
    intuition lia.
Qed.

Lemma del_out_add (e : bool) (j n : nat) (x y : char) (o o' : option nat) :
  del_out e n x y o o' ->
  del_out e (j + n) x y (option_map (Nat.add j) o) (option_map (Nat.add j) o').
Proof.
  destruct o as [k|], o' as [k'|]; cbn; try tauto.
  intros [H | [H | [H | H]]]; [left | right; left | right; right; left | right; right; right];
    intuition lia.
Qed.

Lemma dmatch_run_cons (cs : cset) (k : dpat) (p : option char) (c : char) (s : text) :
  mem cs c = true ->
  dmatch (DRun cs k) p (c :: s) = option_map S (dmatch (DRun cs k) (Some c) s).
Proof.
  intros Hc. cbn [dmatch span]. rewrite Hc. cbn [drop_state].
  destruct (drop_state (span cs s) (Some c) s) as [p' s'].
  destruct (dmatch k p' s'); reflexivity.
Qed.

Lemma dmatch_run_stop (cs : cset) (k : dpat) (p : option char) (s : text) :
  span cs s = 0 -> dmatch (DRun cs k) p s = dmatch k p s.
Proof.
  intros H. cbn [dmatch]. rewrite H. cbn [drop_state].
  destruct (dmatch k p s); reflexivity.
Qed.

Section OneLess.

Variables w x y : char.
Variable b : text.
Hypothesis space_w : is_space w = true.
Hypothesis space_x : is_space x = true.
Hypothesis space_y : is_space y = true.

Lemma dmatch_after_spaces (k : dpat) (m : nat) :
  dmatch k (fst (drop_state m (Some x) b)) (snd (drop_state m (Some x) b))
  = dmatch k (fst (drop_state m (Some y) b)) (snd (drop_state m (Some y) b)).
Proof.
  assert (Hp : is_word_opt (Some x) = is_word_opt (Some y)).
  { cbn. now rewrite !space_not_word. }
  destruct m as [|m]; [now apply dmatch_prev|].
  destruct b as [|z b']; [now apply dmatch_prev | reflexivity].
Qed.

(** A run of white space read from [x] on, after [w], and from [b] on,
    after [y]. *)
Lemma dmatch_run_misaligned (cs : cset) (k : dpat) :
  space_class cs = Some true ->
  forall o, o = dmatch (DRun cs k) (Some y) b ->
            dmatch (DRun cs k) (Some w) (x :: b) = option_map S o.
Proof.
  intros Hcs o ->. rewrite dmatch_run_cons by now apply (space_class_sound cs x Hcs).
  f_equal. cbn [dmatch].
  pose proof (dmatch_after_spaces k (span cs b)) as H.
  destruct (drop_state (span cs b) (Some x) b) as [p1 s1],
           (drop_state (span cs b) (Some y) b) as [p2 s2].
  cbn [fst snd] in H. now rewrite H.
Qed.

Lemma dmatch_del (strict : bool) (d : dpat) :
  dsafe strict d = true ->
  forall a p,
    del_out strict (length a) x y
      (dmatch d p (a ++ w :: x :: b)) (dmatch d p (a ++ y :: b)).
Proof.
  induction d as [|cs k IH|cs k IH|k IH|d1 IH1 d2 IH2]; intros Hs a p; cbn [dsafe] in Hs.
  - cbn. left. lia.
  - destruct a as [|c a'].
    + cbn [app length dmatch].
      destruct (space_class cs) as [[|]|] eqn:Ecs; try discriminate.
      * rewrite (space_class_sound cs w Ecs space_w), (space_class_sound cs y Ecs space_y).
        destruct k as [|cs' k'|cs' k'|k'|k1 k2]; try discriminate.
        -- cbn. right. left. apply negb_true_iff in Hs. repeat split; assumption.
        -- destruct (space_class cs') as [[|]|] eqn:Ecs'; try discriminate.
           rewrite (@dmatch_run_misaligned cs' k' Ecs' _ eq_refl).
           destruct (dmatch (DRun cs' k') (Some y) b) as [j|]; cbn; [|exact I].
           right. right. right. lia.
      * rewrite (space_class_sound cs w Ecs space_w), (space_class_sound cs y Ecs space_y).
        exact I.
    + cbn [app length dmatch].
      assert (Hk : dsafe strict k = true).
      { destruct (space_class cs) as [[|]|]; try discriminate; [|exact Hs].
        destruct k as [|cs' k'|cs' k'|k'|k1 k2]; try discriminate; [reflexivity|].
        destruct (space_class cs') as [[|]|]; try discriminate. exact Hs. }
      destruct (mem cs c); [|exact I]. apply del_out_S. now apply IH.
  - assert (Hk : dsafe strict k = true) by (destruct (space_class cs); [exact Hs | discriminate]).
    revert p. induction a as [|c a' IHa]; intros p.
    + cbn [app length].
      destruct (space_class cs) as [[|]|] eqn:Ecs; try discriminate.
      * rewrite (@dmatch_run_cons cs k p w (x :: b))
          by now apply (space_class_sound cs w Ecs).
        rewrite (@dmatch_run_misaligned cs k Ecs _ eq_refl).
        rewrite (@dmatch_run_cons cs k p y b) by now apply (space_class_sound cs y Ecs).
        destruct (dmatch (DRun cs k) (Some y) b) as [j|]; cbn; [|exact I].
        right. right. right. lia.
      * rewrite !dmatch_run_stop
          by (cbn [span]; now rewrite (space_class_sound cs _ Ecs)).
        apply (IH Hk [] p).
    + cbn [app length]. destruct (mem cs c) eqn:Ec.
      * rewrite !dmatch_run_cons by exact Ec. apply del_out_S. apply IHa.
      * rewrite !dmatch_run_stop by (cbn [span]; now rewrite Ec).
        apply (IH Hk (c :: a') p).
  - cbn [dmatch].
    assert (Hh : is_word_opt (hd_error (a ++ w :: x :: b))
                 = is_word_opt (hd_error (a ++ y :: b))).
    { destruct a as [|c a']; [|reflexivity]. cbn. now rewrite !space_not_word. }
    rewrite Hh. destruct (xorb _ _); [now apply IH | exact I].
  - apply andb_true_iff in Hs. destruct Hs as [H1 H2]. cbn [dmatch].
    specialize (IH1 H1 a p). specialize (IH2 H2 a p).
    destruct (dmatch d1 p (a ++ w :: x :: b)) as [j|],
             (dmatch d1 p (a ++ y :: b)) as [j'|]; cbn in IH1; try contradiction.
    + exact IH1.
    + exact IH2.
Qed.

End OneLess.

(** ** Replacement and counting along the text *)

Lemma splice_next (s0 : text) (by_ : text) (from limit k : nat) (c : char) (tl : text)
    (ms : list jsmatch) :
  skipn from s0 = c :: tl -> well_placed (S from) limit k ms ->
  splice s0 from ms by_ = c :: splice s0 (S from) ms by_.
Proof.
  intros Hs Hwp. destruct ms as [|m ms']; cbn [splice].
  - rewrite Hs. f_equal. symmetry. now apply skipn_cons_step with (c := c).
  - cbn [well_placed] in Hwp. destruct Hwp as (H1 & _).
    unfold substring. rewrite Hs.
    replace (m_start m - from) with (S (m_start m - S from)) by lia.
    cbn [firstn app]. rewrite (skipn_cons_step _ _ Hs). reflexivity.
Qed.

Section Along.

Variable r : regex.
Variable MA : option char -> text -> option nat.

Hypothesis match_at_MA :
  forall p s i,
    match_at r p s i =
    match MA p s with
    | Some n => Some {| m_start := i; m_end := i + n; m_caps := [] |}
    | None => None
    end.
Hypothesis MA_le : forall p s n, MA p s = Some n -> n <= length s.
Hypothesis MA_pos : forall p s n, MA p s = Some n -> 1 <= n.

Lemma MA_nil (p : option char) : MA p [] = None.
Proof.
  destruct (MA p []) as [n|] eqn:E; [|reflexivity].
  pose proof (MA_le E). pose proof (MA_pos E). cbn in *. lia.
Qed.

Lemma scan_hits (s : text) :
  forall p i skip, length (scan r p s i skip) = hits MA p s skip.
Proof.
  induction s as [|c s IH]; intros p i skip; destruct skip; cbn [scan hits];
    try reflexivity; rewrite ?match_at_MA.
  - now rewrite MA_nil.
  - destruct (MA p (c :: s)) as [n|]; cbn [length m_end]; [|apply IH].
    f_equal. replace (i + n - i - 1) with (n - 1) by lia. apply IH.
  - apply IH.
Qed.

Lemma count_hits (s : text) : count_matches r s = hits MA None s 0.
Proof. apply scan_hits. Qed.

Lemma splice_rep (s0 by_ : text) (s : text) :
  forall from p skip,
    skipn from s0 = s -> from + skip <= length s0 ->
    splice s0 (from + skip) (scan r p s from skip) by_ = rep MA by_ p s skip.
Proof.
  induction s as [|c s IH]; intros from p skip Hs Hle.
  - assert (length s0 <= from).
    { pose proof (f_equal (@length _) Hs) as Hl. rewrite length_skipn in Hl. cbn in Hl. lia. }
    assert (skip = 0) as -> by lia.
    cbn [scan rep]. rewrite match_at_MA, MA_nil. cbn [splice].
    now rewrite Nat.add_0_r, Hs.
  - assert (Hlen : length s0 = from + S (length s)).
    { pose proof (f_equal (@length _) Hs) as Hl. rewrite length_skipn in Hl. cbn in Hl. lia. }
    assert (Htl : skipn (S from) s0 = s) by now apply skipn_cons_step with (c := c).
    destruct skip as [|k]; cbn [scan rep].
    + rewrite match_at_MA. rewrite Nat.add_0_r.
      destruct (MA p (c :: s)) as [n|] eqn:E.
      * pose proof (MA_le E) as Hn. pose proof (MA_pos E) as Hp. cbn in Hn.
        cbn [splice m_start m_end]. unfold substring at 1.
        rewrite Nat.sub_diag. cbn [firstn app]. f_equal.
        replace (from + n - from - 1) with (n - 1) by lia.
        replace (from + n) with (S from + (n - 1)) by lia.
        apply IH; [exact Htl | lia].
      * rewrite (@splice_next s0 by_ from (S from + length s) (min_length r) c s);
          [|exact Hs|].
        -- f_equal. pose proof (IH (S from) (Some c) 0 Htl ltac:(lia)) as H0.
           now rewrite Nat.add_0_r in H0.
        -- pose proof (scan_well_placed r s (Some c) (S from) 0) as Hwp.
           now rewrite Nat.add_0_r in Hwp.
    + replace (from + S k) with (S from + k) by lia. apply IH; [exact Htl | lia].
Qed.

Lemma replace_rep (by_ s : text) : replace r by_ s = rep MA by_ None s 0.
Proof.
  unfold replace, matchAll. apply (@splice_rep s by_ s 0 None 0); [reflexivity | lia].
Qed.

(** *** Going along a text piece by piece *)

Lemma rep_skip (by_ a s : text) :
  forall p, rep MA by_ p (a ++ s) (length a) = rep MA by_ (last_before a p) s 0.
Proof.
  induction a as [|c a IH]; intros p; [reflexivity|].
  cbn [app length rep]. now rewrite IH, last_before_cons.
Qed.

(** A piece that is matched as a whole. *)
Lemma rep_hit (by_ u s : text) (p : option char) :
  MA p (u ++ s) = Some (length u) ->
  rep MA by_ p (u ++ s) 0 = by_ ++ rep MA by_ (last_before u p) s 0.
Proof.
  intros H. pose proof (MA_pos H) as Hp.
  destruct u as [|c u]; [cbn in Hp; lia|].
  cbn [app rep]. change (c :: u ++ s) with ((c :: u) ++ s). rewrite H.
  replace (length (c :: u) - 1) with (length u) by (cbn [length]; lia).
  now rewrite rep_skip, last_before_cons.
Qed.

(** A piece in which no match starts. *)
Lemma rep_pass (by_ u s : text) :
  (forall a c b p, u = a ++ c :: b -> MA p (c :: b ++ s) = None) ->
  forall p, rep MA by_ p (u ++ s) 0 = u ++ rep MA by_ (last_before u p) s 0.
Proof.
  induction u as [|c u IH]; intros Hnone p; [reflexivity|].
  cbn [app rep]. rewrite (Hnone [] c u p eq_refl). f_equal.
  rewrite last_before_cons. apply IH.
  intros a c' b p' ->. apply (Hnone (c :: a) c' b p'). reflexivity.
Qed.

Lemma rep_nil (by_ : text) (p : option char) : rep MA by_ p [] 0 = [].
Proof. cbn [rep]. now rewrite MA_nil. Qed.

(** *** One white space character less *)

Section OneLessAlong.

Variables w x y : char.
Variable b : text.
Variable exact : bool.

Hypothesis MA_space : forall p c tl, is_space c = true -> MA p (c :: tl) = None.
Hypothesis MA_prev :
  forall u v s, is_space u = true -> is_space v = true -> MA (Some u) s = MA (Some v) s.
Hypothesis space_w : is_space w = true.
Hypothesis space_x : is_space x = true.
Hypothesis space_y : is_space y = true.
Hypothesis MA_del :
  forall a p, del_out exact (length a) x y (MA p (a ++ w :: x :: b)) (MA p (a ++ y :: b)).

Lemma hits_prev (u v : char) (s : text) (skip : nat) :
  is_space u = true -> is_space v = true ->
  hits MA (Some u) s skip = hits MA (Some v) s skip.
Proof.
  intros Hu Hv. destruct skip, s; cbn [hits]; try reflexivity;
    now rewrite (fun s' => @MA_prev u v s' Hu Hv).
Qed.

Lemma rep_prev (by_ : text) (u v : char) (s : text) (skip : nat) :
  is_space u = true -> is_space v = true ->
  rep MA by_ (Some u) s skip = rep MA by_ (Some v) s skip.
Proof.
  intros Hu Hv. destruct skip, s; cbn [rep]; try reflexivity;
    now rewrite (fun s' => @MA_prev u v s' Hu Hv).
Qed.

Lemma hits_del (a : text) :
  forall p skip skip',
    del_out exact (length a) x y (Some skip) (Some skip') ->
    hits MA p (a ++ w :: x :: b) skip = hits MA p (a ++ y :: b) skip'.
Proof.
  induction a as [|c a IH]; intros p skip skip' Hrel; cbn [del_out length] in Hrel.
  - cbn [app].
    destruct Hrel as [[H ->] | [(-> & -> & _) | [(-> & -> & ->) | [H ->]]]].
    + assert (skip = 0) as -> by lia. cbn [hits].
      rewrite !MA_space by assumption. now apply hits_prev.
    + cbn [hits]. rewrite MA_space by assumption. now apply hits_prev.
    + cbn [hits]. now rewrite !MA_space by assumption.
    + destruct skip as [|[|k]]; try lia. cbn [hits Nat.sub].
      rewrite ?Nat.sub_0_r. now apply hits_prev.
  - cbn [app]. destruct skip as [|k].
    + assert (skip' = 0) as ->.
      { destruct Hrel as [[_ ->] | [(H & _) | [(H & _) | [H _]]]]; [reflexivity | lia ..]. }
      cbn [hits]. specialize (MA_del (c :: a) p). cbn [app length] in MA_del.
      destruct (MA p (c :: a ++ w :: x :: b)) as [n|] eqn:E,
               (MA p (c :: a ++ y :: b)) as [n'|] eqn:E'; cbn [del_out] in MA_del;
        try contradiction.
      * f_equal. apply IH. cbn [del_out].
        pose proof (MA_pos E). pose proof (MA_pos E').
        destruct MA_del as [H1 | [H1 | [H1 | H1]]];
          [left | right; left | right; right; left | right; right; right]; intuition lia.
      * apply IH. cbn. left. lia.
    + destruct skip' as [|k'].
      { destruct Hrel as [[_ H] | [(_ & H & _) | [(H1 & H2 & _) | [H1 H2]]]]; lia. }
      cbn [hits]. apply IH. cbn [del_out].
      destruct Hrel as [H | [H | [H | H]]];
        [left | right; left | right; right; left | right; right; right]; intuition lia.
Qed.

Hypothesis is_exact : exact = true.

Lemma same_or_less_cons (c : char) (t t' : text) :
  same_or_less w x y t t' -> same_or_less w x y (c :: t) (c :: t').
Proof.
  intros [-> | (a2 & b2 & -> & ->)]; [now left|]. right. now exists (c :: a2), b2.
Qed.

Lemma same_or_less_app (l t t' : text) :
  same_or_less w x y t t' -> same_or_less w x y (l ++ t) (l ++ t').
Proof. induction l as [|c l IH]; intros H; [exact H | now apply same_or_less_cons, IH]. Qed.

Lemma rep_del (by_ : text) (a : text) :
  forall p skip skip',
    del_out exact (length a) x y (Some skip) (Some skip') ->
    same_or_less w x y (rep MA by_ p (a ++ w :: x :: b) skip)
                 (rep MA by_ p (a ++ y :: b) skip').
Proof.
  induction a as [|c a IH]; intros p skip skip' Hrel; cbn [del_out length] in Hrel.
  - cbn [app].
    destruct Hrel as [[H ->] | [(_ & _ & H) | [(-> & -> & ->) | [H ->]]]].
    + assert (skip = 0) as -> by lia. cbn [rep].
      rewrite !MA_space by assumption. right.
      exists [], (rep MA by_ (Some x) b 0). split; [reflexivity|].
      cbn [app]. f_equal. now apply rep_prev.
    + congruence.
    + cbn [rep]. rewrite !MA_space by assumption. now left.
    + destruct skip as [|[|k]]; try lia. cbn [rep Nat.sub].
      rewrite ?Nat.sub_0_r. left. now apply rep_prev.
  - cbn [app]. destruct skip as [|k].
    + assert (skip' = 0) as ->.
      { destruct Hrel as [[_ ->] | [(H & _) | [(H & _) | [H _]]]]; [reflexivity | lia ..]. }
      cbn [rep]. specialize (MA_del (c :: a) p). cbn [app length] in MA_del.
      destruct (MA p (c :: a ++ w :: x :: b)) as [n|] eqn:E,
               (MA p (c :: a ++ y :: b)) as [n'|] eqn:E'; cbn [del_out] in MA_del;
        try contradiction.
      * apply same_or_less_app. apply IH. cbn [del_out].
        pose proof (MA_pos E). pose proof (MA_pos E').
        destruct MA_del as [H1 | [H1 | [H1 | H1]]];
          [left | right; left | right; right; left | right; right; right]; intuition lia.
      * apply same_or_less_cons. apply IH. cbn. left. lia.
    + destruct skip' as [|k'].
      { destruct Hrel as [[_ H] | [(_ & H & _) | [(H1 & H2 & _) | [H1 H2]]]]; lia. }
      cbn [rep]. apply IH. cbn [del_out].
      destruct Hrel as [H | [H | [H | H]]];
        [left | right; left | right; right; left | right; right; right]; intuition lia.
Qed.

End OneLessAlong.

End Along.

(** ** The tokens and the literals as patterns with one way to match *)

Lemma run_guard_class (cs cs' : cset) (k : dpat) :
  (forall c, mem cs c = true -> mem cs' c = false) -> run_guard cs (DClass cs' k).
Proof.
  intros H st x tl E Hm. cbn [dregex matchl]. rewrite E, (H x Hm). reflexivity.
Qed.

Lemma run_guard_alt (cs : cset) (a b : dpat) :
  run_guard cs a -> run_guard cs b -> run_guard cs (DAlt a b).
Proof.
  intros Ha Hb st x tl E Hm. cbn [dregex matchl].
  now rewrite (Ha st x tl E Hm), (Hb st x tl E Hm).
Qed.

Lemma space_guard (cs' : cset) (c : char) :
  space_class cs' = Some false -> mem CSpace c = true -> mem cs' c = false.
Proof. intros H Hc. now apply (space_class_sound cs' c H). Qed.

Lemma word_guard (c : char) : mem CWord c = true -> mem CSpace c = false.
Proof.
  cbn [mem]. intros Hw. destruct (is_space c) eqn:E; [|reflexivity].
  apply space_not_word in E. congruence.
Qed.

Lemma other_guard (q c : char) : mem (CNot (CChar q)) c = true -> mem (CChar q) c = false.
Proof. cbn [mem]. now destruct (N.eqb c q). Qed.

Ltac solve_guard :=
  repeat apply run_guard_alt;
  apply run_guard_class; intros c Hc;
  first [ now apply space_guard | now apply word_guard | now apply other_guard ].

Ltac solve_good :=
  unfold good_pattern;
  match goal with
  | |- to_dpat ?r DEnd = Some (pattern_of ?r) /\ _ =>
      let d := eval vm_compute in (pattern_of r) in
      change (pattern_of r) with d
  end;
  split; [vm_compute; reflexivity|];
  split; [|split; vm_compute; reflexivity];
  cbn [dwf];
  repeat match goal with
         | |- _ /\ _ => split
         | |- True => exact I
         | |- _ = DEnd \/ _ => first [left; reflexivity | right; solve_guard]
         end.

Lemma complexity_tokens_good : Forall (good_pattern false) COMPLEXITY_TOKENS.
Proof. unfold COMPLEXITY_TOKENS. repeat (apply Forall_cons; [solve_good|]). apply Forall_nil. Qed.

Lemma quoted_patterns_good :
  good_pattern true RE_TEMPLATE /\ good_pattern true RE_SINGLE_QUOTED
  /\ good_pattern true RE_DOUBLE_QUOTED.
Proof. split; [|split]; solve_good. Qed.

Section GoodPattern.

Variable strict : bool.
Variable r : regex.
Hypothesis good : good_pattern strict r.

Lemma match_at_MA_of (p : option char) (s : text) (i : nat) :
  match_at r p s i =
  match MA_of r p s with
  | Some n => Some {| m_start := i; m_end := i + n; m_caps := [] |}
  | None => None
  end.
Proof. destruct good as (H1 & H2 & _). now apply match_at_dmatch. Qed.

Lemma MA_of_le (p : option char) (s : text) (n : nat) : MA_of r p s = Some n -> n <= length s.
Proof. apply dmatch_le. Qed.

Lemma MA_of_pos (p : option char) (s : text) (n : nat) : MA_of r p s = Some n -> 1 <= n.
Proof. destruct good as (_ & _ & H & _). now apply dstarts_pos. Qed.

Lemma MA_of_space (p : option char) (c : char) (tl : text) :
  is_space c = true -> MA_of r p (c :: tl) = None.
Proof. destruct good as (_ & _ & H & _). now apply (proj2 (dstarts_none (pattern_of r) p H)). Qed.

Lemma MA_of_prev (u v : char) (s : text) :
  is_space u = true -> is_space v = true -> MA_of r (Some u) s = MA_of r (Some v) s.
Proof.
  intros Hu Hv. apply dmatch_prev. cbn [is_word_opt].
  now rewrite (space_not_word _ Hu), (space_not_word _ Hv).
Qed.

Lemma MA_of_del (w x y : char) (b : text) :
  is_space w = true -> is_space x = true -> is_space y = true ->
  forall a p, del_out strict (length a) x y (MA_of r p (a ++ w :: x :: b)) (MA_of r p (a ++ y :: b)).
Proof.
  intros Hw Hx Hy. destruct good as (_ & _ & _ & H). now apply dmatch_del.
Qed.

End GoodPattern.

(** A token is found as often when one of two white space characters in a
    row is taken away. *)
Lemma count_matches_del (r : regex) (a b : text) (w x y : char) :
  good_pattern false r ->
  is_space w = true -> is_space x = true -> is_space y = true ->
  count_matches r (a ++ w :: x :: b) = count_matches r (a ++ y :: b).
Proof.
  intros Hr Hw Hx Hy.
  rewrite !(count_hits r (MA_of r) (match_at_MA_of Hr) (MA_of_le r) (MA_of_pos Hr)).
  apply (hits_del (MA_of r) (MA_of_pos Hr) w b (MA_of_space Hr) (MA_of_prev r) Hw Hx Hy
           (MA_of_del Hr w x y b Hw Hx Hy)).
  cbn. left. lia.
Qed.

Lemma calculateComplexity_del (a b : text) (w x y : char) :
  is_space w = true -> is_space x = true -> is_space y = true ->
  calculateComplexity (a ++ w :: x :: b) = calculateComplexity (a ++ y :: b).
Proof.
  intros Hw Hx Hy. rewrite !calculateComplexity_sum. do 2 f_equal.
  apply map_ext_in. intros r Hr. f_equal.
  apply count_matches_del; try assumption.
  exact (proj1 (Forall_forall _ _) complexity_tokens_good r Hr).
Qed.

(** ** The comment patterns at a position *)

Lemma span_split (cs : cset) (s : text) :
  exists body post,
    s = body ++ post /\ length body = span cs s
    /\ Forall (fun c => mem cs c = true) body
    /\ match post with [] => True | c :: _ => mem cs c = false end.
Proof.
  induction s as [|x s (body & post & -> & Hl & Hb & Hp)].
  - exists [], []. cbn. repeat split. constructor.
  - cbn [span]. destruct (mem cs x) eqn:E.
    + exists (x :: body), post. cbn [app length]. repeat split; auto.
    + exists [], (x :: body ++ post). cbn. repeat split; auto.
Qed.

Lemma match_at_line (p : option char) (s : text) (i : nat) :
  match_at RE_LINE_COMMENT p s i =
  match MA_line p s with
  | Some n => Some {| m_start := i; m_end := i + n; m_caps := [] |}
  | None => None
  end.
Proof.
  destruct s as [|x [|y tl]]; [reflexivity | |].
  - unfold match_at.
    change RE_LINE_COMMENT
      with (Seq (Seq (Chr (CChar 47%N)) (Chr (CChar 47%N)))
                (Seq (Star true (Chr CDot)) EndLine)).
    cbn [matchl rest mem MA_line]. destruct (N.eqb x 47); reflexivity.
  - cbn [MA_line].
    destruct (N.eqb_spec x 47) as [-> | Hx]; [destruct (N.eqb_spec y 47) as [-> | Hy]|];
      cbn [andb].
    + destruct (span_split CDot tl) as (body & post & -> & Hl & Hb & Hp).
      rewrite line_comment_match.
      * rewrite <- Hl. do 2 f_equal. lia.
      * revert Hb. apply Forall_impl. intros c. cbn [mem]. now destruct (is_line_terminator c).
      * destruct post as [|c post']; [exact I|]. cbn [at_eol]. cbn [mem] in Hp.
        now destruct (is_line_terminator c).
    + unfold match_at.
      change RE_LINE_COMMENT
        with (Seq (Seq (Chr (CChar 47%N)) (Chr (CChar 47%N)))
                  (Seq (Star true (Chr CDot)) EndLine)).
      cbn [matchl rest mem]. rewrite N.eqb_refl. cbn [flat_map advance rest app].
      apply N.eqb_neq in Hy. rewrite Hy. reflexivity.
    + unfold match_at.
      change RE_LINE_COMMENT
        with (Seq (Seq (Chr (CChar 47%N)) (Chr (CChar 47%N)))
                  (Seq (Star true (Chr CDot)) EndLine)).
      cbn [matchl rest mem]. apply N.eqb_neq in Hx. rewrite Hx. reflexivity.
Qed.

Lemma find_close_cons (x : char) (tl : text) :
  find_close (x :: tl) =
  match tl with
  | y :: _ => if (N.eqb x 42 && N.eqb y 47)%bool then Some 0 else option_map S (find_close tl)
  | [] => option_map S (find_close tl)
  end.
Proof. destruct tl; reflexivity. Qed.

Lemma block_body_first (s : text) :
  forall st fuel,
    rest st = s -> length s < fuel ->
    hd_error (flat_map (matchl (Lit "*/")) (star_loop false (matchl (Chr CAll)) fuel st))
    = option_map (fun k => jump (k + 2) st) (find_close s).
Proof.
  change (Lit "*/") with (Seq (Chr (CChar 42%N)) (Chr (CChar 47%N))).
  induction s as [|x s IH]; intros st fuel Hrest Hlt.
  - destruct fuel as [|fuel]; [cbn in Hlt; lia|]. cbn [star_loop]. unfold star_round.
    cbn [flat_map matchl]. rewrite Hrest. reflexivity.
  - destruct fuel as [|fuel]; [cbn in Hlt; lia|]. cbn [star_loop]. unfold star_round.
    cbn [flat_map app].
    change (matchl (Chr CAll) st)
      with (match rest st with
            | [] => []
            | c :: tl => if mem CAll c then [advance st c tl] else []
            end).
    rewrite Hrest. cbn [mem flat_map advance idx].
    assert (Hi : (idx st <? S (idx st)) = true) by (apply Nat.ltb_lt; lia).
    rewrite Hi, !app_nil_r.
    specialize (IH (advance st x s) fuel eq_refl ltac:(cbn in Hlt; lia)).
    rewrite find_close_cons.
    assert (Hjump : forall k, jump (S k + 2) st = jump (k + 2) (advance st x s)).
    { intros k. cbn [Nat.add jump]. rewrite Hrest. reflexivity. }
    destruct s as [|y s'].
    + assert (H : matchl (Seq (Chr (CChar 42%N)) (Chr (CChar 47%N))) st = []).
      { cbn [matchl]. rewrite Hrest. cbn [mem]. now destruct (N.eqb x 42). }
      rewrite H. cbn [app]. rewrite IH. reflexivity.
    + destruct (N.eqb x 42 && N.eqb y 47)%bool eqn:E.
      * apply andb_prop in E. destruct E as [Ex Ey].
        assert (H : matchl (Seq (Chr (CChar 42%N)) (Chr (CChar 47%N))) st = [jump 2 st]).
        { cbn [matchl jump]. rewrite Hrest. cbn [mem]. rewrite Ex.
          cbn [flat_map advance rest]. rewrite Ey. reflexivity. }
        rewrite H. reflexivity.
      * assert (H : matchl (Seq (Chr (CChar 42%N)) (Chr (CChar 47%N))) st = []).
        { cbn [matchl]. rewrite Hrest. cbn [mem].
          destruct (N.eqb x 42); [|reflexivity].
          cbn [flat_map advance rest]. cbn [andb] in E. rewrite E. reflexivity. }
        rewrite H. cbn [app]. rewrite IH.
        destruct (find_close (y :: s')) as [k|]; cbn [option_map]; [|reflexivity].
        now rewrite Hjump.
Qed.

Lemma find_close_le (s : text) : forall k, find_close s = Some k -> k + 2 <= length s.
Proof.
  induction s as [|x s IH]; intros k H; [discriminate|].
  rewrite find_close_cons in H. destruct s as [|y s'].
  - cbn in H. discriminate.
  - destruct (N.eqb x 42 && N.eqb y 47)%bool.
    + injection H as <-. cbn. lia.
    + destruct (find_close (y :: s')) as [j|]; [|discriminate].
      injection H as <-. specialize (IH j eq_refl). cbn [length] in *. lia.
Qed.

Lemma match_at_block (p : option char) (s : text) (i : nat) :
  match_at RE_BLOCK_COMMENT p s i =
  match MA_block p s with
  | Some n => Some {| m_start := i; m_end := i + n; m_caps := [] |}
  | None => None
  end.
Proof.
  unfold match_at. rewrite block_comment_unfold.
  change (Lit "/*") with (Seq (Chr (CChar 47%N)) (Chr (CChar 42%N))).
  destruct s as [|x [|y tl]]; [reflexivity | |].
  - cbn [matchl rest mem MA_block]. destruct (N.eqb x 47); reflexivity.
  - cbn [matchl rest mem MA_block].
    destruct (N.eqb x 47); [|reflexivity].
    cbn [flat_map advance rest app].
    destruct (N.eqb y 42); [|reflexivity].
    cbn [andb].
    set (st2 := advance _ y tl).
    rewrite app_nil_r.
    change (flat_map (matchl BLOCK_BODY) [st2]) with (matchl BLOCK_BODY st2 ++ []).
    rewrite app_nil_r.
    pose proof (@block_body_first tl st2 (S (length (rest st2))) eq_refl ltac:(cbn; lia))
      as Hh.
    change (matchl BLOCK_BODY st2)
      with (flat_map (matchl (Lit "*/"))
              (star_loop false (matchl (Chr CAll)) (S (length (rest st2))) st2)).
    destruct (find_close tl) as [k|] eqn:Ek; cbn [option_map] in Hh |- *.
    + destruct (flat_map _ _) as [|z l]; [discriminate|].
      cbn [hd_error] in Hh. injection Hh as ->.
      rewrite jump_caps. f_equal.
      pose proof (find_close_le _ Ek).
      rewrite jump_idx by (cbn; lia). cbn. f_equal. lia.
    + destruct (flat_map _ _) as [|z l]; [reflexivity | discriminate].
Qed.

Lemma MA_line_le (p : option char) (s : text) (n : nat) : MA_line p s = Some n -> n <= length s.
Proof.
  destruct s as [|x [|y tl]]; try discriminate. cbn [MA_line].
  destruct (N.eqb x 47 && N.eqb y 47)%bool; [|discriminate].
  intros [= <-]. pose proof (span_le CDot tl). cbn [length]. lia.
Qed.

Lemma MA_line_pos (p : option char) (s : text) (n : nat) : MA_line p s = Some n -> 1 <= n.
Proof.
  destruct s as [|x [|y tl]]; try discriminate. cbn [MA_line].
  destruct (N.eqb x 47 && N.eqb y 47)%bool; [|discriminate].
  intros [= <-]. lia.
Qed.

Lemma MA_block_le (p : option char) (s : text) (n : nat) :
  MA_block p s = Some n -> n <= length s.
Proof.
  destruct s as [|x [|y tl]]; try discriminate. cbn [MA_block].
  destruct (N.eqb x 47 && N.eqb y 42)%bool; [|discriminate].
  destruct (find_close tl) as [k|] eqn:E; [|discriminate].
  intros [= <-]. pose proof (find_close_le _ E). cbn [length]. lia.
Qed.

Lemma MA_block_pos (p : option char) (s : text) (n : nat) : MA_block p s = Some n -> 1 <= n.
Proof.
  destruct s as [|x [|y tl]]; try discriminate. cbn [MA_block].
  destruct (N.eqb x 47 && N.eqb y 42)%bool; [|discriminate].
  destruct (find_close tl) as [k|]; [|discriminate].
  intros [= <-]. lia.
Qed.

(** ** The comment patterns with one white space character less *)

Lemma space_not_slash (c : char) : is_space c = true -> N.eqb c 47 = false.
Proof. destruct (N.eqb_spec c 47) as [-> | _]; [discriminate | reflexivity]. Qed.

Lemma space_not_star (c : char) : is_space c = true -> N.eqb c 42 = false.
Proof. destruct (N.eqb_spec c 42) as [-> | _]; [discriminate | reflexivity]. Qed.

Lemma find_close_other (c : char) (tl : text) :
  N.eqb c 42 = false -> find_close (c :: tl) = option_map S (find_close tl).
Proof. intros H. rewrite find_close_cons, H. now destruct tl. Qed.

Lemma find_close_before (c d : char) (tl : text) :
  N.eqb d 47 = false -> find_close (c :: d :: tl) = option_map S (find_close (d :: tl)).
Proof. intros H. rewrite find_close_cons, H, andb_false_r. reflexivity. Qed.

Section OneLessComment.

Variables w x y : char.
Variable b : text.
Hypothesis space_w : is_space w = true.
Hypothesis space_x : is_space x = true.
Hypothesis space_y : is_space y = true.

Lemma find_close_del (a : text) :
  match find_close (a ++ w :: x :: b), find_close (a ++ y :: b) with
  | None, None => True
  | Some k, Some k' => (k + 2 <= length a /\ k' = k) \/ (length a + 2 <= k /\ k' = k - 1)
  | _, _ => False
  end.
Proof.
  induction a as [|c a IH].
  - cbn [app].
    rewrite !find_close_other by now apply space_not_star.
    destruct (find_close b) as [j|]; cbn [option_map length]; [|exact I].
    right. lia.
  - cbn [app]. destruct a as [|d a'].
    + cbn [app] in *.
      rewrite (@find_close_before c w) by now apply space_not_slash.
      rewrite (@find_close_before c y) by now apply space_not_slash.
      destruct (find_close (w :: x :: b)) as [k|], (find_close (y :: b)) as [k'|];
        cbn [option_map length] in *; try exact IH. lia.
    + cbn [app] in *. rewrite !(find_close_cons c).
      destruct (N.eqb c 42 && N.eqb d 47)%bool.
      * left. cbn [length]. lia.
      * destruct (find_close (d :: a' ++ w :: x :: b)) as [k|],
                 (find_close (d :: a' ++ y :: b)) as [k'|];
          cbn [option_map length] in *; try exact IH. lia.
Qed.

Lemma MA_block_space (p : option char) (c : char) (tl : text) :
  is_space c = true -> MA_block p (c :: tl) = None.
Proof.
  intros Hc. destruct tl as [|d tl]; [reflexivity|]. cbn [MA_block].
  now rewrite (space_not_slash _ Hc).
Qed.

Lemma MA_block_del (a : text) (p : option char) :
  del_out true (length a) x y (MA_block p (a ++ w :: x :: b)) (MA_block p (a ++ y :: b)).
Proof.
  destruct a as [|c [|d a']]; cbn [app].
  - now rewrite !MA_block_space.
  - cbn [MA_block]. rewrite (space_not_star _ space_w), (space_not_star _ space_y).
    rewrite !andb_false_r. exact I.
  - cbn [MA_block]. destruct (N.eqb c 47 && N.eqb d 42)%bool; [|exact I].
    pose proof (find_close_del a') as H.
    destruct (find_close (a' ++ w :: x :: b)) as [k|], (find_close (a' ++ y :: b)) as [k'|];
      cbn [option_map del_out length] in *; try exact H.
    destruct H as [[H1 ->] | [H1 ->]]; [left | right; right; right]; lia.
Qed.

Lemma MA_line_space (p : option char) (c : char) (tl : text) :
  is_space c = true -> MA_line p (c :: tl) = None.
Proof.
  intros Hc. destruct tl as [|d tl]; [reflexivity|]. cbn [MA_line].
  now rewrite (space_not_slash _ Hc).
Qed.

Hypothesis keeps : keeps_line_end w x y.

Lemma span_line_del (a : text) :
  let k := span CDot (a ++ w :: x :: b) in
  let k' := span CDot (a ++ y :: b) in
  (k <= length a /\ k' = k)
  \/ (k = S (length a) /\ k' = length a /\ y = x)
  \/ (length a + 2 <= k /\ k' = k - 1).
Proof.
  induction a as [|c a IH]; cbn [app span length mem].
  - destruct keeps as [[-> Hwx] | [-> Hx]].
    + destruct (is_line_terminator w) eqn:Ew; cbn [negb].
      * rewrite (Hwx eq_refl). cbn [negb]. left. lia.
      * destruct (is_line_terminator x); cbn [negb]; [right; left; lia | right; right; lia].
    + rewrite Hx. cbn [negb]. destruct (is_line_terminator w); cbn [negb]; [left; lia|].
      right; right. lia.
  - destruct (is_line_terminator c); cbn [negb]; [left; lia|].
    cbv zeta in IH. destruct IH as [H | [H | H]];
      [left | right; left | right; right]; intuition lia.
Qed.

Lemma MA_line_del (a : text) (p : option char) :
  del_out true (length a) x y (MA_line p (a ++ w :: x :: b)) (MA_line p (a ++ y :: b)).
Proof.
  destruct a as [|c [|d a']]; cbn [app].
  - now rewrite !MA_line_space.
  - cbn [MA_line]. rewrite (space_not_slash _ space_w), (space_not_slash _ space_y).
    rewrite !andb_false_r. exact I.
  - cbn [MA_line]. destruct (N.eqb c 47 && N.eqb d 47)%bool; [|exact I].
    cbn [del_out length]. pose proof (span_line_del a') as H. cbv zeta in H.
    destruct H as [H | [H | H]];
      [left | right; right; left | right; right; right]; intuition lia.
Qed.

End OneLessComment.

(** ** The normalizer with one white space character less *)

Section PassOneLess.

Variable r : regex.
Variable MA : option char -> text -> option nat.
Variable by_ : text.
Variables w x y : char.

Hypothesis match_at_MA :
  forall p s i,
    match_at r p s i =
    match MA p s with
    | Some n => Some {| m_start := i; m_end := i + n; m_caps := [] |}
    | None => None
    end.
Hypothesis MA_le : forall p s n, MA p s = Some n -> n <= length s.
Hypothesis MA_pos : forall p s n, MA p s = Some n -> 1 <= n.
Hypothesis MA_space : forall p c tl, is_space c = true -> MA p (c :: tl) = None.
Hypothesis MA_prev :
  forall u v s, is_space u = true -> is_space v = true -> MA (Some u) s = MA (Some v) s.
Hypothesis space_w : is_space w = true.
Hypothesis space_x : is_space x = true.
Hypothesis space_y : is_space y = true.
Hypothesis MA_del :
  forall b a p, del_out true (length a) x y (MA p (a ++ w :: x :: b)) (MA p (a ++ y :: b)).

Lemma replace_del (t t' : text) :
  same_or_less w x y t t' -> same_or_less w x y (replace r by_ t) (replace r by_ t').
Proof.
  intros [-> | (a & b & -> & ->)]; [now left|].
  rewrite !(replace_rep r MA match_at_MA MA_le MA_pos).
  apply (rep_del MA MA_pos w b MA_space MA_prev space_w space_x space_y (MA_del b) eq_refl).
  cbn. left. lia.
Qed.

End PassOneLess.

Lemma replace_good_del (r : regex) (by_ : text) (w x y : char) (t t' : text) :
  good_pattern true r ->
  is_space w = true -> is_space x = true -> is_space y = true ->
  same_or_less w x y t t' -> same_or_less w x y (replace r by_ t) (replace r by_ t').
Proof.
  intros G Hw Hx Hy.
  apply replace_del with (MA := MA_of r); try assumption.
  - now apply match_at_MA_of with (strict := true).
  - apply MA_of_le.
  - now apply MA_of_pos with (strict := true).
  - now apply MA_of_space with (strict := true).
  - apply MA_of_prev.
  - intros b a p. now apply MA_of_del.
Qed.

Lemma stripCommentsAndStrings_del (w x y : char) (t t' : text) :
  is_space w = true -> is_space x = true -> is_space y = true -> keeps_line_end w x y ->
  same_or_less w x y t t' ->
  same_or_less w x y (stripCommentsAndStrings t) (stripCommentsAndStrings t').
Proof.
  intros Hw Hx Hy Hk H. destruct quoted_patterns_good as (Gt & Gs & Gd).
  unfold stripCommentsAndStrings.
  apply replace_good_del; try assumption.
  apply replace_good_del; try assumption.
  apply replace_del with (MA := MA_line); try assumption.
  { apply match_at_line. } { apply MA_line_le. } { apply MA_line_pos. }
  { apply MA_line_space. } { reflexivity. }
  { intros b a p. now apply MA_line_del. }
  apply replace_del with (MA := MA_block); try assumption.
  { apply match_at_block. } { apply MA_block_le. } { apply MA_block_pos. }
  { apply MA_block_space. } { reflexivity. }
  { intros b a p. now apply MA_block_del. }
  apply replace_good_del; assumption.
Qed.

(** Of two white space characters in a row one can go without a change of
    the score, as long as a line end stays a line end. *)
Lemma score_del (w x y : char) (a b : text) :
  is_space w = true -> is_space x = true -> is_space y = true -> keeps_line_end w x y ->
  score (a ++ w :: x :: b) = score (a ++ y :: b).
Proof.
  intros Hw Hx Hy Hk. unfold score.
  destruct (@stripCommentsAndStrings_del w x y (a ++ w :: x :: b) (a ++ y :: b)
              Hw Hx Hy Hk) as [-> | (a2 & b2 & -> & ->)].
  - right. now exists a, b.
  - reflexivity.
  - now apply calculateComplexity_del.
Qed.

(** ** The score and the amount of white space *)

Lemma canonical_kind (c : char) : is_space c = true -> same_kind c (canonical c).
Proof.
  unfold is_space, canonical. intros H.
  destruct (is_line_terminator c) eqn:E.
  - right; right. now split.
  - right; left. rewrite orb_false_r in H. now split.
Qed.

Lemma same_kind_at (pre post : text) (c c' : char) :
  same_kind c c' -> Forall2 same_kind (pre ++ c :: post) (pre ++ c' :: post).
Proof.
  intros H. induction pre as [|x pre IH]; cbn [app].
  - constructor; [exact H | apply Forall2_same_kind_refl].
  - constructor; [apply same_kind_refl | exact IH].
Qed.

Lemma score_sim (t t' : text) : Forall2 same_kind t t' -> score t = score t'.
Proof. intros H. unfold score. now apply calculateComplexity_sim, stripCommentsAndStrings_sim. Qed.

Lemma squeeze_head (s : text) :
  forall d tl, squeeze s = d :: tl -> is_space d = true -> d = 10%N \/ d = 32%N.
Proof.
  induction s as [|c s IH]; intros d tl H Hd; [discriminate|].
  cbn [squeeze] in H. destruct (is_space c) eqn:Ec.
  - destruct (squeeze s) as [|d0 tl0].
    + injection H as <- _. unfold canonical. destruct (is_line_terminator c); auto.
    + destruct (is_space d0) eqn:Ed0.
      * injection H as <- _. destruct (is_line_terminator c); [now left|].
        now apply (IH d0 tl0).
      * injection H as <- _. unfold canonical. destruct (is_line_terminator c); auto.
  - injection H as <- _. congruence.
Qed.

Lemma score_squeeze_app (s : text) : forall pre, score (pre ++ s) = score (pre ++ squeeze s).
Proof.
  induction s as [|c s IH]; intros pre; [reflexivity|].
  replace (pre ++ c :: s) with ((pre ++ [c]) ++ s) by now rewrite <- app_assoc.
  rewrite IH, <- app_assoc. cbn [app squeeze].
  destruct (is_space c) eqn:Ec; [|reflexivity].
  destruct (squeeze s) as [|d tl] eqn:E.
  - apply score_sim, same_kind_at. now apply canonical_kind.
  - destruct (is_space d) eqn:Ed.
    + destruct (is_line_terminator c) eqn:El.
      * transitivity (score (pre ++ 10%N :: d :: tl)).
        { apply score_sim, same_kind_at. right; right. now split. }
        apply score_del; [reflexivity | exact Ed | reflexivity |].
        destruct (squeeze_head s E Ed) as [-> | ->].
        -- left. now split.
        -- right. now split.
      * apply score_del; try assumption. left. split; [reflexivity | congruence].
    + apply score_sim, same_kind_at. now apply canonical_kind.
Qed.

Lemma score_squeeze (t : text) : score t = score (squeeze t).
Proof. apply (score_squeeze_app t []). Qed.

(** ** The normalizer on a text read as code, literals and comments *)

Lemma absent_cons (k c : char) (s : text) :
  absent k (c :: s) = (negb (N.eqb k c) && absent k s)%bool.
Proof. unfold absent. cbn [existsb]. now rewrite negb_orb. Qed.

Lemma absent_app (k : char) (a b : text) :
  absent k (a ++ b) = (absent k a && absent k b)%bool.
Proof. unfold absent. now rewrite existsb_app, negb_orb. Qed.

Lemma absent_mid (k : char) (u a b : text) (c : char) :
  absent k u = true -> u = a ++ c :: b -> N.eqb c k = false.
Proof.
  intros H ->. rewrite absent_app, absent_cons in H.
  apply andb_prop in H. destruct H as [_ H]. apply andb_prop in H. destruct H as [H _].
  rewrite N.eqb_sym. now destruct (N.eqb k c).
Qed.

Lemma absent_Forall (k : char) (s : text) :
  absent k s = true -> Forall (fun x => mem (CNot (CChar k)) x = true) s.
Proof.
  induction s as [|c s IH]; intros H; constructor.
  - rewrite absent_cons in H. apply andb_prop in H. cbn [mem].
    rewrite N.eqb_sym. tauto.
  - apply IH. rewrite absent_cons in H. apply andb_prop in H. tauto.
Qed.

Lemma free_cons (x y c : char) (tl : text) (nx : option char) :
  free x y (c :: tl) nx
  = (negb (N.eqb c x
           && match (match tl with d :: _ => Some d | [] => nx end) with
              | Some d => N.eqb d y
              | None => false
              end)
     && free x y tl nx)%bool.
Proof. reflexivity. Qed.

Lemma free_next (x y : char) (s : text) (nx nx' : option char) :
  free x y s nx = true -> nx' <> Some y -> free x y s nx' = true.
Proof.
  intros H Hn. induction s as [|c s IH]; [reflexivity|].
  rewrite free_cons in *. apply andb_prop in H. destruct H as [H1 H2].
  rewrite (IH H2), andb_true_r. destruct s as [|d s']; [|exact H1].
  destruct (N.eqb c x); [|reflexivity]. cbn [andb negb].
  destruct nx' as [d|]; [|reflexivity].
  destruct (N.eqb_spec d y) as [-> | _]; [congruence | reflexivity].
Qed.

Lemma free_worst (x y : char) (s : text) (nx : option char) :
  free x y s (Some y) = true -> free x y s nx = true.
Proof.
  intros H. induction s as [|c s IH]; [reflexivity|].
  rewrite free_cons in *. apply andb_prop in H. destruct H as [H1 H2].
  rewrite (IH H2), andb_true_r. destruct s as [|d s']; [|exact H1].
  rewrite N.eqb_refl, andb_true_r in H1.
  destruct (N.eqb c x); [discriminate | reflexivity].
Qed.

Lemma free_app_one (x y q : char) (s : text) (nx : option char) :
  free x y (s ++ [q]) (Some y) = true -> N.eqb q x = false ->
  free x y (s ++ [q]) nx = true.
Proof. intros H _. now apply free_worst. Qed.

(** *** The patterns at a segment *)

Lemma quoted_pattern_of :
  pattern_of RE_TEMPLATE = quoted_pattern backtick
  /\ pattern_of RE_SINGLE_QUOTED = quoted_pattern sq
  /\ pattern_of RE_DOUBLE_QUOTED = quoted_pattern dq.
Proof. repeat split. Qed.

Lemma quoted_miss (q : char) (p : option char) (c : char) (tl : text) :
  N.eqb c q = false -> dmatch (quoted_pattern q) p (c :: tl) = None.
Proof. intros H. cbn [quoted_pattern dmatch mem]. now rewrite H. Qed.

Lemma quoted_hit (q : char) (p : option char) (body s : text) :
  absent q body = true ->
  dmatch (quoted_pattern q) p (q :: body ++ q :: s) = Some (length body + 2).
Proof.
  intros H. cbn [quoted_pattern dmatch mem]. rewrite N.eqb_refl.
  rewrite span_app_stop;
    [ | now apply absent_Forall | cbn [mem]; now rewrite N.eqb_refl ].
  rewrite drop_state_app. cbn [dmatch mem]. rewrite N.eqb_refl.
  cbn [option_map]. f_equal. lia.
Qed.

Lemma quoted_pass (q : char) (u s : text) :
  absent q u = true ->
  forall a c b p, u = a ++ c :: b -> dmatch (quoted_pattern q) p (c :: b ++ s) = None.
Proof. intros H a c b p E. apply quoted_miss. eapply absent_mid; eassumption. Qed.

Lemma MA_block_free (u s : text) :
  free 47%N 42%N u (hd_error s) = true ->
  forall a c b p, u = a ++ c :: b -> MA_block p (c :: b ++ s) = None.
Proof.
  intros H a. revert u H. induction a as [|x a IH]; intros u H c b p ->.
  - cbn [app] in H. rewrite free_cons in H. apply andb_prop in H. destruct H as [H _].
    destruct b as [|d b']; cbn [app].
    + destruct s as [|d s']; [reflexivity|]. cbn [MA_block hd_error] in *.
      now destruct (N.eqb c 47 && N.eqb d 42)%bool.
    + cbn [MA_block]. now destruct (N.eqb c 47 && N.eqb d 42)%bool.
  - cbn [app] in H. rewrite free_cons in H. apply andb_prop in H. destruct H as [_ H].
    now apply (IH _ H).
Qed.

Lemma MA_line_free (u s : text) :
  free 47%N 47%N u (hd_error s) = true ->
  forall a c b p, u = a ++ c :: b -> MA_line p (c :: b ++ s) = None.
Proof.
  intros H a. revert u H. induction a as [|x a IH]; intros u H c b p ->.
  - cbn [app] in H. rewrite free_cons in H. apply andb_prop in H. destruct H as [H _].
    destruct b as [|d b']; cbn [app].
    + destruct s as [|d s']; [reflexivity|]. cbn [MA_line hd_error] in *.
      now destruct (N.eqb c 47 && N.eqb d 47)%bool.
    + cbn [MA_line]. now destruct (N.eqb c 47 && N.eqb d 47)%bool.
  - cbn [app] in H. rewrite free_cons in H. apply andb_prop in H. destruct H as [_ H].
    now apply (IH _ H).
Qed.

Lemma find_close_body (body s : text) :
  free 42%N 47%N body None = true ->
  find_close (body ++ 42%N :: 47%N :: s) = Some (length body).
Proof.
  induction body as [|c body IH]; intros H; [reflexivity|].
  rewrite free_cons in H. apply andb_prop in H. destruct H as [H1 H2].
  specialize (IH H2). cbn [app]. rewrite find_close_cons.
  destruct body as [|d body']; cbn [app] in *.
  - rewrite andb_false_r. now rewrite IH.
  - destruct (N.eqb c 42 && N.eqb d 47)%bool; [discriminate|]. now rewrite IH.
Qed.

Lemma block_hit (p : option char) (body s : text) :
  free 42%N 47%N body None = true ->
  MA_block p (written (BlockComment body) ++ s)
  = Some (length (written (BlockComment body))).
Proof.
  intros H. cbn [written app MA_block N.eqb Pos.eqb andb].
  rewrite <- app_assoc. cbn [app]. rewrite find_close_body by exact H.
  cbn [option_map length]. rewrite length_app. cbn [length]. f_equal. lia.
Qed.

Lemma line_hit (p : option char) (body s : text) :
  forallb (fun c => negb (is_line_terminator c)) body = true -> at_eol s ->
  MA_line p (written (LineComment body) ++ s)
  = Some (length (written (LineComment body))).
Proof.
  intros H Hs. cbn [written app MA_line N.eqb Pos.eqb andb].
  rewrite span_line; [cbn [length]; f_equal; lia | | exact Hs].
  apply Forall_forall. intros c Hc.
  pose proof (proj1 (forallb_forall _ _) H c Hc) as Hn. cbn beta in Hn.
  now destruct (is_line_terminator c).
Qed.

Lemma literal_hit (q : char) (p : option char) (body s : text) :
  absent q body = true ->
  dmatch (quoted_pattern q) p ((q :: body ++ [q]) ++ s) = Some (length (q :: body ++ [q])).
Proof.
  intros H. cbn [app]. rewrite <- app_assoc. cbn [app].
  rewrite quoted_hit by exact H. cbn [length]. rewrite length_app. cbn [length].
  f_equal. lia.
Qed.

(** *** One pass over the segments *)

Section Segments.

Variable MA : option char -> text -> option nat.
Variable by_ : text.
Variables f g : segment -> text.

Hypothesis MA_le : forall p s n, MA p s = Some n -> n <= length s.
Hypothesis MA_pos : forall p s n, MA p s = Some n -> 1 <= n.
Hypothesis pass_or_hit :
  forall seg more, tame (seg :: more) = true ->
    (g seg = by_ /\ forall p, MA p (f seg ++ flat_map f more) = Some (length (f seg)))
    \/ (g seg = f seg
        /\ forall a c b p, f seg = a ++ c :: b -> MA p (c :: b ++ flat_map f more) = None).

Lemma rep_segments (segs : list segment) :
  tame segs = true ->
  forall p, rep MA by_ p (flat_map f segs) 0 = flat_map g segs.
Proof.
  induction segs as [|seg more IH]; intros Ht p.
  - cbn [flat_map]. now apply rep_nil.
  - assert (Hmore : tame more = true).
    { cbn [tame] in Ht. apply andb_prop in Ht. tauto. }
    cbn [flat_map].
    destruct (pass_or_hit seg more Ht) as [[Hg Hhit] | [Hg Hpass]].
    + rewrite rep_hit by (try apply Hhit; assumption). rewrite Hg. f_equal. now apply IH.
    + rewrite rep_pass by exact Hpass. rewrite Hg. f_equal. now apply IH.
Qed.

End Segments.

Lemma replace_good (r : regex) (by_ s : text) :
  good_pattern true r -> replace r by_ s = rep (MA_of r) by_ None s 0.
Proof.
  intros G. apply replace_rep.
  - now apply match_at_MA_of with (strict := true).
  - apply MA_of_le.
  - now apply MA_of_pos with (strict := true).
Qed.

Lemma replace_line (by_ s : text) : replace RE_LINE_COMMENT by_ s = rep MA_line by_ None s 0.
Proof. apply replace_rep; [apply match_at_line | apply MA_line_le | apply MA_line_pos]. Qed.

Lemma replace_block (by_ s : text) : replace RE_BLOCK_COMMENT by_ s = rep MA_block by_ None s 0.
Proof. apply replace_rep; [apply match_at_block | apply MA_block_le | apply MA_block_pos]. Qed.

Lemma at_stage_written (seg : segment) : at_stage 0 seg = written seg.
Proof. destruct seg; try reflexivity. unfold at_stage. cbn [stage_of]. now destruct (N.eqb q sq). Qed.

Lemma at_stage_kept (seg : segment) : at_stage 5 seg = kept seg.
Proof. destruct seg; try reflexivity. unfold at_stage. cbn [stage_of]. now destruct (N.eqb q sq). Qed.

Lemma at_stage_code (k : nat) (s : text) : at_stage k (Code s) = s.
Proof. unfold at_stage. now destruct (stage_of (Code s) <=? k). Qed.

Lemma starts_line_eol (k : nat) (more : list segment) :
  starts_line more = true -> at_eol (flat_map (at_stage k) more).
Proof.
  destruct more as [|[[|c s]| | | |] more']; try discriminate; intros H; [exact I|].
  cbn [flat_map]. rewrite at_stage_code. exact H.
Qed.

Lemma eol_no_star (s : text) : at_eol s -> hd_error s <> Some 42%N.
Proof. destruct s as [|c s]; [discriminate|]. cbn. intros H [= ->]. discriminate. Qed.

Lemma nothing_inside (s : text) (MA : option char -> text -> option nat) :
  forall (a : text) (c : char) (b : text) (p : option char),
    [] = a ++ c :: b -> MA p (c :: b ++ s) = None.
Proof. intros [|x a] c b p H; discriminate. Qed.

Ltac split_bools :=
  repeat match goal with
         | H : (_ && _)%bool = true |- _ => apply andb_prop in H; destruct H
         end.

Ltac quote_cases q H :=
  apply orb_prop in H;
  destruct H as [H | H]; apply N.eqb_eq in H; subst q.

Lemma absent_written (k q : char) (body : text) :
  N.eqb k q = false -> absent k body = true -> absent k (q :: body ++ [q]) = true.
Proof.
  intros Hq Hb. rewrite absent_cons, absent_app, absent_cons, Hq, Hb. reflexivity.
Qed.

Lemma free_written (y q : char) (body : text) (nx : option char) :
  N.eqb q 47 = false -> free 47%N y (body ++ [q]) (Some y) = true ->
  free 47%N y (q :: body ++ [q]) nx = true.
Proof.
  intros Hq Hb. rewrite free_cons, Hq. cbn [andb negb]. now apply free_worst.
Qed.

Lemma free_line_comment (body : text) (nx : option char) :
  free 47%N 42%N (47%N :: body) None = true -> nx <> Some 42%N ->
  free 47%N 42%N (47%N :: 47%N :: body) nx = true.
Proof.
  intros H Hn. rewrite free_cons.
  change (negb (N.eqb 47 47 && N.eqb 47 42)) with true. cbn [andb].
  eapply free_next; eassumption.
Qed.

(** Pass 1: the template literals. *)
Lemma pass_template (segs : list segment) :
  tame segs = true ->
  replace RE_TEMPLATE [dq; dq] (flat_map (at_stage 0) segs) = flat_map (at_stage 1) segs.
Proof.
  intros Ht. rewrite replace_good by apply quoted_patterns_good.
  apply rep_segments; [apply MA_of_le | apply MA_of_pos with (strict := true);
                                        apply quoted_patterns_good | | exact Ht].
  clear segs Ht. intros seg more Ht. cbn [tame] in Ht. split_bools.
  change (MA_of RE_TEMPLATE) with (dmatch (quoted_pattern backtick)).
  destruct seg as [s|q body|body|body|body];
    cbn [lexical_segment calm_segment] in *; split_bools.
  - right. split; [reflexivity|]. rewrite at_stage_code. now apply quoted_pass.
  - right. split; [unfold at_stage; cbn [stage_of]; now destruct (N.eqb q sq)|].
    rewrite at_stage_written. cbn [written]. apply quoted_pass.
    match goal with H : (N.eqb q sq || N.eqb q dq)%bool = true |- _ => quote_cases q H end;
      now apply absent_written.
  - left. split; [reflexivity|]. intros p. rewrite at_stage_written. now apply literal_hit.
  - right. split; [reflexivity|]. rewrite at_stage_written. cbn [written]. apply quoted_pass.
    rewrite !absent_cons, absent_app, !absent_cons.
    match goal with H : absent backtick body = true |- _ => rewrite H end. reflexivity.
  - right. split; [reflexivity|]. rewrite at_stage_written. cbn [written]. apply quoted_pass.
    rewrite !absent_cons.
    match goal with H : absent backtick body = true |- _ => rewrite H end. reflexivity.
Qed.

(** Pass 2: the block comments. *)
Lemma pass_block (segs : list segment) :
  tame segs = true ->
  replace RE_BLOCK_COMMENT [] (flat_map (at_stage 1) segs) = flat_map (at_stage 2) segs.
Proof.
  intros Ht. rewrite replace_block.
  apply rep_segments; [apply MA_block_le | apply MA_block_pos | | exact Ht].
  clear segs Ht. intros seg more Ht. cbn [tame] in Ht. split_bools.
  destruct seg as [s|q body|body|body|body];
    cbn [lexical_segment calm_segment] in *; unfold no_opener in *; split_bools.
  - right. split; [reflexivity|]. rewrite at_stage_code. apply MA_block_free.
    now apply free_worst.
  - right. split; [unfold at_stage; cbn [stage_of]; now destruct (N.eqb q sq)|].
    assert (E : at_stage 1 (Quoted q body) = q :: body ++ [q]).
    { unfold at_stage. cbn [stage_of]. now destruct (N.eqb q sq). }
    rewrite E. apply MA_block_free.
    match goal with H : (N.eqb q sq || N.eqb q dq)%bool = true |- _ => quote_cases q H end;
      now apply free_written.
  - right. split; [reflexivity|]. apply MA_block_free. reflexivity.
  - left. split; [reflexivity|]. intros p.
    change (at_stage 1 (BlockComment body)) with (written (BlockComment body)).
    now apply block_hit.
  - right. split; [reflexivity|].
    change (at_stage 1 (LineComment body)) with (47%N :: 47%N :: body).
    apply MA_block_free. apply free_line_comment; [assumption|].
    apply eol_no_star. now apply starts_line_eol.
Qed.

(** Pass 3: the line comments. *)
Lemma pass_line (segs : list segment) :
  tame segs = true ->
  replace RE_LINE_COMMENT [] (flat_map (at_stage 2) segs) = flat_map (at_stage 3) segs.
Proof.
  intros Ht. rewrite replace_line.
  apply rep_segments; [apply MA_line_le | apply MA_line_pos | | exact Ht].
  clear segs Ht. intros seg more Ht. cbn [tame] in Ht. split_bools.
  destruct seg as [s|q body|body|body|body];
    cbn [lexical_segment calm_segment] in *; unfold no_opener in *; split_bools.
  - right. split; [reflexivity|]. rewrite at_stage_code. apply MA_line_free.
    now apply free_worst.
  - right. split; [unfold at_stage; cbn [stage_of]; now destruct (N.eqb q sq)|].
    assert (E : at_stage 2 (Quoted q body) = q :: body ++ [q]).
    { unfold at_stage. cbn [stage_of]. now destruct (N.eqb q sq). }
    rewrite E. apply MA_line_free.
    match goal with H : (N.eqb q sq || N.eqb q dq)%bool = true |- _ => quote_cases q H end;
      now apply free_written.
  - right. split; [reflexivity|]. apply MA_line_free. reflexivity.
  - right. split; [reflexivity|]. apply nothing_inside.
  - left. split; [reflexivity|]. intros p.
    change (at_stage 2 (LineComment body)) with (written (LineComment body)).
    apply line_hit; [assumption | now apply starts_line_eol].
Qed.

(** Pass 4: the single-quoted literals. *)
Lemma pass_single (segs : list segment) :
  tame segs = true ->
  replace RE_SINGLE_QUOTED [dq; dq] (flat_map (at_stage 3) segs) = flat_map (at_stage 4) segs.
Proof.
  intros Ht. rewrite replace_good by apply quoted_patterns_good.
  apply rep_segments; [apply MA_of_le | apply MA_of_pos with (strict := true);
                                        apply quoted_patterns_good | | exact Ht].
  clear segs Ht. intros seg more Ht. cbn [tame] in Ht. split_bools.
  change (MA_of RE_SINGLE_QUOTED) with (dmatch (quoted_pattern sq)).
  destruct seg as [s|q body|body|body|body];
    cbn [lexical_segment calm_segment] in *; split_bools.
  - right. split; [reflexivity|]. rewrite at_stage_code. now apply quoted_pass.
  - match goal with H : (N.eqb q sq || N.eqb q dq)%bool = true |- _ => quote_cases q H end.
    + left. split; [reflexivity|]. intros p.
      change (at_stage 3 (Quoted sq body)) with (sq :: body ++ [sq]). now apply literal_hit.
    + right. split; [reflexivity|].
      change (at_stage 3 (Quoted dq body)) with (dq :: body ++ [dq]).
      apply quoted_pass. now apply absent_written.
  - right. split; [reflexivity|]. now apply quoted_pass.
  - right. split; [reflexivity|]. apply nothing_inside.
  - right. split; [reflexivity|]. apply nothing_inside.
Qed.

(** Pass 5: the double-quoted literals, and the empty literals that stand
    for the literals rewritten before. *)
Lemma pass_double (segs : list segment) :
  tame segs = true ->
  replace RE_DOUBLE_QUOTED [dq; dq] (flat_map (at_stage 4) segs) = flat_map (at_stage 5) segs.
Proof.
  intros Ht. rewrite replace_good by apply quoted_patterns_good.
  apply rep_segments; [apply MA_of_le | apply MA_of_pos with (strict := true);
                                        apply quoted_patterns_good | | exact Ht].
  clear segs Ht. intros seg more Ht. cbn [tame] in Ht. split_bools.
  change (MA_of RE_DOUBLE_QUOTED) with (dmatch (quoted_pattern dq)).
  destruct seg as [s|q body|body|body|body];
    cbn [lexical_segment calm_segment] in *; split_bools.
  - right. split; [reflexivity|]. rewrite at_stage_code. now apply quoted_pass.
  - match goal with H : (N.eqb q sq || N.eqb q dq)%bool = true |- _ => quote_cases q H end.
    + left. split; [reflexivity|]. intros p.
      change (at_stage 4 (Quoted sq body)) with (dq :: [] ++ [dq]). now apply literal_hit.
    + left. split; [reflexivity|]. intros p.
      change (at_stage 4 (Quoted dq body)) with (dq :: body ++ [dq]). now apply literal_hit.
  - left. split; [reflexivity|]. intros p.
    change (at_stage 4 (Template body)) with (dq :: [] ++ [dq]). now apply literal_hit.
  - right. split; [reflexivity|]. apply nothing_inside.
  - right. split; [reflexivity|]. apply nothing_inside.
Qed.

(** On a tame text the normalizer leaves exactly what stands outside
    comments and strings. *)
Lemma stripCommentsAndStrings_render (segs : list segment) :
  tame segs = true -> stripCommentsAndStrings (render segs) = outside segs.
Proof.
  intros Ht. unfold stripCommentsAndStrings, render, outside.
  rewrite (flat_map_ext _ _ (fun seg => eq_sym (at_stage_written seg))).
  rewrite (flat_map_ext _ _ (fun seg => eq_sym (at_stage_kept seg))).
  now rewrite pass_template, pass_block, pass_line, pass_single, pass_double.
Qed.

(** ** The score of a text read as code, literals and comments *)

Lemma calculateComplexity_only_if (s : text) (n : nat) :
  if_occurrences s = n ->
  (forall r, In r COMPLEXITY_TOKENS -> r <> TOK_IF -> count_matches r s = 0) ->
  calculateComplexity s = (1 + Z.of_nat n)%Z.
Proof.
  intros Hif Hother. rewrite <- count_if_occurrences in Hif.
  rewrite calculateComplexity_sum. unfold COMPLEXITY_TOKENS.
  cbn [map Zsum fold_right]. rewrite Hif.
  rewrite !Hother; try token_neq; try lia;
    unfold COMPLEXITY_TOKENS; cbn [In]; tauto.
Qed.

Lemma same_frame_outside (segs segs' : list segment) :
  Forall2 same_frame segs segs' -> outside segs = outside segs'.
Proof.
  induction 1 as [|seg seg' segs segs' H _ IH]; [reflexivity|].
  unfold outside in *. cbn [flat_map]. rewrite IH. f_equal.
  destruct seg, seg'; cbn in H; try contradiction; cbn [kept]; congruence.
Qed.

Lemma calculateComplexity_space (a b : text) (w y : char) :
  is_space w = true -> is_space y = true ->
  calculateComplexity (a ++ w :: b) = calculateComplexity (a ++ y :: b).
Proof.
  intros Hw Hy.
  rewrite <- (@calculateComplexity_del a b w w w Hw Hw Hw).
  now apply calculateComplexity_del.
Qed.

Lemma calculateComplexity_squash_app (s : text) :
  forall pre, calculateComplexity (pre ++ s) = calculateComplexity (pre ++ squash s).
Proof.
  induction s as [|c s IH]; intros pre; [reflexivity|].
  replace (pre ++ c :: s) with ((pre ++ [c]) ++ s) by now rewrite <- app_assoc.
  rewrite IH, <- app_assoc. cbn [app squash].
  destruct (is_space c) eqn:Ec; [|reflexivity].
  destruct (squash s) as [|d tl] eqn:E.
  - now apply calculateComplexity_space.
  - destruct (is_space d) eqn:Ed.
    + now apply calculateComplexity_del.
    + now apply calculateComplexity_space.
Qed.

Lemma calculateComplexity_squash (s : text) :
  calculateComplexity s = calculateComplexity (squash s).
Proof. apply (calculateComplexity_squash_app s []). Qed.

(** C1, as the code has it. Let a raw text be read as pieces of code,
    string and template literals and comments, where no literal and no
    comment holds a backtick, no string literal holds a comment opener, no
    double-quoted literal an apostrophe and no line comment the opener of a
    block comment. If the text outside comments and strings has [n]
    occurrences of [if (] and no match of any other decision-point token,
    the complexity score of the raw text is [1 + n]: the normalizer leaves
    exactly the text outside comments and strings. The text
    [if (a) {} if (b) {}] scores 3. *)
Theorem complexity_counts_if (segs : list segment) (n : nat) :
  tame segs = true ->
  if_occurrences (outside segs) = n ->
  (forall r, In r COMPLEXITY_TOKENS -> r <> TOK_IF -> count_matches r (outside segs) = 0) ->
  score (render segs) = (1 + Z.of_nat n)%Z
  /\ stripCommentsAndStrings (render segs) = outside segs
  /\ count_matches TOK_IF (stripCommentsAndStrings (render segs)) = n
  /\ score t#"if (a) {} if (b) {}" = 3%Z.
Proof.
  intros Ht Hif Hother.
  pose proof (stripCommentsAndStrings_render segs Ht) as Hs.
  split; [|split; [exact Hs | split; [|vm_compute; reflexivity]]].
  - unfold score. rewrite Hs. now apply calculateComplexity_only_if.
  - rewrite Hs, count_if_occurrences. exact Hif.
Qed.

Lemma complexity_counts_if_witness :
  score (render commented_ifs) = (1 + Z.of_nat 2)%Z
  /\ stripCommentsAndStrings (render commented_ifs) = outside commented_ifs
  /\ count_matches TOK_IF (stripCommentsAndStrings (render commented_ifs)) = 2
  /\ score t#"if (a) {} if (b) {}" = 3%Z.
Proof.
  apply (@complexity_counts_if commented_ifs 2).
  - vm_compute. reflexivity.
  - vm_compute. reflexivity.
  - intros r Hin Hneq. unfold COMPLEXITY_TOKENS in Hin. cbn [In] in Hin.
    repeat (destruct Hin as [<- | Hin];
            [first [ now elim Hneq | vm_compute; reflexivity ] | ]).
    destruct Hin.
Defined.

(** C1, as stated, fails. In [u = 'http://x'; if (a) {}] the string literal
    is closed by its quote and one [if (] stands outside it, with no other
    decision point; the normalizer takes the two slashes in the literal for
    a comment and removes the rest of the line, so the score is 1 and not
    2. The same happens with each of the other things a literal or a
    comment may hold that the normalizer takes for the start of something
    else. *)
Lemma if_count_fails_on_unruly_text :
  lexical url_in_string = true
  /\ render url_in_string = t#"u = 'http://x'; if (a) {}"
  /\ if_occurrences (outside url_in_string) = 1
  /\ (forall r, In r COMPLEXITY_TOKENS -> r <> TOK_IF ->
                count_matches r (outside url_in_string) = 0)
  /\ score (render url_in_string) = 1%Z
  /\ Forall (fun segs =>
               lexical segs = true
               /\ if_occurrences (outside segs) = 1
               /\ map (fun r => count_matches r (outside segs)) COMPLEXITY_TOKENS
                  = [1; 0; 0; 0; 0; 0; 0; 0; 0; 0; 0; 0; 0]
               /\ score (render segs) = 1%Z) unruly_readings
  /\ ~ (forall segs n,
           lexical segs = true ->
           if_occurrences (outside segs) = n ->
           (forall r, In r COMPLEXITY_TOKENS -> r <> TOK_IF ->
                      count_matches r (outside segs) = 0) ->
           score (render segs) = (1 + Z.of_nat n)%Z).
Proof.
  assert (Hother : forall r, In r COMPLEXITY_TOKENS -> r <> TOK_IF ->
                             count_matches r (outside url_in_string) = 0).
  { intros r Hin Hneq. unfold COMPLEXITY_TOKENS in Hin. cbn [In] in Hin.
    repeat (destruct Hin as [<- | Hin];
            [first [ now elim Hneq | vm_compute; reflexivity ] | ]).
    destruct Hin. }
  split; [vm_compute; reflexivity|].
  split; [vm_compute; reflexivity|].
  split; [vm_compute; reflexivity|].
  split; [exact Hother|].
  split; [vm_compute; reflexivity|].
  split.
  - unfold unruly_readings.
    repeat (apply Forall_cons; [repeat split; vm_compute; reflexivity|]).
    apply Forall_nil.
  - intros H. specialize (H url_in_string 1 eq_refl eq_refl Hother).
    vm_compute in H. discriminate H.
Qed.

(** C7, as the code has it. The score of a raw text does not change when
    its runs of white space change, as long as no run becomes empty or
    appears, and a run holds a line terminator after the change exactly
    when it held one before. The scorer itself, on the text it is given,
    does not tell line terminators from other white space either. When a
    raw text is read as pieces of code, string and template literals and
    comments, where no literal and no comment holds a backtick, no string
    literal holds a comment opener, no double-quoted literal an apostrophe
    and no line comment the opener of a block comment, its score is that
    of the text outside comments and strings, so it does not depend on the
    interior of the literals and of the comments, nor on which literals
    and comments there are, nor on the white space of the code around them
    as long as no run of it is emptied or created. *)
Theorem score_invariances :
  (forall t t', squeeze t = squeeze t' -> score t = score t')
  /\ (forall s s', squash s = squash s' -> calculateComplexity s = calculateComplexity s')
  /\ (forall segs, tame segs = true -> score (render segs) = calculateComplexity (outside segs))
  /\ (forall segs segs',
         tame segs = true -> tame segs' = true -> Forall2 same_frame segs segs' ->
         score (render segs) = score (render segs'))
  /\ (forall segs segs',
         tame segs = true -> tame segs' = true ->
         squash (outside segs) = squash (outside segs') ->
         score (render segs) = score (render segs')).
Proof.
  split; [|split; [|split; [|split]]].
  - intros t t' H. now rewrite (score_squeeze t), (score_squeeze t'), H.
  - intros s s' H.
    now rewrite (calculateComplexity_squash s), (calculateComplexity_squash s'), H.
  - intros segs Ht. unfold score. now rewrite stripCommentsAndStrings_render.
  - intros segs segs' Ht Ht' H. unfold score.
    rewrite !stripCommentsAndStrings_render by assumption.
    now rewrite (same_frame_outside H).
  - intros segs segs' Ht Ht' H. unfold score.
    rewrite !stripCommentsAndStrings_render by assumption.
    now rewrite (calculateComplexity_squash (outside segs)),
      (calculateComplexity_squash (outside segs')), H.
Qed.

Lemma score_invariances_witness :
  score (t#"if  (a)" ++ [13%N; 10%N; 32%N; 32%N] ++ t#"{ b   ? c : d } // e" ++ [9%N; 10%N])
  = score (t#"if" ++ [9%N] ++ t#"(a)" ++ [10%N] ++ t#"{" ++ [160%N] ++ t#"b ? c : d } // e"
             ++ [8232%N])
  /\ calculateComplexity (t#"switch (x) {" ++ [10%N] ++ t#"case 1: f(); }")
     = calculateComplexity t#"switch (x) {   case   1: f(); }"
  /\ score (render commented_ifs) = calculateComplexity (outside commented_ifs)
  /\ score (render commented_ifs) = score (render commented_ifs')
  /\ score (render commented_ifs) = score (render commented_ifs_respaced).
Proof.
  destruct score_invariances as (Hspace & Hscorer & Houtside & Hcontent & Hboth).
  split; [|split; [|split; [|split]]].
  - apply Hspace. vm_compute. reflexivity.
  - apply Hscorer. vm_compute. reflexivity.
  - apply Houtside. vm_compute. reflexivity.
  - apply Hcontent; [vm_compute; reflexivity | vm_compute; reflexivity |].
    unfold commented_ifs, commented_ifs'.
    repeat (apply Forall2_cons; [cbn; auto|]). apply Forall2_nil.
  - apply Hboth; vm_compute; reflexivity.
Defined.
